(** * spotgen: the comparator framework (sort.js) and the entry-resolution
      engine (spotify.js), embedded in Rocq.

    Conventions of the embedding.
    - JavaScript numbers that the code handles (comparator results, array
      positions, popularity scores) are integers; they are modelled by [Z]
      and [nat].
    - Strings are sequences of code units below 256 ([string]).
    - A thrown exception and a rejected promise are both an [Err]; a value
      returned and a promise resolved are both an [Ok].
    - Remote lookups go through one state-passing monad whose state records
      every URL that was requested, in order. *)

From Stdlib Require Import List ZArith String Ascii Bool Arith Lia.
From Stdlib Require Import Permutation Sorted DecimalString.
Import ListNotations.

Set Implicit Arguments.

Open Scope string_scope.
Open Scope nat_scope.
Open Scope list_scope.

(* ================================================================== *)
(** * Host values *)
(* ================================================================== *)

(** Parsed JSON bodies, plus [undefined]; the fields of an object have
    distinct names. *)
#[local] Unset Elimination Schemes.
Inductive json : Type :=
| JUndef
| JNull
| JBool (b : bool)
| JNum (n : Z)
| JStr (s : string)
| JArr (items : list json)
| JObj (fields : list (string * json)).
#[local] Set Elimination Schemes.

(** What a throw or a rejection carries. *)
Inductive reason : Type :=
| TypeError
| Failure (payload : json).

Inductive outcome (A : Type) : Type :=
| Ok (a : A)
| Err (r : reason).
Arguments Ok {A} a.
Arguments Err {A} r.

Definition obind {A B} (m : outcome A) (k : A -> outcome B) : outcome B :=
  match m with
  | Ok a => k a
  | Err r => Err r
  end.

Declare Scope outcome_scope.
Delimit Scope outcome_scope with outcome.
Notation "x <- m ;; k" := (obind m (fun x => k))
  (at level 61, m at next level, right associativity) : outcome_scope.

(** The relational operator [<] of the host, per type of operand. *)
Class Relational (B : Type) := js_lt : B -> B -> bool.

#[global] Instance Relational_Z : Relational Z := Z.ltb.
#[global] Instance Relational_nat : Relational nat := Nat.ltb.
#[global] Instance Relational_string : Relational string := String.ltb.

(** [x > y] is [y < x]. *)
Definition js_gt {B} `{Relational B} (x y : B) : bool := js_lt y x.

(** ** Truthiness and property reads *)

(** [ToBoolean]. *)
Definition truthy (j : json) : bool :=
  match j with
  | JUndef | JNull => false
  | JBool b => b
  | JNum n => negb (n =? 0)%Z
  | JStr s => negb (s =? "")%string
  | JArr _ | JObj _ => true
  end.

Definition nullish (j : json) : bool :=
  match j with
  | JUndef | JNull => true
  | _ => false
  end.

Fixpoint lookup {V} (k : string) (props : list (string * V)) : option V :=
  match props with
  | [] => None
  | (k', v) :: rest => if (k' =? k)%string then Some v else lookup k rest
  end.

(** [j.k] for a property name [k] that no prototype defines (the code reads
    [id], [uri], [name], [popularity], [artists], [album], [tracks],
    [albums], [items]): the field of an object, [undefined] elsewhere.  The
    read is only meaningful when [j] is not nullish; see [prop]. *)
Definition get (j : json) (k : string) : json :=
  match j with
  | JObj fields => match lookup k fields with Some v => v | None => JUndef end
  | _ => JUndef
  end.

(** [j[0]] where [j] is not nullish. *)
Definition at0 (j : json) : json :=
  match j with
  | JArr (x :: _) => x
  | JStr (String c _) => JStr (String c EmptyString)
  | JObj _ => get j "0"
  | _ => JUndef
  end.

(** Unguarded reads: reading a property of [undefined] or [null] throws. *)
Definition prop (j : json) (k : string) : outcome json :=
  if nullish j then Err TypeError else Ok (get j k).

Definition elem0 (j : json) : outcome json :=
  if nullish j then Err TypeError else Ok (at0 j).

(** ** Strings *)

Definition is_space (c : ascii) : bool :=
  let n := nat_of_ascii c in
  ((9 <=? n) && (n <=? 13)) || (n =? 32) || (n =? 160).

Fixpoint trim_start (l : list ascii) : list ascii :=
  match l with
  | c :: rest => if is_space c then trim_start rest else l
  | [] => []
  end.

(** [String.prototype.trim] *)
Definition trim (s : string) : string :=
  string_of_list_ascii
    (rev (trim_start (rev (trim_start (list_ascii_of_string s))))).

(** The lower-case form of a code unit below 256: the letters A to Z, and
    the accented capitals from 192 to 222 (215, the multiplication sign,
    is no letter). *)
Definition lower (c : ascii) : ascii :=
  let n := nat_of_ascii c in
  if ((65 <=? n) && (n <=? 90)) ||
     ((192 <=? n) && (n <=? 222) && negb (n =? 215))
  then ascii_of_nat (n + 32) else c.

(** [String.prototype.toLowerCase] *)
Fixpoint toLowerCase (s : string) : string :=
  match s with
  | EmptyString => EmptyString
  | String c rest => String (lower c) (toLowerCase rest)
  end.

(** [str.substring(n)] *)
Fixpoint substring_from (n : nat) (s : string) : string :=
  match n, s with
  | O, _ => s
  | S n', String _ rest => substring_from n' rest
  | S _, EmptyString => EmptyString
  end.

(** A match of [/^pat/i], for a pattern of lower-case literal characters. *)
Fixpoint matches_prefix_i (pat str : string) : bool :=
  match pat, str with
  | EmptyString, _ => true
  | String p pat', String c str' =>
      Ascii.eqb p (lower c) && matches_prefix_i pat' str'
  | String _ _, EmptyString => false
  end.

Definition hex_digit (n : nat) : ascii :=
  if n <? 10 then ascii_of_nat (48 + n) else ascii_of_nat (55 + n).

Definition percent (n : nat) : list ascii :=
  ["%"%char; hex_digit (n / 16); hex_digit (n mod 16)].

Definition unreserved (c : ascii) : bool :=
  let n := nat_of_ascii c in
  ((48 <=? n) && (n <=? 57)) || ((65 <=? n) && (n <=? 90)) ||
  ((97 <=? n) && (n <=? 122)) ||
  existsb (Ascii.eqb c) ["-"; "_"; "."; "!"; "~"; "*"; "'"; "("; ")"]%char.

(** [encodeURIComponent]: unreserved characters stay, every other code unit
    is written as the percent-escaped bytes of its UTF-8 encoding. *)
Fixpoint encodeURIComponent (s : string) : string :=
  match s with
  | EmptyString => EmptyString
  | String c rest =>
      let n := nat_of_ascii c in
      let enc :=
        if unreserved c then [c]
        else if n <? 128 then percent n
        else percent (192 + n / 64) ++ percent (128 + n mod 64) in
      append (string_of_list_ascii enc) (encodeURIComponent rest)
  end.

Definition Z_to_string (n : Z) : string :=
  NilZero.string_of_int (Z.to_int n).

Fixpoint join (sep : string) (l : list string) : string :=
  match l with
  | [] => EmptyString
  | [x] => x
  | x :: rest => append x (append sep (join sep rest))
  end.

(** [ToString] on parsed JSON. *)
Fixpoint ToString (j : json) : string :=
  match j with
  | JUndef => "undefined"
  | JNull => "null"
  | JBool true => "true"
  | JBool false => "false"
  | JNum n => Z_to_string n
  | JStr s => s
  | JArr items =>
      join "," (map (fun x => if nullish x then EmptyString else ToString x) items)
  | JObj _ => "[object Object]"
  end.

(** ** Property keys and their enumeration order *)

Definition digit_value (c : ascii) : option N :=
  let n := N_of_ascii c in
  if ((48 <=? n) && (n <=? 57))%N then Some (n - 48)%N else None.

Fixpoint digits_value (acc : N) (s : string) : option N :=
  match s with
  | EmptyString => Some acc
  | String c rest =>
      match digit_value c with
      | Some d => digits_value (10 * acc + d)%N rest
      | None => None
      end
  end.

(** A property name is an array index when it is the canonical decimal
    numeral of an integer below [2^32 - 1]. *)
Definition array_index (k : string) : option N :=
  match k with
  | EmptyString => None
  | String "0" EmptyString => Some 0%N
  | String "0" _ => None
  | _ =>
      match digits_value 0 k with
      | Some n => if (n <? 4294967295)%N then Some n else None
      | None => None
      end
  end.

Fixpoint insert_index (n : N) (k : string) (sorted : list (N * string))
  : list (N * string) :=
  match sorted with
  | [] => [(n, k)]
  | (m, k') :: rest =>
      if (n <? m)%N then (n, k) :: sorted else (m, k') :: insert_index n k rest
  end.

Fixpoint index_keys (keys : list string) : list (N * string) :=
  match keys with
  | [] => []
  | k :: rest =>
      match array_index k with
      | Some n => insert_index n k (index_keys rest)
      | None => index_keys rest
      end
  end.

Definition is_index (k : string) : bool :=
  match array_index k with Some _ => true | None => false end.

(** The order in which [for (k in o)] visits the own keys of [o], given
    those keys in order of creation: the array indices first, in ascending
    numeric order, then the other names in order of creation. *)
Definition for_in_order (created : list string) : list string :=
  map snd (index_keys created) ++ filter (fun k => negb (is_index k)) created.

(** ** Promises *)

(** A promise over a state [S]: running it to completion changes the state
    and either resolves or rejects. *)
Definition promise (S A : Type) := S -> outcome A * S.

(** [Promise.resolve(a)] *)
Definition resolve {S A} (a : A) : promise S A := fun s => (Ok a, s).

(** [Promise.reject(r)] *)
Definition reject {S A} (r : reason) : promise S A := fun s => (Err r, s).

(** [p.then(f)]: [f] runs once [p] has resolved, on the state [p] left; a
    rejection passes through and [f] is not run. *)
Definition then_ {S A B} (p : promise S A) (f : A -> promise S B)
  : promise S B :=
  fun s =>
    match p s with
    | (Ok a, s') => f a s'
    | (Err r, s') => (Err r, s')
    end.

(** A synchronous computation that may throw, run as a [then] callback. *)
Definition settle {S A} (o : outcome A) : promise S A := fun s => (o, s).

(** ** The array sort primitive *)

Definition comparator (A : Type) := A -> A -> Z.

(** [ToString] of the elements of an array, which the primitive's default
    order compares. *)
Class Stringable (T : Type) := to_string : T -> string.

(** Whether an element of an array is the value [undefined]. *)
Class Undefinable (T : Type) := is_undefined : T -> bool.

(** [SortCompare] of [Array.prototype.sort]: [undefined] goes behind
    every other value and is never handed to the comparison function; on
    two other values the result is that of the comparison function when
    one is given, and the order of the string conversions otherwise. *)
Definition SortCompare {T} `{Stringable T} `{Undefinable T}
    (comparefn : option (comparator T)) : comparator T :=
  fun x y =>
    if is_undefined x && is_undefined y then 0%Z
    else if is_undefined x then 1%Z
    else if is_undefined y then (-1)%Z
    else
      match comparefn with
      | Some f => f x y
      | None =>
          let xString := to_string x in
          let yString := to_string y in
          if String.ltb xString yString then (-1)%Z
          else if String.ltb yString xString then 1%Z
          else 0%Z
      end.

(** A comparison function is consistent when it is a total preorder read
    through the sign of its result. *)
Definition consistent {T} (c : comparator T) : Prop :=
  (forall a, c a a = 0%Z) /\
  (forall a b, (c a b < 0)%Z <-> (c b a > 0)%Z) /\
  (forall a b d, (c a b <= 0)%Z -> (c b d <= 0)%Z -> (c a d <= 0)%Z).

(** What the language promises of the primitive, whatever its algorithm:
    with a consistent comparison function the result holds the same
    elements and is ordered under that function.  Nothing is promised on
    the relative order of elements that compare equal. *)
Definition sorts (host_sort : forall T, comparator T -> list T -> list T)
  : Prop :=
  forall T (c : comparator T) (l : list T),
    consistent c ->
    Permutation l (host_sort T c l) /\
    StronglySorted (fun a b => (c a b <= 0)%Z) (host_sort T c l).

(* ================================================================== *)
(** * sort.js: the comparator framework *)
(* ================================================================== *)

Module Sort.

(** [sort.identity] *)
Definition identity {A} (x : A) : A := x.

(** [sort.ascending(fn)]; the call without argument is
    [ascending identity]. *)
Definition ascending {A B} `{Relational B} (fn : A -> B) : comparator A :=
  fun a b =>
    let x := fn a in
    let y := fn b in
    if js_lt x y then (-1)%Z else if js_gt x y then 1%Z else 0%Z.

(** [sort.descending(fn)] *)
Definition descending {A B} `{Relational B} (fn : A -> B) : comparator A :=
  fun a b =>
    let x := fn a in
    let y := fn b in
    if js_lt x y then 1%Z else if js_gt x y then (-1)%Z else 0%Z.

(** The [callback] that [sort.combine] folds with. *)
Definition callback {A} (fn1 fn2 : comparator A) : comparator A :=
  fun a b =>
    let val := fn1 a b in
    if (val =? 0)%Z then fn2 a b else val.

(** [Array.prototype.reduce] without initial value: it throws on the
    empty array and otherwise folds from the left, starting with the
    first element. *)
Definition reduce {T} (f : T -> T -> T) (args : list T) : outcome T :=
  match args with
  | [] => Err TypeError
  | x :: xs => Ok (fold_left f xs x)
  end.

(** [sort.combine(...)], on the list of its arguments. *)
Definition combine {A} (args : list (comparator A)) : outcome (comparator A) :=
  reduce callback args.

(** The decorated elements of [stableSort]: [{key: i++, val: x}]. *)
Record indexed (A : Type) : Type := pair { key : nat; val : A }.
Arguments pair {A} key val.
Arguments key {A} i.
Arguments val {A} i.

(** [arr.map(pair)], the counter [i] standing at [i]. *)
Fixpoint pairs_from {A} (i : nat) (arr : list A) : list (indexed A) :=
  match arr with
  | [] => []
  | x :: rest => pair i x :: pairs_from (S i) rest
  end.

Section StableSort.
Variable host_sort : forall T, comparator T -> list T -> list T.

(** [sort.stableSort(arr, fn)] *)
Definition stableSort {A} `{Relational A}
    (arr : list A) (fn : option (comparator A)) : outcome (list A) :=
  let fn := match fn with Some f => f | None => ascending identity end in
  (cmp <- combine [(fun a b => fn (val a) (val b)); ascending key] ;;
   let pairs := pairs_from 0 arr in
   let pairs := host_sort cmp pairs in
   Ok (map val pairs))%outcome.
End StableSort.

End Sort.

(* ================================================================== *)
(** * spotify.js: the Queue *)
(* ================================================================== *)

(** A Queue is modelled by the content of its [queue] field; an operation
    that assigns to [self.queue] returns the new content. *)

(** What [Queue.contains] asks of an element: its [equals] method when it
    has one (reading the property throws on [undefined]), and reference
    identity [===]. *)
Class Entity (E : Type) := {
  equals_of : E -> outcome (option (E -> outcome bool));
  same : E -> E -> bool
}.

(** [Queue.add] *)
Definition Queue_add {E} (q : list E) (entry : E) : list E := q ++ [entry].

Section Queue.
Context {E : Type}.

(** [Queue.sort]: the array sort primitive, with [fn] or without. *)
Definition Queue_sort (host_sort : forall T, comparator T -> list T -> list T)
    `{Stringable E} `{Undefinable E} (fn : option (comparator E)) (q : list E)
  : list E :=
  host_sort E (SortCompare fn) q.

(** The test of [Queue.contains]:
    [(entry.equals && entry.equals(obj)) || entry === obj]. *)
Definition Queue_matches `{Entity E} (entry obj : E) : outcome bool :=
  (cap <- equals_of entry ;;
   match cap with
   | Some equals => r <- equals obj ;; Ok (r || same entry obj)
   | None => Ok (same entry obj)
   end)%outcome.

(** [Queue.contains] *)
Fixpoint Queue_contains `{Entity E} (q : list E) (obj : E) : outcome bool :=
  match q with
  | [] => Ok false
  | entry :: rest =>
      (m <- Queue_matches entry obj ;;
       if m then Ok true else Queue_contains rest obj)%outcome
  end.

(** [Queue.dedup] *)
Definition Queue_dedup `{Entity E} (q : list E) : outcome (list E) :=
  fold_left
    (fun result entry =>
       (r <- result ;;
        c <- Queue_contains r entry ;;
        if c then Ok r else Ok (Queue_add r entry))%outcome)
    q (Ok []).

(** Assignment [map[k] = v] on the own properties of [map], kept in order
    of creation. *)
Fixpoint set_prop {V} (k : string) (v : V) (props : list (string * V))
  : list (string * V) :=
  match props with
  | [] => [(k, v)]
  | (k', v') :: rest =>
      if (k' =? k)%string then (k, v) :: rest
      else (k', v') :: set_prop k v rest
  end.

Section Group.
(** The names that every array already answers to: its own [length] and
    what it inherits ([push], [concat], [constructor], ...).  With such a
    key [map[key]] is not a bucket; the code then throws (or, for
    [__proto__], writes into the shared prototype), which the model
    reports as [TypeError]. *)
Variable array_member : string -> bool.

(** The first loop of [Queue.group], one element. *)
Definition group_step (fn : E -> string)
    (map_ : list (string * list E)) (entry : E)
  : outcome (list (string * list E)) :=
  let key := fn entry in
  if array_member key then Err TypeError
  else
    let map1 :=
      match lookup key map_ with
      | None => set_prop key [] map_
      | Some _ => map_
      end in
    match lookup key map1 with
    | Some bucket => Ok (set_prop key (bucket ++ [entry]) map1)
    | None => Err TypeError
    end.

(** [Queue.group]; [fn] gives the property key that the result of the
    key function converts to. *)
Definition Queue_group (fn : E -> string) (q : list E)
  : outcome (list E) :=
  (map_ <- fold_left
             (fun acc entry => m <- acc ;; group_step fn m entry)
             q (Ok []) ;;
   Ok (fold_left
         (fun result k =>
            result ++ match lookup k map_ with Some b => b | None => [] end)
         (for_in_order (map fst map_)) []))%outcome.
End Group.

(** [Queue.resolveAll]: the chain [ready] is extended once per element;
    the Queue [result] that the callbacks share travels with it. *)
Definition Queue_resolveAll {S R} (fn : E -> promise S R) (q : list E)
  : promise S (list R) :=
  let ready :=
    fold_left
      (fun ready entry =>
         then_ ready (fun result =>
         then_ (fn entry) (fun value =>
         resolve (Queue_add result value))))
      q (resolve []) in
  then_ ready (fun result => resolve result).

(** [Queue.dispatch], given the [dispatch] method of the elements. *)
Definition Queue_dispatch {S R} (dispatch : E -> promise S R) (q : list E)
  : promise S (list R) :=
  Queue_resolveAll (fun entry => dispatch entry) q.

End Queue.

(* ================================================================== *)
(** * spotify.js: the entries *)
(* ================================================================== *)

(** Every object carries the identity it was created with ([oid]); [===] on
    objects compares identities.  A method that assigns to a field of
    [self] returns the updated object. *)

Record Track : Type := {
  Track_oid : nat;
  Track_entry : string;
  Track_responseSimple : json;
  Track_response : json
}.

Record Album : Type := {
  Album_oid : nat;
  Album_entry : string;
  Album_searchResponse : json;
  Album_albumResponse : json
}.

Record Artist : Type := {
  Artist_oid : nat;
  Artist_entry : string;
  Artist_artistResponse : json
}.

(** What a slot of a Queue can hold. *)
#[local] Unset Elimination Schemes.
Inductive value : Type :=
| VUndefined
| VTrack (t : Track)
| VAlbum (a : Album)
| VArtist (a : Artist)
| VQueue (oid : nat) (queue : list value).
#[local] Set Elimination Schemes.

(** The state that remote lookups and object creation act on: the URLs
    requested so far, oldest first, and the next free object identity. *)
Record World : Type := {
  requests : list string;
  next_oid : nat
}.

(** [new]: a fresh identity. *)
Definition fresh : promise World nat :=
  fun w => (Ok (next_oid w),
            {| requests := requests w; next_oid := S (next_oid w) |}).

(** [x !== ''] *)
Definition not_empty_string (j : json) : bool :=
  match j with
  | JStr s => negb (s =? "")%string
  | _ => true
  end.

(** A call of a string method on [j]: it throws unless [j] is a string. *)
Definition as_string (j : json) : outcome string :=
  match j with
  | JStr s => Ok s
  | _ => Err TypeError
  end.

(** The values that [for (i in o)] reads as [o[i]]. *)
Definition for_in_values (o : json) : list json :=
  match o with
  | JArr items => items
  | JObj fields => map (get o) (for_in_order (map fst fields))
  | JStr s => map (fun c => JStr (String c EmptyString)) (list_ascii_of_string s)
  | _ => []
  end.

(** ** Track *)

(** [Track.isURI]: a match of [/^spotify:track:/i]. *)
Definition Track_isURI (str : string) : bool :=
  matches_prefix_i "spotify:track:" str.

(** [Track.isLink]: a match of [/^https?:\/\/open\.spotify\.com\/track\//i]. *)
Definition Track_isLink (str : string) : bool :=
  matches_prefix_i "http://open.spotify.com/track/" str ||
  matches_prefix_i "https://open.spotify.com/track/" str.

(** [Track.isFullResponse] *)
Definition Track_isFullResponse (response : json) : bool :=
  truthy response && truthy (get response "popularity").

(** [new spotify.Track(entry, response)]; without [response] the argument
    is [undefined]. *)
Definition Track_new (oid : nat) (entry : string) (response : json) : Track :=
  if Track_isFullResponse response
  then {| Track_oid := oid; Track_entry := trim entry;
          Track_responseSimple := JNull; Track_response := response |}
  else {| Track_oid := oid; Track_entry := trim entry;
          Track_responseSimple := response; Track_response := JNull |}.

(** [Track.id] *)
Definition Track_id (self : Track) : json :=
  if truthy (Track_response self) &&
     truthy (get (Track_response self) "id")
  then get (Track_response self) "id"
  else if truthy (Track_responseSimple self) &&
          truthy (get (Track_responseSimple self) "id")
  then get (Track_responseSimple self) "id"
  else if Track_isURI (Track_entry self)
  then JStr (substring_from 14 (Track_entry self))
  else if Track_isLink (Track_entry self)
  then JStr (substring_from 30 (Track_entry self))
  else JNum (-1).

(** [Track.uri] *)
Definition Track_uri (self : Track) : json :=
  if truthy (Track_response self) then get (Track_response self) "uri"
  else if truthy (Track_responseSimple self)
  then get (Track_responseSimple self) "uri"
  else JStr "".

(** [Track.popularity] *)
Definition Track_popularity (self : Track) : json :=
  if truthy (Track_response self) then get (Track_response self) "popularity"
  else JNum (-1).

(** [self.response || self.responseSimple] *)
Definition Track_anyResponse (self : Track) : json :=
  if truthy (Track_response self) then Track_response self
  else Track_responseSimple self.

(** [Track.artist] *)
Definition Track_artist (self : Track) : outcome json :=
  let response := Track_anyResponse self in
  if truthy response &&
     truthy (get response "artists") &&
     truthy (at0 (get response "artists")) &&
     truthy (get (at0 (get response "artists")) "name")
  then (name <- as_string (get (at0 (get response "artists")) "name") ;;
        Ok (JStr (trim name)))%outcome
  else Ok (JStr "").

(** [Track.title] *)
Definition Track_title (self : Track) : json :=
  let response := Track_anyResponse self in
  if truthy response && truthy (get response "name")
  then get response "name"
  else JStr "".

(** [Track.name] *)
Definition Track_name (self : Track) : outcome json :=
  let title := Track_title self in
  if not_empty_string title
  then (artist <- Track_artist self ;;
        if not_empty_string artist
        then Ok (JStr (ToString title ++ " - " ++ ToString artist)%string)
        else Ok title)%outcome
  else Ok (JStr "").

(** [Track.toString] *)
Definition Track_toString (self : Track) : outcome json :=
  (name <- Track_name self ;;
   if not_empty_string name then Ok name else Ok (JStr (Track_entry self)))%outcome.

(** [x.toString()] on what a slot holds: the Track's own method, the
    inherited one on the other objects, a throw on [undefined]. *)
Definition value_toString (x : value) : outcome json :=
  match x with
  | VUndefined => Err TypeError
  | VTrack t => Track_toString t
  | VAlbum _ | VArtist _ | VQueue _ _ => Ok (JStr "[object Object]")
  end.

(** [Track.equals] *)
Definition Track_equals (self : Track) (track : value) : outcome bool :=
  (s1 <- Track_toString self ;;
   str1 <- as_string s1 ;;
   s2 <- value_toString track ;;
   str2 <- as_string s2 ;;
   Ok (toLowerCase str1 =? toLowerCase str2)%string)%outcome.

(** [===] on what a slot holds. *)
Definition value_same (x y : value) : bool :=
  match x, y with
  | VUndefined, VUndefined => true
  | VTrack a, VTrack b => Track_oid a =? Track_oid b
  | VAlbum a, VAlbum b => Album_oid a =? Album_oid b
  | VArtist a, VArtist b => Artist_oid a =? Artist_oid b
  | VQueue a _, VQueue b _ => a =? b
  | _, _ => false
  end.

#[global] Instance Entity_value : Entity value := {|
  equals_of entry :=
    match entry with
    | VUndefined => Err TypeError
    | VTrack t => Ok (Some (Track_equals t))
    | VAlbum _ | VArtist _ | VQueue _ _ => Ok None
    end;
  same := value_same
|}.

(** What the loop of [Queue.flatten] adds to [result] for one slot: the
    flattened content of a nested Queue ([result.concat]), the slot itself
    otherwise ([result.push]). *)
Fixpoint flatten_slot (entry : value) : list value :=
  match entry with
  | VQueue _ inner =>
      fold_left (fun result e => result ++ flatten_slot e) inner []
  | _ => [entry]
  end.

(** [Queue.flatten] *)
Definition Queue_flatten (q : list value) : list value :=
  fold_left (fun result entry => result ++ flatten_slot entry) q [].

(** [Album.isSearchResponse] *)
Definition Album_isSearchResponse (response : json) : outcome bool :=
  if truthy response && truthy (get response "albums")
  then (first <- elem0 (get (get response "albums") "items") ;;
        Ok (truthy first && truthy (get first "id")))%outcome
  else Ok false.

(** [Album.isAlbumResponse] *)
Definition Album_isAlbumResponse (response : json) : bool :=
  truthy response && truthy (get response "id").

(** [new spotify.Album(entry, response)] *)
Definition Album_new (oid : nat) (entry : string) (response : json)
  : outcome Album :=
  (isSearch <- Album_isSearchResponse response ;;
   if isSearch
   then Ok {| Album_oid := oid; Album_entry := trim entry;
              Album_searchResponse := response; Album_albumResponse := JUndef |}
   else if Album_isAlbumResponse response
   then Ok {| Album_oid := oid; Album_entry := trim entry;
              Album_searchResponse := JUndef; Album_albumResponse := response |}
   else Ok {| Album_oid := oid; Album_entry := trim entry;
              Album_searchResponse := JUndef; Album_albumResponse := JUndef |})%outcome.

(** [Album.id] *)
Definition Album_id (self : Album) : json :=
  let albumResponse := Album_albumResponse self in
  let searchResponse := Album_searchResponse self in
  if truthy albumResponse && truthy (get albumResponse "id")
  then get albumResponse "id"
  else
    let items := get (get searchResponse "albums") "items" in
    if truthy searchResponse &&
       truthy (get searchResponse "albums") &&
       truthy items &&
       truthy (at0 items) &&
       truthy (get (at0 items) "id")
    then get (at0 items) "id"
    else JNum (-1).

(** [new spotify.Artist(entry)] *)
Definition Artist_new (oid : nat) (entry : string) : Artist :=
  {| Artist_oid := oid; Artist_entry := trim entry;
     Artist_artistResponse := JNull |}.

(** [Artist.isSearchResponse] *)
Definition Artist_isSearchResponse (response : json) : outcome bool :=
  if truthy response && truthy (get response "artists")
  then (first <- elem0 (get (get response "artists") "items") ;;
        Ok (truthy first && truthy (get first "id")))%outcome
  else Ok false.

(** [Artist.id] *)
Definition Artist_id (self : Artist) : outcome json :=
  let artistResponse := Artist_artistResponse self in
  if truthy artistResponse && truthy (get artistResponse "artists")
  then (first <- elem0 (get (get artistResponse "artists") "items") ;;
        if truthy first && truthy (get first "id")
        then Ok (get first "id")
        else Ok (JNum (-1)))%outcome
  else Ok (JNum (-1)).

Section Remote.

(** The remote service: what a request for a URL settles with, given the
    URLs requested before it. *)
Variable server : list string -> string -> outcome json.

(** [spotify.request(url)] *)
Definition spotify_request (url : string) : promise World json :=
  fun w => (server (requests w) url,
            {| requests := requests w ++ [url]; next_oid := next_oid w |}).

Definition set_response (self : Track) (result : json) : Track :=
  {| Track_oid := Track_oid self; Track_entry := Track_entry self;
     Track_responseSimple := Track_responseSimple self;
     Track_response := result |}.

Definition set_responseSimple (self : Track) (result : json) : Track :=
  {| Track_oid := Track_oid self; Track_entry := Track_entry self;
     Track_responseSimple := result;
     Track_response := Track_response self |}.

(** [Track.fetchTrack]; it resolves with [self]. *)
Definition Track_fetchTrack (self : Track) : promise World Track :=
  let id := Track_id self in
  let url := ("https://api.spotify.com/v1/tracks/" ++
              encodeURIComponent (ToString id))%string in
  then_ (spotify_request url) (fun result =>
  resolve (set_response self result)).

(** [Track.searchForTrack]; it resolves with [self] on a match and with
    [undefined] ([None]) otherwise. *)
Definition Track_searchForTrack (self : Track) (query : string)
  : promise World (option Track) :=
  let url := ("https://api.spotify.com/v1/search?type=track&q=" ++
              encodeURIComponent query)%string in
  then_ (spotify_request url) (fun result =>
  then_ (settle (prop result "tracks")) (fun tracks =>
  if truthy tracks
  then then_ (settle (elem0 (get tracks "items"))) (fun first =>
       if truthy first && truthy (get first "uri")
       then resolve (Some (set_responseSimple self first))
       else resolve None)
  else resolve None)).

(** [Track.dispatch] *)
Definition Track_dispatch (self : Track) : promise World (option Track) :=
  if truthy (Track_response self)
  then resolve (Some self)
  else if truthy (Track_responseSimple self)
  then then_ (Track_fetchTrack self) (fun t => resolve (Some t))
  else if Track_isURI (Track_entry self)
  then then_ (Track_fetchTrack self) (fun t => resolve (Some t))
  else Track_searchForTrack self (Track_entry self).

(** ** Album *)

Definition set_searchResponse (self : Album) (response : json) : Album :=
  {| Album_oid := Album_oid self; Album_entry := Album_entry self;
     Album_searchResponse := response;
     Album_albumResponse := Album_albumResponse self |}.

(** [Album.searchForAlbum]; the Album, updated, travels with the
    response. *)
Definition Album_searchForAlbum (self : Album) (query : string)
  : promise World (Album * json) :=
  let url := ("https://api.spotify.com/v1/search?type=album&q=" ++
              encodeURIComponent query)%string in
  then_ (spotify_request url) (fun response =>
  then_ (settle (Album_isSearchResponse response)) (fun isSearch =>
  if isSearch
  then resolve (set_searchResponse self response, response)
  else reject (Failure response))).

(** [Album.fetchAlbum].  The callback assigns [this.albumResponse], and
    [this] is not the Album there: no field of [self] changes. *)
Definition Album_fetchAlbum (self : Album) : promise World json :=
  let id := Album_id self in
  let url := ("https://api.spotify.com/v1/albums/" ++
              encodeURIComponent (ToString id))%string in
  then_ (spotify_request url) (fun response =>
  if Album_isAlbumResponse response
  then resolve response
  else reject (Failure response)).

(** The loop of [Album.createQueue]. *)
Fixpoint Album_createTracks (self : Album) (tracks : list json)
    (queue : list value) : promise World (list value) :=
  match tracks with
  | [] => resolve queue
  | track :: rest =>
      then_ fresh (fun oid =>
      let entry := Track_new oid (Album_entry self) track in
      Album_createTracks self rest (Queue_add queue (VTrack entry)))
  end.

(** [Album.createQueue] *)
Definition Album_createQueue (self : Album) (response : json)
  : promise World value :=
  then_ (settle (t <- prop response "tracks" ;; prop t "items")%outcome)
    (fun tracks =>
  then_ fresh (fun qid =>
  then_ (Album_createTracks self (for_in_values tracks) []) (fun queue =>
  resolve (VQueue qid queue)))).

(** [Album.dispatch]; the Album as the dispatch leaves it travels with
    the Queue it resolves with. *)
Definition Album_dispatch (self : Album) : promise World (Album * value) :=
  if truthy (Album_searchResponse self)
  then then_ (Album_fetchAlbum self) (fun response =>
       then_ (Album_createQueue self response) (fun queue =>
       resolve (self, queue)))
  else if truthy (Album_albumResponse self)
  then then_ (Album_fetchAlbum self) (fun response =>
       then_ (Album_createQueue self response) (fun queue =>
       resolve (self, queue)))
  else then_ (Album_searchForAlbum self (Album_entry self)) (fun found =>
       let self := fst found in
       then_ (Album_fetchAlbum self) (fun response =>
       then_ (Album_createQueue self response) (fun queue =>
       resolve (self, queue)))).

(** ** Artist *)

Definition set_artistResponse (self : Artist) (response : json) : Artist :=
  {| Artist_oid := Artist_oid self; Artist_entry := Artist_entry self;
     Artist_artistResponse := response |}.

(** [Artist.searchForArtist] *)
Definition Artist_searchForArtist (self : Artist) (query : string)
  : promise World (Artist * json) :=
  let url := ("https://api.spotify.com/v1/search?type=artist&q=" ++
              encodeURIComponent query)%string in
  then_ (spotify_request url) (fun response =>
  then_ (settle (Artist_isSearchResponse response)) (fun isSearch =>
  if isSearch
  then resolve (set_artistResponse self response, response)
  else reject (Failure response))).

(** [Artist.fetchAlbums]; as in [Album.fetchAlbum], the assignment to
    [this.albumResponse] leaves [self] as it is. *)
Definition Artist_fetchAlbums (self : Artist) : promise World json :=
  then_ (settle (Artist_id self)) (fun id =>
  let url := ("https://api.spotify.com/v1/artists/" ++
              encodeURIComponent (ToString id) ++ "/albums")%string in
  then_ (spotify_request url) (fun response =>
  then_ (settle (prop response "items")) (fun items =>
  if truthy items
  then resolve response
  else reject (Failure response)))).

(** The loop of [Artist.createQueue]. *)
Fixpoint Artist_createAlbums (self : Artist) (albums : list json)
    (queue : list Album) : promise World (list Album) :=
  match albums with
  | [] => resolve queue
  | album :: rest =>
      then_ fresh (fun oid =>
      then_ (settle (Album_new oid (Artist_entry self) album)) (fun entry =>
      Artist_createAlbums self rest (Queue_add queue entry)))
  end.

(** [Artist.createQueue]: the Queue of Albums is dispatched, and the
    Queue of their results (created when the dispatch starts) is what it
    resolves with. *)
Definition Artist_createQueue (self : Artist) (response : json)
  : promise World value :=
  then_ (settle (prop response "items")) (fun albums =>
  then_ fresh (fun _ =>
  then_ (Artist_createAlbums self (for_in_values albums) []) (fun queue =>
  then_ fresh (fun rid =>
  then_ (Queue_dispatch
           (fun entry => then_ (Album_dispatch entry)
                           (fun r => resolve (snd r)))
           queue) (fun result =>
  resolve (VQueue rid result)))))).

(** [Artist.dispatch] *)
Definition Artist_dispatch (self : Artist) : promise World (Artist * value) :=
  then_ (Artist_searchForArtist self (Artist_entry self)) (fun found =>
  let self := fst found in
  then_ (Artist_fetchAlbums self) (fun response =>
  then_ (Artist_createQueue self response) (fun queue =>
  resolve (self, queue)))).

(** ** Dispatch of a slot *)

(** [entry.dispatch()] on what a slot holds; a nested Queue dispatches
    its own elements, and reading the method of [undefined] throws. *)
Fixpoint dispatch_entry (entry : value) : promise World value :=
  match entry with
  | VUndefined => reject TypeError
  | VTrack t =>
      then_ (Track_dispatch t) (fun r =>
      resolve (match r with Some t' => VTrack t' | None => VUndefined end))
  | VAlbum a => then_ (Album_dispatch a) (fun r => resolve (snd r))
  | VArtist a => then_ (Artist_dispatch a) (fun r => resolve (snd r))
  | VQueue _ queue =>
      then_ fresh (fun rid =>
      then_ (Queue_dispatch dispatch_entry queue) (fun result =>
      resolve (VQueue rid result)))
  end.

(** * spotify.js: the Playlist *)

(** A playlist without [#ORDER] or [#GROUP] directive: [ordering] is
    [null] and [grouping] is [true], so that [Playlist.order] and
    [Playlist.group] return without touching the entries. *)
Record Playlist : Type := {
  Playlist_unique : bool;
  Playlist_entries : list value
}.

Definition set_entries (self : Playlist) (q : list value) : Playlist :=
  {| Playlist_unique := Playlist_unique self; Playlist_entries := q |}.

(** [Playlist.fetchTracks] *)
Definition Playlist_fetchTracks (self : Playlist) : promise World Playlist :=
  then_ (Queue_dispatch dispatch_entry (Playlist_entries self)) (fun result =>
  resolve (set_entries self (Queue_flatten result))).

(** [Playlist.dedup] *)
Definition Playlist_dedup (self : Playlist) : outcome Playlist :=
  if Playlist_unique self
  then (q <- Queue_dedup (Playlist_entries self) ;;
        Ok (set_entries self q))%outcome
  else Ok self.

(** The callback of [Playlist.toString] on one slot: [track.toString()]
    and [track.lastfm()] are called for the console, then [track.uri()].
    Only a Track has [lastfm] and [uri]; Last.fm data is never fetched
    without an [#ORDER] directive, so that [lastfm()] is [-1] on a
    Track. *)
Definition render_entry (result : string) (track : value) : outcome string :=
  match track with
  | VTrack t =>
      (_ <- Track_toString t ;;
       let uri := Track_uri t in
       if not_empty_string uri
       then Ok (result ++ ToString uri ++ String (ascii_of_nat 10) "")%string
       else Ok result)%outcome
  | VUndefined => Err TypeError
  | VAlbum _ | VArtist _ | VQueue _ _ => Err TypeError
  end.

(** [Playlist.toString] *)
Definition Playlist_toString (self : Playlist) : outcome string :=
  (result <- fold_left
               (fun acc track => r <- acc ;; render_entry r track)
               (Playlist_entries self) (Ok "") ;;
   Ok (trim result))%outcome.

(** [Playlist.dispatch] of such a Playlist: the two stages between
    [dedup] and [toString], [order] and [group], return at once when
    there is no [#ORDER] and no [#GROUP] directive. *)
Definition Playlist_dispatch (self : Playlist) : promise World string :=
  then_ (Playlist_fetchTracks self) (fun self =>
  then_ (settle (Playlist_dedup self)) (fun self =>
  settle (Playlist_toString self))).

End Remote.

(* ================================================================== *)
(** * Reference notions *)
(* ================================================================== *)

(** The ranking the specification describes for a chain of comparators:
    the first result that is not zero, and zero when there is none. *)
Fixpoint first_nonzero (vals : list Z) : Z :=
  match vals with
  | [] => 0%Z
  | v :: rest => if (v =? 0)%Z then first_nonzero rest else v
  end.

(** The sequential map that the specification describes: [fn] is run on the
    elements one at a time, in order, each on the state the one before left;
    the first failure ends the run and only its reason is returned. *)
Fixpoint one_at_a_time {S E R} (fn : E -> promise S R) (q : list E)
  : promise S (list R) :=
  fun s =>
    match q with
    | [] => (Ok [], s)
    | entry :: rest =>
        match fn entry s with
        | (Err r, s') => (Err r, s')
        | (Ok value, s') =>
            match one_at_a_time fn rest s' with
            | (Ok values, s'') => (Ok (value :: values), s'')
            | (Err r, s'') => (Err r, s'')
            end
        end
    end.

(** [fn], instrumented: the state is paired with the list of the elements
    that [fn] was invoked on, in order of invocation. *)
Definition logged {S E R} (fn : E -> promise S R) : E -> promise (S * list E) R :=
  fun entry st =>
    let (r, s') := fn entry (fst st) in
    (r, (s', snd st ++ [entry])).

(** The slots of a nested structure that are not Queues, in depth-first,
    left-to-right order. *)
Fixpoint leaves_of (v : value) : list value :=
  match v with
  | VQueue _ inner => flat_map leaves_of inner
  | _ => [v]
  end.

Definition leaves (q : list value) : list value := flat_map leaves_of q.

(** The number of such slots. *)
Fixpoint leaf_count (v : value) : nat :=
  match v with
  | VQueue _ inner => list_sum (map leaf_count inner)
  | _ => 1
  end.

(** [x instanceof spotify.Queue] *)
Definition is_queue (v : value) : bool :=
  match v with
  | VQueue _ _ => true
  | _ => false
  end.

(** Equality under the rule of [Queue.contains], read as a boolean. *)
Definition rule_eq {E} `{Entity E} (a b : E) : bool :=
  match Queue_matches a b with
  | Ok true => true
  | _ => false
  end.

(** The first occurrences in [q]: an element stays when no element before
    it in the sequence ([seen] holds those before [q]) equals it under the
    rule. *)
Fixpoint first_occurrences_after {E} `{Entity E} (seen q : list E) : list E :=
  match q with
  | [] => []
  | e :: rest =>
      if existsb (fun x => rule_eq x e) seen
      then first_occurrences_after (seen ++ [e]) rest
      else e :: first_occurrences_after (seen ++ [e]) rest
  end.

Definition first_occurrences {E} `{Entity E} (q : list E) : list E :=
  first_occurrences_after [] q.

(** The test of [Queue.contains] returns on all elements of [q]. *)
Definition rule_total_on {E} `{Entity E} (q : list E) : Prop :=
  forall a b, In a q -> In b q -> exists r, Queue_matches a b = Ok r.

(** The rule is transitive on the elements of [q], as an equality is. *)
Definition rule_transitive_on {E} `{Entity E} (q : list E) : Prop :=
  forall a b c, In a q -> In b q -> In c q ->
    rule_eq a b = true -> rule_eq b c = true -> rule_eq a c = true.

(** The Queue of the test suite: two Tracks for [foo], one for [bar]. *)
Definition foo1 : Track := Track_new 1 "foo" JUndef.
Definition foo2 : Track := Track_new 2 "foo" JUndef.
Definition bar : Track := Track_new 3 "bar" JUndef.

(** The keys of a sequence in order of first appearance: scanning from the
    left, a key is noted down when it has not been met before. *)
Definition first_appearance (keys : list string) : list string :=
  fold_left
    (fun met k => if existsb (String.eqb k) met then met else met ++ [k])
    keys [].

(** The bucket of key [k]: the elements with that key, in their order. *)
Definition bucket {E} (fn : E -> string) (q : list E) (k : string) : list E :=
  filter (fun e => (fn e =? k)%string) q.

(** Grouping as the specification states it: the buckets, one after the
    other, in order of the first appearance of their keys. *)
Definition grouped_by_first_appearance {E} (fn : E -> string) (q : list E)
  : list E :=
  flat_map (bucket fn q) (first_appearance (map fn q)).

(** Grouping as the host enumerates the keys. *)
Definition grouped_in_key_order {E} (fn : E -> string) (q : list E) : list E :=
  flat_map (bucket fn q) (for_in_order (first_appearance (map fn q))).

(** The names that an array of an ES5 host answers to. *)
Definition es5_array_member (k : string) : bool :=
  existsb (String.eqb k)
    ["length"; "constructor"; "toString"; "toLocaleString"; "valueOf";
     "hasOwnProperty"; "isPrototypeOf"; "propertyIsEnumerable"; "__proto__";
     "__defineGetter__"; "__defineSetter__"; "__lookupGetter__";
     "__lookupSetter__";
     "concat"; "join"; "pop"; "push"; "reverse"; "shift"; "slice"; "sort";
     "splice"; "unshift"; "indexOf"; "lastIndexOf"; "every"; "some";
     "forEach"; "map"; "filter"; "reduce"; "reduceRight"].

(** Three elements and the keys of the test suite: [1], [2], [1]. *)
Definition keys_121 (e : nat) : string :=
  match e with 1 => "2" | _ => "1" end.

(** The same elements keyed [a], [b], [a]. *)
Definition keys_aba (e : nat) : string :=
  match e with 1 => "b" | _ => "a" end.

(** The same elements keyed [2], [1], [2]. *)
Definition keys_212 (e : nat) : string :=
  match e with 1 => "1" | _ => "2" end.

(** [r] is [l] in stable order under [c]: it holds the elements of [l],
    each with the position it had in [l], so that of two elements the one
    that [c] ranks lower comes first and, when [c] ranks them equal, the
    one that came first in [l] comes first. *)
Definition stable_order {T} (c : comparator T) (l r : list T) : Prop :=
  exists ps : list (Sort.indexed T),
    Permutation (Sort.pairs_from 0 l) ps /\
    r = map Sort.val ps /\
    StronglySorted
      (fun p q =>
         (c (Sort.val p) (Sort.val q) < 0)%Z \/
         (c (Sort.val p) (Sort.val q) = 0%Z /\ Sort.key p < Sort.key q))
      ps.


(** The comparison function that [stableSort] hands to the primitive. *)
Definition decorated {A} (fn : comparator A) : comparator (Sort.indexed A) :=
  Sort.callback (fun a b => fn (Sort.val a) (Sort.val b))
                (Sort.ascending (@Sort.key A)).

(** A sort primitive that the language allows and that is not stable:
    insertion from the right end, a new element going past the elements it
    compares equal to. *)
Fixpoint insert_past_equals {T} (c : comparator T) (x : T) (l : list T)
  : list T :=
  match l with
  | [] => [x]
  | y :: rest =>
      if (c x y <? 0)%Z then x :: l else y :: insert_past_equals c x rest
  end.

Definition unstable_sort (T : Type) (c : comparator T) (l : list T) : list T :=
  fold_right (insert_past_equals c) [] l.

(** Sample elements: a name and a popularity; an element converts to its
    name, and [<] on two of them compares the names. *)
Definition sample : Type := string * Z.

#[global] Instance Stringable_sample : Stringable sample := fst.
#[global] Instance Undefinable_sample : Undefinable sample := fun _ => false.

(** Numbers as elements: a number converts to its decimal notation, and
    none is [undefined]. *)
#[global] Instance Stringable_Z : Stringable Z := Z_to_string.
#[global] Instance Undefinable_Z : Undefinable Z := fun _ => false.
#[global] Instance Relational_sample : Relational sample :=
  fun x y => String.ltb (fst x) (fst y).

(** The comparison function of [Playlist.orderByPopularity]. *)
Definition by_popularity : comparator sample :=
  fun a b =>
    let x := snd a in
    let y := snd b in
    if js_lt x y then 1%Z else if js_gt x y then (-1)%Z else 0%Z.

(** The state once [url] has been requested. *)
Definition requested (w : World) (url : string) : World :=
  {| requests := requests w ++ [url]; next_oid := next_oid w |}.

(** The URL of the fetch-by-id lookup of a Track. *)
Definition track_url (id : json) : string :=
  ("https://api.spotify.com/v1/tracks/" ++ encodeURIComponent (ToString id))%string.

(** The URL of the text search for a Track. *)
Definition track_search_url (query : string) : string :=
  ("https://api.spotify.com/v1/search?type=track&q=" ++
   encodeURIComponent query)%string.

(** The URL of the fetch-by-id lookup of an Album. *)
Definition album_url (id : json) : string :=
  ("https://api.spotify.com/v1/albums/" ++ encodeURIComponent (ToString id))%string.

(** The URL of the text search for an Artist. *)
Definition artist_search_url (query : string) : string :=
  ("https://api.spotify.com/v1/search?type=artist&q=" ++
   encodeURIComponent query)%string.

(** A state to start from: nothing requested yet. *)
Definition w0 : World := {| requests := []; next_oid := 100 |}.

(** A simplified track object with popularity [0]. *)
Definition unpopular : json :=
  JObj [("id", JStr "25BfjHTtaDCrKrq9hkr10U");
        ("uri", JStr "spotify:track:25BfjHTtaDCrKrq9hkr10U");
        ("name", JStr "test2");
        ("popularity", JNum 0)].

(** A service that answers every request with that object. *)
Definition unpopular_server (_ : list string) (_ : string) : outcome json :=
  Ok unpopular.

(** The full track object of the test suite's first Track. *)
Definition full_record : json :=
  JObj [("id", JStr "5jwDjl5FofuDgwITfcROhq");
        ("uri", JStr "spotify:track:5jwDjl5FofuDgwITfcROhq");
        ("name", JStr "test1");
        ("popularity", JNum 50)].

(** The body of a search that found nothing. *)
Definition no_items : json :=
  JObj [("tracks", JObj [("items", JArr [])])].

(** A service that knows one Track by its id and finds nothing by text. *)
Definition one_track_server (_ : list string) (url : string) : outcome json :=
  if String.prefix "https://api.spotify.com/v1/tracks/" url
  then Ok full_record
  else Ok no_items.

(** A Track entered as a Spotify URI, and the same Track entered as a web
    link. *)
Definition by_uri : Track :=
  Track_new 1 "spotify:track:5jwDjl5FofuDgwITfcROhq" JUndef.
Definition by_link : Track :=
  Track_new 2 "https://open.spotify.com/track/5jwDjl5FofuDgwITfcROhq" JUndef.

(** A Track entered as free text. *)
Definition by_text : Track := Track_new 3 "foo" JUndef.

(** A service for one album: a search finds it, and its record lists two
    tracks. *)
Definition album_found : json :=
  JObj [("albums", JObj [("items", JArr [JObj [("id", JStr "A1")]])])].
Definition album_record : json :=
  JObj [("id", JStr "A1");
        ("tracks", JObj [("items", JArr [unpopular; unpopular])])].
Definition one_album_server (_ : list string) (url : string) : outcome json :=
  if String.prefix "https://api.spotify.com/v1/search" url
  then Ok album_found
  else Ok album_record.

(** An Album entered as text; no response is known yet. *)
Definition some_album : Album :=
  {| Album_oid := 4; Album_entry := "test";
     Album_searchResponse := JUndef; Album_albumResponse := JUndef |}.

(** The requests of [w'] are those of [w], then possibly more. *)
Definition extends (w w' : World) : Prop :=
  exists more, requests w' = requests w ++ more.

(** A promise only ever adds requests. *)
Definition grows {A} (p : promise World A) : Prop :=
  forall w, extends w (snd (p w)).

(* ================================================================== *)
(** * spotify.js: further methods *)
(* ================================================================== *)

(** [Queue.get]: the content of the slot at [idx] when the array has one,
    and [None] when it has none.  The caller reads [undefined] for
    [None], as it does for a slot whose content is [undefined]. *)
Definition Queue_get {E} (q : list E) (idx : nat) : option E :=
  nth_error q idx.

(** [Queue.size] *)
Definition Queue_size {E} (q : list E) : nat := List.length q.

(** [Queue.map]: a new Queue, to which the image of each element is
    added. *)
Definition Queue_map {E R} (fn : E -> R) (q : list E) : list R :=
  fold_left (fun result entry => Queue_add result (fn entry)) q [].

(** [Queue.concat]: a new Queue whose array is [self.queue.concat(queue.queue)]. *)
Definition Queue_concat {E} (self queue : list E) : list E := self ++ queue.

(** [arr.map(f)] for a callback that may throw. *)
Fixpoint map_outcome {A B} (f : A -> outcome B) (l : list A)
  : outcome (list B) :=
  match l with
  | [] => Ok []
  | x :: rest =>
      (y <- f x ;;
       ys <- map_outcome f rest ;;
       Ok (y :: ys))%outcome
  end.

(** [Track.artists].  The guard reads [self.response || self.responseSimple],
    the body reads [self.response]. *)
Definition Track_artists (self : Track) : outcome json :=
  let response := Track_anyResponse self in
  if truthy response && truthy (get response "artists")
  then (artists <- prop (Track_response self) "artists" ;;
        match artists with
        | JArr items =>
            names <- map_outcome
                       (fun artist =>
                          name <- prop artist "name" ;;
                          s <- as_string name ;;
                          Ok (trim s))
                       items ;;
            Ok (JStr (join ", " names))
        | _ => Err TypeError
        end)%outcome
  else Ok (JStr "").

(** [Track.album] *)
Definition Track_album (self : Track) : json :=
  let response := Track_response self in
  if truthy response &&
     truthy (get response "album") &&
     truthy (get (get response "album") "name")
  then get (get response "album") "name"
  else JStr "".

(** ** The Playlist constructor *)

(** [this.ordering]: [null], ['popularity'] or ['lastfm']. *)
Inductive ordering : Type := ByPopularity | ByLastfm.

(** [this.grouping]: [true], ['entry'], ['artist'] or ['album']. *)
Inductive grouping : Type := Ungrouped | ByEntry | ByArtist | ByAlbum.

(** The fields that a new Playlist holds. *)
Record Settings : Type := {
  Playlist_ordering : option ordering;
  Playlist_grouping : grouping;
  Playlist_content : Playlist
}.

Definition is_line_break (c : ascii) : bool :=
  let n := nat_of_ascii c in (n =? 10) || (n =? 13).

(** [str.split(/\r|\n|\r\n/)]: a cut at every carriage return and at every
    line feed; [current] is the piece being read, backwards. *)
Fixpoint split_from (current : list ascii) (s : string) : list string :=
  match s with
  | EmptyString => [string_of_list_ascii (rev current)]
  | String c rest =>
      if is_line_break c
      then string_of_list_ascii (rev current) :: split_from [] rest
      else split_from (c :: current) rest
  end.

Definition split_lines (s : string) : list string := split_from [] s.

(** A match of [/^#ORDER BY LAST.?FM/i]: between [LAST] and [FM] at most
    one character, which is no line break. *)
Definition matches_lastfm (line : string) : bool :=
  matches_prefix_i "#order by lastfm" line ||
  (matches_prefix_i "#order by last" line &&
   match substring_from 14 line with
   | String c rest => negb (is_line_break c) && matches_prefix_i "fm" rest
   | EmptyString => false
   end).

(** The loop of the constructor over the lines. *)
Fixpoint Playlist_readLines (lines : list string) (self : Settings)
  : promise World Settings :=
  match lines with
  | [] => resolve self
  | line :: rest =>
      let content := Playlist_content self in
      let entries := Playlist_entries content in
      let with_ordering o :=
        {| Playlist_ordering := Some o;
           Playlist_grouping := Playlist_grouping self;
           Playlist_content := content |} in
      let with_grouping g :=
        {| Playlist_ordering := Playlist_ordering self;
           Playlist_grouping := g;
           Playlist_content := content |} in
      let with_entry e :=
        {| Playlist_ordering := Playlist_ordering self;
           Playlist_grouping := Playlist_grouping self;
           Playlist_content :=
             {| Playlist_unique := Playlist_unique content;
                Playlist_entries := Queue_add entries e |} |} in
      if matches_prefix_i "#order by popularity" line
      then Playlist_readLines rest (with_ordering ByPopularity)
      else if matches_lastfm line
      then Playlist_readLines rest (with_ordering ByLastfm)
      else if matches_prefix_i "#group by entry" line
      then Playlist_readLines rest (with_grouping ByEntry)
      else if matches_prefix_i "#group by artist" line
      then Playlist_readLines rest (with_grouping ByArtist)
      else if matches_prefix_i "#group by album" line
      then Playlist_readLines rest (with_grouping ByAlbum)
      else if matches_prefix_i "#unique" line
      then Playlist_readLines rest
             {| Playlist_ordering := Playlist_ordering self;
                Playlist_grouping := Playlist_grouping self;
                Playlist_content :=
                  {| Playlist_unique := true; Playlist_entries := entries |} |}
      else if matches_prefix_i "#album " line
      then then_ fresh (fun oid =>
           then_ (settle (Album_new oid (substring_from 7 line) JUndef))
             (fun album =>
           Playlist_readLines rest (with_entry (VAlbum album))))
      else if matches_prefix_i "#artist " line
      then then_ fresh (fun oid =>
           Playlist_readLines rest
             (with_entry (VArtist (Artist_new oid (substring_from 8 line)))))
      else if negb (line =? "")%string
      then then_ fresh (fun oid =>
           Playlist_readLines rest
             (with_entry (VTrack (Track_new oid line JUndef))))
      else Playlist_readLines rest self
  end.

(** [new spotify.Playlist(str)] *)
Definition Playlist_new (str : string) : promise World Settings :=
  let self :=
    {| Playlist_ordering := None;
       Playlist_grouping := Ungrouped;
       Playlist_content :=
         {| Playlist_unique := true; Playlist_entries := [] |} |} in
  let str := trim str in
  if negb (str =? "")%string
  then Playlist_readLines (split_lines str) self
  else resolve self.

(* ================================================================== *)
(** * sort.js: a comparison function on track objects *)
(* ================================================================== *)

(** The score of [sort.censorship], [x.explicit ? 1 : 0], on a track
    object given by its fields. *)
Definition censorship_score (x : list (string * json)) : Z :=
  if truthy (get (JObj x) "explicit") then 1%Z else 0%Z.

(** [sort.censorship] *)
Definition sort_censorship : comparator (list (string * json)) :=
  Sort.descending censorship_score.

(* ================================================================== *)
(** * Further reference notions and sample data *)
(* ================================================================== *)

(** Whether a track object is marked as explicit. *)
Definition is_explicit (x : list (string * json)) : bool :=
  truthy (get (JObj x) "explicit").

(** Three track objects: a censored one, an explicit one, and one that
    does not say. *)
Definition clean_version : list (string * json) :=
  [("name", JStr "clean"); ("explicit", JBool false)].
Definition explicit_version : list (string * json) :=
  [("name", JStr "explicit"); ("explicit", JBool true)].
Definition plain_version : list (string * json) :=
  [("name", JStr "plain")].

(** The URL of the text search for an Album. *)
Definition album_search_url (query : string) : string :=
  ("https://api.spotify.com/v1/search?type=album&q=" ++
   encodeURIComponent query)%string.

(** The URL of the album listing of an Artist. *)
Definition artist_albums_url (id : json) : string :=
  ("https://api.spotify.com/v1/artists/" ++
   encodeURIComponent (ToString id) ++ "/albums")%string.

(** The body of a track search whose first hit is [unpopular]. *)
Definition track_found : json :=
  JObj [("tracks", JObj [("items", JArr [unpopular])])].

(** A service on which every text search finds that Track, and every
    other request is answered with the full record of another one. *)
Definition search_hit_server (_ : list string) (url : string) : outcome json :=
  if String.prefix "https://api.spotify.com/v1/search" url
  then Ok track_found
  else Ok full_record.

(** A simplified track object that names two artists. *)
Definition duet : json :=
  JObj [("id", JStr "D1");
        ("uri", JStr "spotify:track:D1");
        ("name", JStr "duet");
        ("artists", JArr [JObj [("name", JStr " Ann ")];
                          JObj [("name", JStr "Bob")]])].

(** The same object with a popularity, which makes it a full one. *)
Definition duet_full : json :=
  JObj [("id", JStr "D1");
        ("uri", JStr "spotify:track:D1");
        ("name", JStr "duet");
        ("popularity", JNum 7);
        ("artists", JArr [JObj [("name", JStr " Ann ")];
                          JObj [("name", JStr "Bob")]])].

(** The Tracks that [new Track(entry, items[i])] creates for the items of
    a listing, the first one with identity [oid]. *)
Fixpoint tracks_of (entry : string) (oid : nat) (items : list json)
  : list value :=
  match items with
  | [] => []
  | item :: rest =>
      VTrack (Track_new oid entry item) :: tracks_of entry (S oid) rest
  end.

(** A Track for which no lookup has brought anything yet. *)
Definition is_unresolved (v : value) : bool :=
  match v with
  | VTrack t =>
      negb (truthy (Track_response t)) && negb (truthy (Track_responseSimple t))
  | _ => false
  end.

(** A Track that holds a full track object. *)
Definition is_full (v : value) : bool :=
  match v with
  | VTrack t => truthy (Track_response t)
  | _ => false
  end.

(** A line that no directive pattern matches: it does not start with
    [#]. *)
Definition plain (line : string) : bool :=
  match line with
  | String c _ => negb (Ascii.eqb c "#")
  | EmptyString => true
  end.

(** A string without line break. *)
Fixpoint one_line (s : string) : bool :=
  match s with
  | EmptyString => true
  | String c rest => negb (is_line_break c) && one_line rest
  end.

(** The Tracks that the constructor creates for plain lines, the first one
    with identity [oid]; an empty line creates none. *)
Fixpoint tracks_of_lines (oid : nat) (lines : list string) : list value :=
  match lines with
  | [] => []
  | line :: rest =>
      if (line =? "")%string then tracks_of_lines oid rest
      else VTrack (Track_new oid line JUndef) :: tracks_of_lines (S oid) rest
  end.

(** An item of an album listing as [new Album(entry, item)] takes it for
    an album object: it has an id, and no [albums] property. *)
Definition album_like (item : json) : bool :=
  truthy (get item "id") && negb (truthy (get item "albums")).

(** The Albums that [new Album(entry, items[i])] creates for such items,
    the first one with identity [oid]. *)
Fixpoint albums_of (entry : string) (oid : nat) (items : list json)
  : list Album :=
  match items with
  | [] => []
  | item :: rest =>
      {| Album_oid := oid; Album_entry := trim entry;
         Album_searchResponse := JUndef; Album_albumResponse := item |}
      :: albums_of entry (S oid) rest
  end.

(** Whether the answer to the fetch of an album lets [Album.dispatch]
    build its Queue: it is an album object, and it has a track listing. *)
Definition album_answer_ok (answer : outcome json) : bool :=
  match answer with
  | Ok record =>
      truthy (get record "id") && negb (nullish (get record "tracks"))
  | Err _ => false
  end.

(** The album requests of the dispatch of an Artist, stated on their own:
    the albums of the listing are requested by id, one after the other in
    listing order, each on the log of the requests made so far, up to and
    including the first one whose answer fails.  The result is the list of
    the URLs requested and whether every album was answered well. *)
Fixpoint album_run (server : list string -> string -> outcome json)
    (log : list string) (items : list json) : list string * bool :=
  match items with
  | [] => ([], true)
  | item :: rest =>
      let url := album_url (get item "id") in
      if album_answer_ok (server log url)
      then let (urls, ok) := album_run server (log ++ [url]) rest in
           (url :: urls, ok)
      else ([url], false)
  end.

(** A service for one artist with three albums: a search finds the
    artist, the listing names the albums, and the first album can be
    fetched while the others cannot. *)
Definition artist_found : json :=
  JObj [("artists", JObj [("items", JArr [JObj [("id", JStr "R1")]])])].
Definition artist_listing : json :=
  JObj [("items", JArr [JObj [("id", JStr "A1")]; JObj [("id", JStr "A2")];
                        JObj [("id", JStr "A3")]])].
Definition one_artist_server (_ : list string) (url : string) : outcome json :=
  if String.prefix "https://api.spotify.com/v1/search" url
  then Ok artist_found
  else if String.prefix "https://api.spotify.com/v1/artists/" url
  then Ok artist_listing
  else if (url =? "https://api.spotify.com/v1/albums/A1")%string
  then Ok album_record
  else Err (Failure (JNum 404)).

(** A service that answers nothing. *)
Definition silent_server (_ : list string) (_ : string) : outcome json :=
  Err (Failure (JNum 404)).

(** A second sort primitive that the language allows, a stable one:
    insertion from the right end, a new element stopping before the
    elements it compares equal to. *)
Fixpoint insert_before_equals {T} (c : comparator T) (x : T) (l : list T)
  : list T :=
  match l with
  | [] => [x]
  | y :: rest =>
      if (c x y <=? 0)%Z then x :: l else y :: insert_before_equals c x rest
  end.

Definition insertion_sort (T : Type) (c : comparator T) (l : list T) : list T :=
  fold_right (insert_before_equals c) [] l.

(* ================================================================== *)
(** * Properties of the comparator framework *)
(* ================================================================== *)

Section CombineFacts.
Context {A : Type}.
Implicit Types (c : comparator A) (cs : list (comparator A)).

Lemma fold_callback_snoc cs c c0 a b :
  fold_left Sort.callback (cs ++ [c]) c0 a b =
  (if (fold_left Sort.callback cs c0 a b =? 0)%Z
   then c a b else fold_left Sort.callback cs c0 a b).
Proof. rewrite fold_left_app. reflexivity. Qed.

Lemma fold_callback_first_nonzero cs : forall c0 a b,
  fold_left Sort.callback cs c0 a b =
  first_nonzero (map (fun c => c a b) (c0 :: cs)).
Proof.
  induction cs as [|c cs IH] using rev_ind; intros c0 a b.
  - simpl. destruct (c0 a b =? 0)%Z eqn:E; [apply Z.eqb_eq in E|]; auto.
  - rewrite fold_callback_snoc, IH.
    change (c0 :: cs ++ [c]) with ((c0 :: cs) ++ [c]).
    rewrite map_app. generalize (map (fun c1 => c1 a b) (c0 :: cs)).
    intros vs. induction vs as [|v vs IHv]; simpl.
    + destruct (c a b =? 0)%Z eqn:E; [apply Z.eqb_eq in E|]; auto.
    + destruct (v =? 0)%Z eqn:E; [exact IHv|]. rewrite E. reflexivity.
Qed.

Lemma first_nonzero_zero_iff (vals : list Z) :
  first_nonzero vals = 0%Z <-> Forall (fun v => v = 0%Z) vals.
Proof.
  induction vals as [|v vs IH]; simpl.
  - split; auto.
  - destruct (v =? 0)%Z eqn:E.
    + apply Z.eqb_eq in E. rewrite IH. split.
      * intros H. constructor; assumption.
      * intros H. inversion H; assumption.
    + apply Z.eqb_neq in E. split.
      * intros H. contradiction.
      * intros H. inversion H; contradiction.
Qed.

End CombineFacts.

(** C9. [combine] applied to one comparator or more returns a comparator
    whose value on every pair of arguments is the first non-zero result in
    left-to-right order, and [0] exactly when every comparator returns [0];
    with two comparators it is the first one unless that is [0], then the
    second one. *)
Theorem combine_lexicographic :
  forall (A : Type) (cmp1 : comparator A) (rest : list (comparator A)),
  exists f,
    Sort.combine (cmp1 :: rest) = Ok f /\
    (forall a b,
        f a b = first_nonzero (map (fun c => c a b) (cmp1 :: rest)) /\
        (f a b = 0%Z <-> Forall (fun c : comparator A => c a b = 0%Z) (cmp1 :: rest))) /\
    (forall cmpB, exists g,
        Sort.combine [cmp1; cmpB] = Ok g /\
        forall a b, g a b = if (cmp1 a b =? 0)%Z then cmpB a b else cmp1 a b).
Proof.
  intros A cmp1 rest. exists (fold_left Sort.callback rest cmp1).
  split; [reflexivity|]. split.
  - intros a b. rewrite fold_callback_first_nonzero. split; [reflexivity|].
    rewrite first_nonzero_zero_iff, Forall_map. reflexivity.
  - intros cmpB. exists (Sort.callback cmp1 cmpB). split; reflexivity.
Qed.

(* ================================================================== *)
(** * Properties of [Queue.resolveAll] *)
(* ================================================================== *)

Section ResolveAllFacts.
Context {S E R : Type} (fn : E -> promise S R).

Let step (ready : promise S (list R)) (entry : E) : promise S (list R) :=
  then_ ready (fun result =>
  then_ (fn entry) (fun value => resolve (Queue_add result value))).

Lemma chain_unfold (q : list E) : forall (ready : promise S (list R)) s,
  fold_left step q ready s =
  match ready s with
  | (Err r, s') => (Err r, s')
  | (Ok acc, s') =>
      match one_at_a_time fn q s' with
      | (Ok values, s'') => (Ok (acc ++ values), s'')
      | (Err r, s'') => (Err r, s'')
      end
  end.
Proof.
  induction q as [|entry rest IH]; intros ready s; simpl.
  - destruct (ready s) as [[acc|r] s']; [rewrite app_nil_r|]; reflexivity.
  - rewrite IH. unfold step, then_, resolve, Queue_add.
    destruct (ready s) as [[acc|r] s']; [|reflexivity].
    destruct (fn entry s') as [[value|r] s1]; [|reflexivity].
    destruct (one_at_a_time fn rest s1) as [[values|r] s2]; [|reflexivity].
    rewrite <- app_assoc. reflexivity.
Qed.

Lemma resolveAll_sequential (q : list E) (s : S) :
  Queue_resolveAll fn q s = one_at_a_time fn q s.
Proof.
  unfold Queue_resolveAll. unfold then_ at 1.
  fold step. rewrite chain_unfold. unfold resolve.
  destruct (one_at_a_time fn q s) as [[values|r] s']; reflexivity.
Qed.

Lemma logged_unfold (entry : E) (s : S) (tr : list E) :
  logged fn entry (s, tr) =
  (fst (fn entry s), (snd (fn entry s), tr ++ [entry])).
Proof. unfold logged. simpl. destruct (fn entry s); reflexivity. Qed.

Lemma logged_trace (q : list E) : forall (s : S) (tr : list E),
  let run := one_at_a_time (logged fn) q (s, tr) in
  fst run = fst (one_at_a_time fn q s) /\
  fst (snd run) = snd (one_at_a_time fn q s) /\
  match fst run with
  | Ok values => snd (snd run) = tr ++ q /\ List.length values = List.length q
  | Err r =>
      exists pre entry post values s1,
        q = pre ++ entry :: post /\
        snd (snd run) = tr ++ pre ++ [entry] /\
        one_at_a_time fn pre s = (Ok values, s1) /\
        fst (fn entry s1) = Err r
  end.
Proof.
  induction q as [|entry rest IH]; intros s tr.
  - simpl. rewrite app_nil_r. auto.
  - cbv zeta. cbn [one_at_a_time]. rewrite logged_unfold.
    destruct (fn entry s) as [[value|r] s1] eqn:Hfn; cbn [fst snd].
    + specialize (IH s1 (tr ++ [entry])). cbv zeta in IH.
      destruct (one_at_a_time (logged fn) rest (s1, tr ++ [entry]))
        as [[values|r] [s2 tr2]];
        destruct (one_at_a_time fn rest s1) as [[values'|r'] s2'];
        cbn [fst snd] in *; destruct IH as (H1 & H2 & H3);
        try discriminate; inversion H1; subst.
      * destruct H3 as [-> Hlen]. repeat split.
        -- rewrite <- app_assoc. reflexivity.
        -- simpl. rewrite Hlen. reflexivity.
      * repeat split.
        destruct H3 as (pre & e & post & vs & s3 & -> & -> & Hpre & He).
        exists (entry :: pre), e, post, (value :: vs), s3.
        repeat split; auto.
        -- rewrite <- app_assoc. reflexivity.
        -- simpl. rewrite Hfn, Hpre. reflexivity.
    + repeat split.
      exists [], entry, rest, [], s. simpl. rewrite Hfn. auto.
Qed.

End ResolveAllFacts.

(** C1. [resolveAll(fn)] is the sequential map: [fn] is invoked on the
    elements one at a time and in the Queue's order, each invocation on the
    state that the one before left; the results are gathered in input
    order.  When an invocation fails the whole operation rejects with its
    reason, nothing of the results gathered so far is returned, and [fn] is
    invoked on no later element: the elements that [fn] was invoked on are
    those before the failing one and the failing one. *)
Theorem resolveAll_sequential_fail_fast :
  forall (S E R : Type) (fn : E -> promise S R) (q : list E) (s : S),
    Queue_resolveAll fn q s = one_at_a_time fn q s /\
    let run := Queue_resolveAll (logged fn) q (s, []) in
    fst run = fst (Queue_resolveAll fn q s) /\
    fst (snd run) = snd (Queue_resolveAll fn q s) /\
    match fst run with
    | Ok values => snd (snd run) = q /\ List.length values = List.length q
    | Err r =>
        exists pre entry post values s1,
          q = pre ++ entry :: post /\
          snd (snd run) = pre ++ [entry] /\
          Queue_resolveAll fn pre s = (Ok values, s1) /\
          fst (fn entry s1) = Err r
    end.
Proof.
  intros S E R fn q s. split; [apply resolveAll_sequential|].
  cbv zeta. rewrite !resolveAll_sequential.
  destruct (logged_trace fn q s []) as (H1 & H2 & H3).
  repeat split; auto.
  destruct (fst (one_at_a_time (logged fn) q (s, []))) as [values|r].
  - exact H3.
  - destruct H3 as (pre & e & post & vs & s1 & Hq & Htr & Hpre & He).
    exists pre, e, post, vs, s1. rewrite resolveAll_sequential. auto.
Qed.

(* ================================================================== *)
(** * Properties of [Queue.flatten] *)
(* ================================================================== *)

Section FlattenFacts.

(** Induction on a slot, with the property available for every slot of a
    nested Queue. *)
Lemma value_nested_ind (P : value -> Prop)
  (Hleaf : forall v, is_queue v = false -> P v)
  (Hqueue : forall oid inner, Forall P inner -> P (VQueue oid inner)) :
  forall v, P v.
Proof.
  fix IH 1. intros [ | t | a | a | oid inner].
  1-4: apply Hleaf; reflexivity.
  apply Hqueue. induction inner as [|x rest IHrest].
  - constructor.
  - constructor; [apply IH | exact IHrest].
Qed.

Lemma fold_append_flat_map {A B} (f : A -> list B) (l : list A) :
  forall acc, fold_left (fun result x => result ++ f x) l acc =
              acc ++ flat_map f l.
Proof.
  induction l as [|x rest IH]; intros acc; simpl.
  - rewrite app_nil_r. reflexivity.
  - rewrite IH, <- app_assoc. reflexivity.
Qed.

Lemma flat_map_ext_Forall {A B} (f g : A -> list B) (l : list A) :
  Forall (fun x => f x = g x) l -> flat_map f l = flat_map g l.
Proof.
  induction 1 as [|x rest Hx _ IH]; simpl; [reflexivity|].
  rewrite Hx, IH. reflexivity.
Qed.

Lemma flatten_slot_leaves : forall v, flatten_slot v = leaves_of v.
Proof.
  apply value_nested_ind.
  - intros [ | t | a | a | oid inner] H; try reflexivity. discriminate.
  - intros oid inner IH. simpl.
    rewrite fold_append_flat_map. simpl.
    apply flat_map_ext_Forall. exact IH.
Qed.

Lemma Queue_flatten_leaves (q : list value) : Queue_flatten q = leaves q.
Proof.
  unfold Queue_flatten, leaves. rewrite fold_append_flat_map. simpl.
  apply flat_map_ext_Forall, Forall_forall. intros v _.
  apply flatten_slot_leaves.
Qed.

Lemma Forall_flat_map {A B} (P : B -> Prop) (f : A -> list B) (l : list A) :
  Forall (fun x => Forall P (f x)) l -> Forall P (flat_map f l).
Proof.
  induction 1 as [|x rest Hx _ IH]; simpl; [constructor|].
  apply Forall_app. split; assumption.
Qed.

Lemma leaves_of_terminal :
  forall v, Forall (fun x => is_queue x = false) (leaves_of v).
Proof.
  apply value_nested_ind.
  - intros [ | t | a | a | oid inner] H; try discriminate;
      repeat constructor.
  - intros oid inner IH. simpl. apply Forall_flat_map. exact IH.
Qed.

Lemma length_flat_map {A B} (f : A -> list B) (l : list A) :
  List.length (flat_map f l) = list_sum (map (fun x => List.length (f x)) l).
Proof.
  induction l as [|x rest IH]; simpl; [reflexivity|].
  rewrite length_app, IH. reflexivity.
Qed.

Lemma list_sum_ext_Forall {A} (f g : A -> nat) (l : list A) :
  Forall (fun x => f x = g x) l -> list_sum (map f l) = list_sum (map g l).
Proof.
  induction 1 as [|x rest Hx _ IH]; simpl; [reflexivity|].
  rewrite Hx, IH. reflexivity.
Qed.

Lemma leaves_of_count : forall v, List.length (leaves_of v) = leaf_count v.
Proof.
  apply value_nested_ind.
  - intros [ | t | a | a | oid inner] H; try reflexivity. discriminate.
  - intros oid inner IH. simpl. rewrite length_flat_map.
    apply list_sum_ext_Forall. exact IH.
Qed.

Lemma leaves_flat (q : list value) :
  forallb (fun v => negb (is_queue v)) q = true -> leaves q = q.
Proof.
  unfold leaves.
  induction q as [|v rest IH]; simpl; [reflexivity|].
  intros H. apply andb_true_iff in H. destruct H as [Hv Hrest].
  rewrite (IH Hrest).
  destruct v; try reflexivity. discriminate.
Qed.

End FlattenFacts.

(** C7. [flatten()] on a Queue that mixes plain entries and nested Queues,
    to any depth, yields the plain entries themselves in depth-first,
    left-to-right order; no element of the result is a Queue, and the
    number of elements is the sum of the leaf entries. *)
Theorem flatten_depth_first :
  forall q : list value,
    Queue_flatten q = leaves q /\
    Forall (fun v => is_queue v = false) (Queue_flatten q) /\
    List.length (Queue_flatten q) = list_sum (map leaf_count q) /\
    Queue_flatten (Queue_flatten q) = Queue_flatten q.
Proof.
  intros q. rewrite !Queue_flatten_leaves.
  assert (Hterm : Forall (fun v => is_queue v = false) (leaves q)).
  { apply Forall_flat_map, Forall_forall. intros v _.
    apply leaves_of_terminal. }
  repeat split.
  - exact Hterm.
  - unfold leaves. rewrite length_flat_map.
    apply list_sum_ext_Forall, Forall_forall. intros v _.
    apply leaves_of_count.
  - apply leaves_flat. apply forallb_forall. intros v Hv.
    rewrite Forall_forall in Hterm. rewrite (Hterm v Hv). reflexivity.
Qed.

(* ================================================================== *)
(** * Properties of [Queue.dedup] *)
(* ================================================================== *)

Section DedupFacts.
Context {E : Type} `{Entity E}.

Let step (result : outcome (list E)) (entry : E) : outcome (list E) :=
  (r <- result ;;
   c <- Queue_contains r entry ;;
   if c then Ok r else Ok (Queue_add r entry))%outcome.

Lemma dedup_unfold (q : list E) :
  Queue_dedup q = fold_left step q (Ok []).
Proof. reflexivity. Qed.

Lemma step_ok (acc : list E) (e : E) :
  step (Ok acc) e =
  match Queue_contains acc e with
  | Ok true => Ok acc
  | Ok false => Ok (acc ++ [e])
  | Err r => Err r
  end.
Proof.
  unfold step. simpl. destruct (Queue_contains acc e) as [[|]|r]; reflexivity.
Qed.

Lemma dedup_loop_err (q : list E) (r : reason) :
  fold_left step q (Err r) = Err r.
Proof. induction q as [|e rest IH]; simpl; auto. Qed.

(** Whatever the rule is, the Queue that the loop has built so far is
    left as it is by [dedup]. *)
Lemma dedup_loop_clean (q : list E) : forall acc result,
  Queue_dedup acc = Ok acc ->
  fold_left step q (Ok acc) = Ok result ->
  Queue_dedup result = Ok result.
Proof.
  induction q as [|e rest IH]; intros acc result Hacc Hrun;
    cbn [fold_left] in Hrun.
  - inversion Hrun; subst. exact Hacc.
  - rewrite step_ok in Hrun.
    destruct (Queue_contains acc e) as [[|]|r] eqn:Hc.
    + apply (IH acc); assumption.
    + apply (IH (acc ++ [e])); [|assumption].
      rewrite dedup_unfold in *.
      rewrite fold_left_app, Hacc. cbn [fold_left].
      rewrite step_ok, Hc. reflexivity.
    + rewrite dedup_loop_err in Hrun. discriminate.
Qed.

Lemma dedup_idempotent_when_returns (q result : list E) :
  Queue_dedup q = Ok result -> Queue_dedup result = Ok result.
Proof. apply dedup_loop_clean. reflexivity. Qed.

Lemma contains_existsb (r : list E) (e : E) :
  (forall x, In x r -> exists b, Queue_matches x e = Ok b) ->
  Queue_contains r e = Ok (existsb (fun x => rule_eq x e) r).
Proof.
  induction r as [|x rest IH]; intros Hdef; simpl; [reflexivity|].
  destruct (Hdef x (or_introl eq_refl)) as [b Hb].
  unfold rule_eq at 1. rewrite Hb. simpl.
  destruct b; [reflexivity|]. apply IH.
  intros y Hy. apply Hdef. right. exact Hy.
Qed.

Lemma dedup_loop_first_occurrences (q : list E) : forall dom seen acc,
  rule_total_on dom -> rule_transitive_on dom ->
  incl (seen ++ q) dom ->
  incl acc seen ->
  (forall x, In x seen ->
     In x acc \/ exists k, In k acc /\ rule_eq k x = true) ->
  fold_left step q (Ok acc) = Ok (acc ++ first_occurrences_after seen q).
Proof.
  induction q as [|e rest IH]; intros dom seen acc Htot Htr Hdom Hsub Hrep;
    cbn [fold_left first_occurrences_after].
  - rewrite app_nil_r. reflexivity.
  - rewrite step_ok.
    assert (He : In e dom) by (apply Hdom, in_or_app; right; left; auto).
    assert (Hseen : forall x, In x seen -> In x dom)
      by (intros x Hx; apply Hdom, in_or_app; left; auto).
    rewrite contains_existsb
      by (intros x Hx; apply Htot; auto).
    assert (Hsame : existsb (fun x => rule_eq x e) acc =
                    existsb (fun x => rule_eq x e) seen).
    { apply eq_true_iff_eq. rewrite !existsb_exists. split.
      - intros (x & Hx & Hxe). exists x. auto.
      - intros (x & Hx & Hxe). destruct (Hrep x Hx) as [Hin|(k & Hk & Hkx)].
        + exists x. auto.
        + exists k. split; [assumption|].
          apply (Htr k x e); auto. }
    rewrite <- Hsame.
    destruct (existsb (fun x => rule_eq x e) acc) eqn:Hex.
    + apply (IH dom); auto.
      * rewrite <- app_assoc. exact Hdom.
      * intros x Hx. apply in_or_app. left. auto.
      * intros x Hx. apply in_app_or in Hx. destruct Hx as [Hx|[<-|[]]].
        -- apply Hrep, Hx.
        -- right. apply existsb_exists in Hex.
           destruct Hex as (k & Hk & Hke). exists k. auto.
    + rewrite (IH dom (seen ++ [e]) (acc ++ [e])); auto.
      * rewrite <- app_assoc. reflexivity.
      * rewrite <- app_assoc. exact Hdom.
      * intros x Hx. apply in_app_or in Hx. apply in_or_app.
        destruct Hx as [Hx|Hx]; [left; auto | right; exact Hx].
      * intros x Hx. apply in_app_or in Hx. destruct Hx as [Hx|[<-|[]]].
        -- destruct (Hrep x Hx) as [Hin|(k & Hk & Hkx)].
           ++ left. apply in_or_app. left. exact Hin.
           ++ right. exists k. split; [apply in_or_app; left|]; auto.
        -- left. apply in_or_app. right. left. reflexivity.
Qed.

Lemma dedup_first_occurrences (q : list E) :
  rule_total_on q -> rule_transitive_on q ->
  Queue_dedup q = Ok (first_occurrences q).
Proof.
  intros Htot Htr. rewrite dedup_unfold. unfold first_occurrences.
  rewrite (@dedup_loop_first_occurrences q q [] []); auto.
  - intros x Hx. exact Hx.
  - intros x [].
Qed.

End DedupFacts.

(** Queues of entries meet the conditions of the statement below: when
    every slot holds an object that displays as a string, and distinct
    objects have distinct identities, the test of [contains] returns on
    them and is transitive. *)
Section EntryEquality.
Variable q : list value.
Hypothesis Hshown :
  forall v, In v q -> exists s, value_toString v = Ok (JStr s).
Hypothesis Hidentity :
  forall x y, In x q -> In y q -> value_same x y = true -> x = y.

Lemma track_matches (a : Track) (y : value) (sa sy : string) :
  Track_toString a = Ok (JStr sa) -> value_toString y = Ok (JStr sy) ->
  Queue_matches (VTrack a) y =
  Ok ((toLowerCase sa =? toLowerCase sy)%string || value_same (VTrack a) y).
Proof.
  intros Ha Hy. unfold Queue_matches. simpl. unfold Track_equals.
  rewrite Ha. simpl. rewrite Hy. reflexivity.
Qed.

Lemma entries_rule_total : rule_total_on q.
Proof.
  intros x y Hx Hy.
  destruct (Hshown _ Hx) as [sx Hsx]. destruct (Hshown _ Hy) as [sy Hsy].
  destruct x as [ | a | a | a | oid inner].
  - discriminate Hsx.
  - eexists. apply (track_matches a y Hsx Hsy).
  - eexists. reflexivity.
  - eexists. reflexivity.
  - eexists. reflexivity.
Qed.

Lemma entries_rule_eq (x y : value) (sx sy : string) :
  In x q -> In y q ->
  value_toString x = Ok (JStr sx) -> value_toString y = Ok (JStr sy) ->
  rule_eq x y = true <->
  match x with
  | VTrack _ => toLowerCase sx = toLowerCase sy
  | _ => x = y
  end.
Proof.
  intros Hx Hy Hsx Hsy. unfold rule_eq.
  assert (Hsame : value_same x y = true <-> x = y).
  { split; [apply Hidentity; assumption|]. intros <-.
    destruct x as [ | a | a | a | oid inner]; simpl;
      try reflexivity; apply Nat.eqb_refl. }
  assert (Hplain : match Ok (value_same x y) with
                   | Ok true => true
                   | _ => false
                   end = true <-> x = y).
  { destruct (value_same x y); [tauto|].
    split; [discriminate | intros Heq; apply Hsame in Heq; discriminate]. }
  destruct x as [ | a | a | a | oid inner]; try exact Hplain.
  - discriminate Hsx.
  - rewrite (track_matches a y Hsx Hsy).
    destruct (value_same (VTrack a) y) eqn:Hv.
    + assert (Heq : VTrack a = y) by (apply Hsame; reflexivity).
      subst y. rewrite Hsx in Hsy. injection Hsy as ->.
      rewrite String.eqb_refl. simpl. tauto.
    + rewrite orb_false_r.
      destruct (toLowerCase sx =? toLowerCase sy)%string eqn:Hs.
      * apply String.eqb_eq in Hs. tauto.
      * apply String.eqb_neq in Hs. split; [discriminate | contradiction].
Qed.

Lemma entries_rule_transitive : rule_transitive_on q.
Proof.
  intros x y z Hx Hy Hz.
  destruct (Hshown _ Hx) as [sx Hsx]. destruct (Hshown _ Hy) as [sy Hsy].
  destruct (Hshown _ Hz) as [sz Hsz].
  rewrite (entries_rule_eq x y Hx Hy Hsx Hsy),
    (entries_rule_eq y z Hy Hz Hsy Hsz),
    (entries_rule_eq x z Hx Hz Hsx Hsz).
  destruct x as [ | a | a | a | oid inner];
    try (intros <- H; exact H).
  intros Hxy Hyz. destruct y as [ | b | b | b | oid inner];
    try (subst z; rewrite Hsy in Hsz; injection Hsz as <-; exact Hxy).
  congruence.
Qed.

End EntryEquality.

(** On such a Queue of entries [dedup] returns, with the first
    occurrences. *)
Lemma dedup_entries (q : list value) :
  (forall v, In v q -> exists s, value_toString v = Ok (JStr s)) ->
  (forall x y, In x q -> In y q -> value_same x y = true -> x = y) ->
  Queue_dedup q = Ok (first_occurrences q).
Proof.
  intros Hshown Hidentity. apply dedup_first_occurrences.
  - apply entries_rule_total; assumption.
  - apply entries_rule_transitive; assumption.
Qed.

(** C8. On a Queue whose elements answer the equality test of [contains]
    (the element's [equals] when it has one, reference identity otherwise),
    that test being transitive as an equality is, [dedup()] keeps exactly
    the first occurrence of each element, in the order of the first
    occurrences, and applying it again changes nothing. *)
Theorem dedup_first_occurrences_idempotent :
  forall (E : Type) (entity : Entity E) (q : list E),
    rule_total_on q -> rule_transitive_on q ->
    Queue_dedup q = Ok (first_occurrences q) /\
    Queue_dedup (first_occurrences q) = Ok (first_occurrences q).
Proof.
  intros E entity q Htot Htr.
  pose proof (dedup_first_occurrences Htot Htr) as Hd.
  split; [exact Hd|].
  exact (dedup_idempotent_when_returns _ Hd).
Qed.

(** The Queue [[foo, foo, bar]] becomes [[foo, bar]], and stays so. *)
Lemma dedup_first_occurrences_idempotent_witness :
  Queue_dedup [VTrack foo1; VTrack foo2; VTrack bar]
    = Ok [VTrack foo1; VTrack bar] /\
  Queue_dedup [VTrack foo1; VTrack bar] = Ok [VTrack foo1; VTrack bar].
Proof.
  assert (Htot : rule_total_on [VTrack foo1; VTrack foo2; VTrack bar]).
  { intros a b Ha Hb. simpl in Ha, Hb.
    repeat (destruct Ha as [<-|Ha]; [|]); try contradiction;
    repeat (destruct Hb as [<-|Hb]; [|]); try contradiction;
    eexists; vm_compute; reflexivity. }
  assert (Htr : rule_transitive_on [VTrack foo1; VTrack foo2; VTrack bar]).
  { intros a b c Ha Hb Hc. simpl in Ha, Hb, Hc.
    repeat (destruct Ha as [<-|Ha]; [|]); try contradiction;
    repeat (destruct Hb as [<-|Hb]; [|]); try contradiction;
    repeat (destruct Hc as [<-|Hc]; [|]); try contradiction;
    vm_compute; intros; congruence. }
  exact (dedup_first_occurrences_idempotent Htot Htr).
Defined.

(* ================================================================== *)
(** * Properties of [Queue.group] *)
(* ================================================================== *)

Section GroupFacts.
Context {E : Type} (array_member : string -> bool) (fn : E -> string).

Lemma existsb_eqb_In (k : string) (l : list string) :
  existsb (String.eqb k) l = true <-> In k l.
Proof.
  rewrite existsb_exists. split.
  - intros (x & Hx & Heq). apply String.eqb_eq in Heq. subst. exact Hx.
  - intros Hin. exists k. split; [exact Hin | apply String.eqb_refl].
Qed.

Lemma first_appearance_snoc (l : list string) (k : string) :
  first_appearance (l ++ [k]) =
  if existsb (String.eqb k) (first_appearance l)
  then first_appearance l else first_appearance l ++ [k].
Proof. unfold first_appearance. rewrite fold_left_app. reflexivity. Qed.

Lemma first_appearance_In (l : list string) (k : string) :
  In k (first_appearance l) <-> In k l.
Proof.
  induction l as [|x rest IH] using rev_ind.
  - simpl. tauto.
  - rewrite first_appearance_snoc, in_app_iff.
    destruct (existsb (String.eqb x) (first_appearance rest)) eqn:Hex.
    + apply existsb_eqb_In in Hex. rewrite IH. simpl.
      split; [tauto|]. intros [H|[<-|[]]]; [exact H|].
      apply IH. exact Hex.
    + rewrite in_app_iff, IH. simpl. tauto.
Qed.

Lemma first_appearance_NoDup (l : list string) : NoDup (first_appearance l).
Proof.
  induction l as [|x rest IH] using rev_ind.
  - constructor.
  - rewrite first_appearance_snoc.
    destruct (existsb (String.eqb x) (first_appearance rest)) eqn:Hex.
    + exact IH.
    + apply NoDup_app; auto.
      * repeat constructor. intros [].
      * intros y Hy [<-|[]].
        apply existsb_eqb_In in Hy. congruence.
Qed.

Lemma bucket_snoc (p : list E) (e : E) (k : string) :
  bucket fn (p ++ [e]) k =
  bucket fn p k ++ (if (fn e =? k)%string then [e] else []).
Proof. unfold bucket. rewrite filter_app. reflexivity. Qed.

(** The array [map] once the elements of [p] have gone through the first
    loop. *)
Let buckets (p : list E) : list (string * list E) :=
  map (fun k => (k, bucket fn p k)) (first_appearance (map fn p)).

Lemma lookup_table {V} (g : string -> V) (ks : list string) (k : string) :
  lookup k (map (fun k' => (k', g k')) ks) =
  if existsb (String.eqb k) ks then Some (g k) else None.
Proof.
  induction ks as [|x rest IH]; simpl; [reflexivity|].
  rewrite (String.eqb_sym k x).
  destruct (x =? k)%string eqn:Hx; simpl.
  - apply String.eqb_eq in Hx. subst. reflexivity.
  - exact IH.
Qed.

Lemma set_prop_new {V} (k : string) (v : V) (m : list (string * V)) :
  existsb (String.eqb k) (map fst m) = false ->
  set_prop k v m = m ++ [(k, v)].
Proof.
  induction m as [|[k' v'] rest IH]; simpl; [reflexivity|].
  rewrite (String.eqb_sym k k').
  destruct (k' =? k)%string; simpl; [discriminate|].
  intros H. rewrite IH by exact H. reflexivity.
Qed.

Lemma set_prop_table {V} (g : string -> V) (ks : list string)
    (k : string) (v : V) :
  NoDup ks -> In k ks ->
  set_prop k v (map (fun k' => (k', g k')) ks) =
  map (fun k' => (k', if (k' =? k)%string then v else g k')) ks.
Proof.
  induction ks as [|x rest IH]; intros Hnd Hin; [contradiction|].
  simpl. inversion Hnd as [|? ? Hx Hrest]; subst.
  destruct (x =? k)%string eqn:Hxk.
  - apply String.eqb_eq in Hxk. subst. f_equal.
    apply map_ext_in. intros y Hy.
    destruct (y =? k)%string eqn:Hyk; [|reflexivity].
    apply String.eqb_eq in Hyk. subst. contradiction.
  - f_equal. apply IH; [exact Hrest|].
    destruct Hin as [->|Hin]; [|exact Hin].
    rewrite String.eqb_refl in Hxk. discriminate.
Qed.

Lemma group_step_buckets (p : list E) (e : E) :
  array_member (fn e) = false ->
  group_step array_member fn (buckets p) e = Ok (buckets (p ++ [e])).
Proof.
  intros Hfree. unfold group_step. rewrite Hfree.
  unfold buckets. rewrite map_app. simpl.
  rewrite first_appearance_snoc, lookup_table.
  pose proof (first_appearance_NoDup (map fn p)) as Hnd.
  destruct (existsb (String.eqb (fn e)) (first_appearance (map fn p)))
    eqn:Hex.
  - rewrite lookup_table, Hex.
    rewrite set_prop_table by (auto; apply existsb_eqb_In; exact Hex).
    f_equal. apply map_ext. intros k. rewrite bucket_snoc.
    rewrite (String.eqb_sym k (fn e)).
    destruct (fn e =? k)%string eqn:Hk.
    + apply String.eqb_eq in Hk. subst. reflexivity.
    + rewrite app_nil_r. reflexivity.
  - rewrite set_prop_new by (rewrite map_map, map_id; exact Hex).
    assert (Hlk : lookup (fn e)
              (map (fun k => (k, bucket fn p k)) (first_appearance (map fn p))
               ++ [(fn e, [])]) = Some []).
    { change [(fn e, @nil E)] with
        (map (fun k => (k, @nil E)) [fn e]).
      clear Hnd.
      induction (first_appearance (map fn p)) as [|x rest IH]; simpl.
      - rewrite String.eqb_refl. reflexivity.
      - simpl in Hex. apply orb_false_iff in Hex. destruct Hex as [Hx Hr].
        rewrite String.eqb_sym, Hx. apply IH. exact Hr. }
    rewrite Hlk.
    assert (Hset : forall (m : list (string * list E)) v,
               existsb (String.eqb (fn e)) (map fst m) = false ->
               set_prop (fn e) v (m ++ [(fn e, [])]) = m ++ [(fn e, v)]).
    { intros m v. induction m as [|[k' v'] rest IH]; simpl.
      - rewrite String.eqb_refl. reflexivity.
      - rewrite (String.eqb_sym (fn e) k').
        destruct (k' =? fn e)%string; simpl; [discriminate|].
        intros H. rewrite IH by exact H. reflexivity. }
    rewrite Hset by (rewrite map_map, map_id; exact Hex).
    rewrite map_app. cbn [map]. apply f_equal.
    apply (f_equal2 (@app _)).
    + apply map_ext_in. intros k Hk. rewrite bucket_snoc.
      destruct (fn e =? k)%string eqn:Hek; [|rewrite app_nil_r; reflexivity].
      apply String.eqb_eq in Hek. subst.
      apply existsb_eqb_In in Hk. congruence.
    + rewrite bucket_snoc, String.eqb_refl. cbn [app].
      assert (Hnone : bucket fn p (fn e) = []).
      { unfold bucket.
        assert (Hnot : ~ In (fn e) (map fn p)).
        { intros Hin. apply first_appearance_In in Hin.
          apply existsb_eqb_In in Hin. congruence. }
        clear -Hnot. induction p as [|x rest IH]; simpl; [reflexivity|].
        destruct (fn x =? fn e)%string eqn:Hx.
        - apply String.eqb_eq in Hx. exfalso. apply Hnot. left. exact Hx.
        - apply IH. intros Hin. apply Hnot. right. exact Hin. }
      rewrite Hnone. reflexivity.
Qed.


Lemma group_loop_buckets (q : list E) : forall p,
  forallb (fun e => negb (array_member (fn e))) q = true ->
  fold_left (fun acc entry =>
               (m <- acc ;; group_step array_member fn m entry)%outcome)
    q (Ok (buckets p)) = Ok (buckets (p ++ q)).
Proof.
  induction q as [|e rest IH]; intros p Hfree; simpl.
  - rewrite app_nil_r. reflexivity.
  - simpl in Hfree. apply andb_true_iff in Hfree.
    destruct Hfree as [He Hrest]. apply negb_true_iff in He.
    rewrite group_step_buckets by exact He.
    rewrite IH by exact Hrest. rewrite <- app_assoc. reflexivity.
Qed.

Lemma bucket_of_table (q : list E) (k : string) :
  match lookup k (buckets q) with Some b => b | None => [] end =
  bucket fn q k.
Proof.
  unfold buckets. rewrite lookup_table.
  destruct (existsb (String.eqb k) (first_appearance (map fn q))) eqn:Hex;
    [reflexivity|].
  assert (Hnot : ~ In k (map fn q)).
  { intros Hin. apply first_appearance_In in Hin.
    apply existsb_eqb_In in Hin. congruence. }
  unfold bucket. clear -Hnot.
  induction q as [|x rest IH]; simpl; [reflexivity|].
  destruct (fn x =? k)%string eqn:Hx.
  - apply String.eqb_eq in Hx. exfalso. apply Hnot. left. exact Hx.
  - apply IH. intros Hin. apply Hnot. right. exact Hin.
Qed.

Lemma group_in_key_order (q : list E) :
  forallb (fun e => negb (array_member (fn e))) q = true ->
  Queue_group array_member fn q = Ok (grouped_in_key_order fn q).
Proof.
  intros Hfree. unfold Queue_group.
  change (@Ok (list (string * list E)) []) with (Ok (buckets [])).
  rewrite group_loop_buckets by exact Hfree. simpl. f_equal.
  rewrite fold_append_flat_map. simpl.
  unfold grouped_in_key_order, buckets at 2.
  rewrite map_map, map_id.
  apply flat_map_ext. intros k. apply bucket_of_table.
Qed.

Lemma index_keys_none (ks : list string) :
  forallb (fun k => negb (is_index k)) ks = true -> index_keys ks = [].
Proof.
  induction ks as [|k rest IH]; simpl; [reflexivity|].
  intros H. apply andb_true_iff in H. destruct H as [Hk Hrest].
  unfold is_index in Hk. destruct (array_index k); [discriminate|].
  apply IH. exact Hrest.
Qed.

Lemma for_in_order_no_index (ks : list string) :
  forallb (fun k => negb (is_index k)) ks = true -> for_in_order ks = ks.
Proof.
  intros H. unfold for_in_order. rewrite index_keys_none by exact H.
  simpl. induction ks as [|k rest IH]; simpl; [reflexivity|].
  simpl in H. apply andb_true_iff in H. destruct H as [Hk Hrest].
  rewrite Hk, IH by exact Hrest. reflexivity.
Qed.

Lemma first_appearance_no_index (q : list E) :
  forallb (fun e => negb (is_index (fn e))) q = true ->
  forallb (fun k => negb (is_index k)) (first_appearance (map fn q)) = true.
Proof.
  intros H. apply forallb_forall. intros k Hk.
  apply first_appearance_In, in_map_iff in Hk.
  destruct Hk as (e & <- & He).
  rewrite forallb_forall in H. apply H. exact He.
Qed.

End GroupFacts.

(** The enumeration order, spelled out: the array indices among the keys,
    each with its numeric value, in ascending order of that value. *)
Lemma insert_index_perm (n : N) (k : string) (l : list (N * string)) :
  Permutation ((n, k) :: l) (insert_index n k l).
Proof.
  induction l as [|[m k'] rest IH]; simpl; [reflexivity|].
  destruct (n <? m)%N; [reflexivity|].
  apply perm_trans with ((m, k') :: (n, k) :: rest); [apply perm_swap|].
  apply perm_skip. exact IH.
Qed.

Lemma insert_index_sorted (n : N) (k : string) (l : list (N * string)) :
  StronglySorted (fun a b => (fst a <= fst b)%N) l ->
  StronglySorted (fun a b => (fst a <= fst b)%N) (insert_index n k l).
Proof.
  intros Hs. induction Hs as [|[m k'] rest Hs IH Hall]; simpl.
  - repeat constructor.
  - destruct (n <? m)%N eqn:Hnm.
    + apply N.ltb_lt in Hnm. constructor; [constructor; assumption|].
      constructor; [simpl; lia|].
      rewrite Forall_forall in *. intros x Hx. specialize (Hall x Hx).
      simpl in *. lia.
    + apply N.ltb_ge in Hnm. constructor; [exact IH|].
      rewrite Forall_forall in *. intros x Hx.
      apply (Permutation_in _ (Permutation_sym (insert_index_perm n k rest)))
        in Hx.
      destruct Hx as [<-|Hx]; [simpl; lia | apply Hall, Hx].
Qed.

Lemma index_keys_shape (ks : list string) :
  StronglySorted (fun a b => (fst a <= fst b)%N) (index_keys ks) /\
  Forall (fun p => array_index (snd p) = Some (fst p)) (index_keys ks) /\
  Permutation (map snd (index_keys ks)) (filter is_index ks).
Proof.
  induction ks as [|k rest (IHs & IHa & IHp)]; simpl.
  - repeat split; constructor.
  - unfold is_index. destruct (array_index k) as [n|] eqn:Hk.
    + repeat split.
      * apply insert_index_sorted. exact IHs.
      * apply (Permutation_Forall (insert_index_perm n k (index_keys rest))).
        constructor; [exact Hk | exact IHa].
      * apply perm_trans with (map snd ((n, k) :: index_keys rest)).
        -- apply Permutation_map, Permutation_sym, insert_index_perm.
        -- simpl. apply perm_skip. exact IHp.
    + repeat split; assumption.
Qed.

(** C3, as the code has it.  When no key is a name that arrays already
    answer to, [group(keyFn)] puts every element into the bucket of its key
    and rewrites the Queue as the buckets one after the other, each bucket
    in the original relative order of its elements; the buckets come in the
    order in which the host enumerates their keys: keys that are array
    indices first, in ascending numeric order, then the other keys in order
    of first appearance.  When no key is an array index this is the order
    of first appearance of the keys. *)
Theorem group_buckets_in_key_order :
  forall (E : Type) (array_member : string -> bool)
         (fn : E -> string) (q : list E),
    forallb (fun e => negb (array_member (fn e))) q = true ->
    Queue_group array_member fn q = Ok (grouped_in_key_order fn q) /\
    (forallb (fun e => negb (is_index (fn e))) q = true ->
     Queue_group array_member fn q = Ok (grouped_by_first_appearance fn q)).
Proof.
  intros E array_member fn q Hfree.
  pose proof (group_in_key_order array_member fn q Hfree) as Hg.
  split; [exact Hg|]. intros Hnoidx. rewrite Hg. f_equal.
  unfold grouped_in_key_order, grouped_by_first_appearance.
  rewrite for_in_order_no_index; [reflexivity|].
  exact (first_appearance_no_index array_member fn q Hnoidx).
Qed.

(** Elements keyed [1], [2], [1] come out as [elem0, elem2, elem1];
    elements keyed [a], [b], [a] come out in order of first appearance. *)
Lemma group_buckets_in_key_order_witness :
  Queue_group es5_array_member keys_121 [0; 1; 2] = Ok [0; 2; 1] /\
  Queue_group es5_array_member keys_aba [0; 1; 2]
    = Ok (grouped_by_first_appearance keys_aba [0; 1; 2]).
Proof.
  split.
  - exact (proj1 (@group_buckets_in_key_order nat es5_array_member keys_121
                    [0; 1; 2] eq_refl)).
  - exact (proj2 (@group_buckets_in_key_order nat es5_array_member keys_aba
                    [0; 1; 2] eq_refl) eq_refl).
Defined.

(** Elements keyed [2], [1], [2]: the key [2] appears first, yet the bucket
    of key [1] comes out first. *)
Lemma group_not_first_appearance :
  grouped_by_first_appearance keys_212 [0; 1; 2] = [0; 2; 1] /\
  Queue_group es5_array_member keys_212 [0; 1; 2] = Ok [1; 0; 2] /\
  Queue_group es5_array_member keys_212 [0; 1; 2]
    <> Ok (grouped_by_first_appearance keys_212 [0; 1; 2]).
Proof.
  split; [reflexivity|]. split; [reflexivity|].
  vm_compute. intros H. discriminate H.
Qed.

(* ================================================================== *)
(** * Properties of sorting *)
(* ================================================================== *)

Section ComparatorFacts.
Context {T : Type} (c : comparator T) (Hc : consistent c).

Lemma consistent_refl a : c a a = 0%Z.
Proof. apply Hc. Qed.

Lemma consistent_lt_gt a b : (c a b < 0)%Z <-> (c b a > 0)%Z.
Proof. apply Hc. Qed.

Lemma consistent_le_trans a b d :
  (c a b <= 0)%Z -> (c b d <= 0)%Z -> (c a d <= 0)%Z.
Proof. apply Hc. Qed.

Lemma consistent_eq_sym a b : c a b = 0%Z -> c b a = 0%Z.
Proof.
  intros H. pose proof (consistent_lt_gt a b). pose proof (consistent_lt_gt b a).
  lia.
Qed.

Lemma consistent_ge_le a b : (0 <= c a b)%Z -> (c b a <= 0)%Z.
Proof.
  intros H. pose proof (consistent_lt_gt a b). pose proof (consistent_lt_gt b a).
  lia.
Qed.

Lemma consistent_lt_le_trans a b d :
  (c a b < 0)%Z -> (c b d <= 0)%Z -> (c a d < 0)%Z.
Proof.
  intros Hab Hbd.
  destruct (Z_lt_le_dec (c a d) 0) as [Hlt|Hge]; [exact Hlt|].
  apply consistent_ge_le in Hge.
  pose proof (consistent_le_trans Hbd Hge) as Hba.
  pose proof (consistent_lt_gt a b). lia.
Qed.

Lemma consistent_le_lt_trans a b d :
  (c a b <= 0)%Z -> (c b d < 0)%Z -> (c a d < 0)%Z.
Proof.
  intros Hab Hbd.
  destruct (Z_lt_le_dec (c a d) 0) as [Hlt|Hge]; [exact Hlt|].
  apply consistent_ge_le in Hge.
  pose proof (consistent_le_trans Hge Hab) as Hdb.
  pose proof (consistent_lt_gt b d). lia.
Qed.

Lemma consistent_eq_trans a b d :
  c a b = 0%Z -> c b d = 0%Z -> c a d = 0%Z.
Proof.
  intros Hab Hbd.
  pose proof (consistent_eq_sym Hab) as Hba.
  pose proof (consistent_eq_sym Hbd) as Hdb.
  assert (c a d <= 0)%Z by (apply (@consistent_le_trans a b d); lia).
  assert (c d a <= 0)%Z by (apply (@consistent_le_trans d b a); lia).
  pose proof (consistent_lt_gt a d). lia.
Qed.

End ComparatorFacts.

Section DecoratedFacts.
Context {A : Type} (fn : comparator A) (Hfn : consistent fn).

Lemma ascending_key_cases (p q : Sort.indexed A) :
  (Sort.key p < Sort.key q /\ Sort.ascending (@Sort.key A) p q = (-1)%Z) \/
  (Sort.key q < Sort.key p /\ Sort.ascending (@Sort.key A) p q = 1%Z) \/
  (Sort.key p = Sort.key q /\ Sort.ascending (@Sort.key A) p q = 0%Z).
Proof.
  unfold Sort.ascending, js_gt, js_lt, Relational_nat.
  destruct (Sort.key p <? Sort.key q) eqn:H1.
  - apply Nat.ltb_lt in H1. left. auto.
  - apply Nat.ltb_ge in H1.
    destruct (Sort.key q <? Sort.key p) eqn:H2.
    + apply Nat.ltb_lt in H2. right. left. auto.
    + apply Nat.ltb_ge in H2. right. right. split; [lia | reflexivity].
Qed.

Lemma decorated_cases (p q : Sort.indexed A) :
  (fn (Sort.val p) (Sort.val q) <> 0%Z /\
   decorated fn p q = fn (Sort.val p) (Sort.val q)) \/
  (fn (Sort.val p) (Sort.val q) = 0%Z /\
   decorated fn p q = Sort.ascending (@Sort.key A) p q).
Proof.
  unfold decorated, Sort.callback.
  destruct (fn (Sort.val p) (Sort.val q) =? 0)%Z eqn:H.
  - apply Z.eqb_eq in H. right. auto.
  - apply Z.eqb_neq in H. left. auto.
Qed.

Lemma decorated_le (p q : Sort.indexed A) :
  (decorated fn p q <= 0)%Z <->
  (fn (Sort.val p) (Sort.val q) < 0)%Z \/
  (fn (Sort.val p) (Sort.val q) = 0%Z /\ Sort.key p <= Sort.key q).
Proof.
  destruct (decorated_cases p q) as [[Hne ->]|[Heq ->]].
  - lia.
  - destruct (ascending_key_cases p q) as [[Hk ->]|[[Hk ->]|[Hk ->]]]; lia.
Qed.

Lemma decorated_lt (p q : Sort.indexed A) :
  (decorated fn p q < 0)%Z <->
  (fn (Sort.val p) (Sort.val q) < 0)%Z \/
  (fn (Sort.val p) (Sort.val q) = 0%Z /\ Sort.key p < Sort.key q).
Proof.
  destruct (decorated_cases p q) as [[Hne ->]|[Heq ->]].
  - lia.
  - destruct (ascending_key_cases p q) as [[Hk ->]|[[Hk ->]|[Hk ->]]]; lia.
Qed.

Lemma decorated_gt (p q : Sort.indexed A) :
  (decorated fn p q > 0)%Z <->
  (fn (Sort.val p) (Sort.val q) > 0)%Z \/
  (fn (Sort.val p) (Sort.val q) = 0%Z /\ Sort.key q < Sort.key p).
Proof.
  destruct (decorated_cases p q) as [[Hne ->]|[Heq ->]].
  - lia.
  - destruct (ascending_key_cases p q) as [[Hk ->]|[[Hk ->]|[Hk ->]]]; lia.
Qed.

Lemma decorated_consistent : consistent (decorated fn).
Proof.
  split; [|split].
  - intros a. destruct (decorated_cases a a) as [[Hne _]|[_ ->]].
    + exfalso. apply Hne. apply consistent_refl. exact Hfn.
    + destruct (ascending_key_cases a a) as [[Hk _]|[[Hk _]|[_ ->]]];
        [lia | lia | reflexivity].
  - intros a b. rewrite decorated_lt, decorated_gt.
    pose proof (consistent_lt_gt Hfn (Sort.val a) (Sort.val b)) as H1.
    pose proof (consistent_lt_gt Hfn (Sort.val b) (Sort.val a)) as H2.
    split.
    + intros [Hlt|[Heq Hk]].
      * left. apply H1. exact Hlt.
      * right. split; [apply (consistent_eq_sym Hfn); exact Heq | exact Hk].
    + intros [Hgt|[Heq Hk]].
      * left. apply H1. exact Hgt.
      * right. split; [apply (consistent_eq_sym Hfn); exact Heq | exact Hk].
  - intros a b d. rewrite !decorated_le.
    intros [Hab|[Hab Hk1]] [Hbd|[Hbd Hk2]].
    + left. apply (@consistent_lt_le_trans _ _ Hfn _ (Sort.val b)); lia.
    + left. apply (@consistent_lt_le_trans _ _ Hfn _ (Sort.val b)); lia.
    + left. apply (@consistent_le_lt_trans _ _ Hfn _ (Sort.val b)); lia.
    + right. split; [|lia].
      apply (@consistent_eq_trans _ _ Hfn _ (Sort.val b)); assumption.
Qed.

End DecoratedFacts.

Section SortedFacts.
Context {T : Type}.

Lemma StronglySorted_weaken (R R' : T -> T -> Prop) (l : list T) :
  (forall a b, In a l -> In b l -> R a b -> R' a b) ->
  StronglySorted R l -> StronglySorted R' l.
Proof.
  intros Himp Hs. induction Hs as [|a l Hs IH Hall].
  - constructor.
  - constructor.
    + apply IH. intros x y Hx Hy. apply Himp; right; assumption.
    + rewrite Forall_forall in *. intros x Hx.
      apply Himp; [left; reflexivity | right; exact Hx | apply Hall, Hx].
Qed.

Lemma StronglySorted_distinct {K} (key : T -> K) (R : T -> T -> Prop)
    (l : list T) :
  NoDup (map key l) -> StronglySorted R l ->
  StronglySorted (fun a b => R a b /\ key a <> key b) l.
Proof.
  intros Hnd Hs. induction Hs as [|a l Hs IH Hall].
  - constructor.
  - simpl in Hnd. inversion Hnd as [|? ? Hnotin Hnd']; subst.
    constructor; [apply IH; exact Hnd'|].
    rewrite Forall_forall in *. intros x Hx. split; [apply Hall, Hx|].
    intros Heq. apply Hnotin. rewrite Heq. apply in_map. exact Hx.
Qed.

(** Two orderings of the same elements under an asymmetric relation are
    one and the same. *)
Lemma sorted_permutation_unique (R : T -> T -> Prop) :
  (forall a b, R a b -> R b a -> False) ->
  forall l1 l2,
    StronglySorted R l1 -> StronglySorted R l2 -> Permutation l1 l2 ->
    l1 = l2.
Proof.
  intros Hasym l1. induction l1 as [|x l1 IH]; intros l2 Hs1 Hs2 Hperm.
  - apply Permutation_nil in Hperm. subst. reflexivity.
  - destruct l2 as [|y l2].
    + apply Permutation_sym, Permutation_nil in Hperm. discriminate.
    + inversion Hs1 as [|? ? Hs1' Hall1]; subst.
      inversion Hs2 as [|? ? Hs2' Hall2]; subst.
      assert (Hxy : x = y).
      { assert (Hx : In x (y :: l2))
          by (apply (Permutation_in _ Hperm); left; reflexivity).
        assert (Hy : In y (x :: l1))
          by (apply (Permutation_in _ (Permutation_sym Hperm));
              left; reflexivity).
        destruct Hx as [Hx|Hx]; [auto|].
        destruct Hy as [Hy|Hy]; [auto|].
        rewrite Forall_forall in Hall1, Hall2.
        exfalso. apply (Hasym x y); [apply Hall1, Hy | apply Hall2, Hx]. }
      subst y. f_equal. apply IH; auto.
      apply Permutation_cons_inv with (a := x). exact Hperm.
Qed.

End SortedFacts.

Section StableSortFacts.
Variable host_sort : forall T, comparator T -> list T -> list T.
Hypothesis Hhost : sorts host_sort.
Context {A : Type} `{Relational A}.

Lemma stableSort_unfold (arr : list A) (fn : comparator A) :
  Sort.stableSort host_sort arr (Some fn) =
  Ok (map (@Sort.val A)
        (host_sort (decorated fn) (Sort.pairs_from 0 arr))).
Proof. reflexivity. Qed.

Lemma pairs_from_keys (arr : list A) : forall i,
  map (@Sort.key A) (Sort.pairs_from i arr) = seq i (List.length arr).
Proof.
  induction arr as [|x rest IH]; intros i; simpl; [reflexivity|].
  rewrite IH. reflexivity.
Qed.

Lemma pairs_from_vals (arr : list A) : forall i,
  map (@Sort.val A) (Sort.pairs_from i arr) = arr.
Proof.
  induction arr as [|x rest IH]; intros i; simpl; [reflexivity|].
  rewrite IH. reflexivity.
Qed.

Lemma stableSort_stable (arr : list A) (fn : comparator A) :
  consistent fn ->
  stable_order fn arr
    (map (@Sort.val A) (host_sort (decorated fn) (Sort.pairs_from 0 arr))).
Proof.
  intros Hfn.
  destruct (Hhost (Sort.pairs_from 0 arr) (decorated_consistent Hfn))
    as [Hperm Hsorted].
  exists (host_sort (decorated fn) (Sort.pairs_from 0 arr)).
  split; [exact Hperm|]. split; [reflexivity|].
  assert (Hnd : NoDup (map (@Sort.key A)
                  (host_sort (decorated fn) (Sort.pairs_from 0 arr)))).
  { apply (Permutation_NoDup (Permutation_map _ Hperm)).
    rewrite pairs_from_keys. apply seq_NoDup. }
  apply (StronglySorted_distinct _ Hnd) in Hsorted.
  revert Hsorted. apply StronglySorted_weaken.
  intros p q _ _ [Hle Hne]. apply decorated_le in Hle.
  destruct Hle as [Hlt|[Heq Hk]]; [left; exact Hlt|].
  right. split; [exact Heq | lia].
Qed.

End StableSortFacts.

Lemma stable_order_unique {T} (c : comparator T) (l r1 r2 : list T) :
  consistent c -> stable_order c l r1 -> stable_order c l r2 -> r1 = r2.
Proof.
  intros Hc (ps1 & Hp1 & -> & Hs1) (ps2 & Hp2 & -> & Hs2).
  f_equal. revert Hs1 Hs2. 
  intros Hs1 Hs2.
  apply (sorted_permutation_unique
           (R := fun p q =>
              (c (Sort.val p) (Sort.val q) < 0)%Z \/
              (c (Sort.val p) (Sort.val q) = 0%Z /\ Sort.key p < Sort.key q)));
    auto.
  - intros a b Hab Hba.
    pose proof (consistent_lt_gt Hc (Sort.val a) (Sort.val b)).
    pose proof (consistent_lt_gt Hc (Sort.val b) (Sort.val a)).
    lia.
  - apply Permutation_trans with (Sort.pairs_from 0 l);
      [apply Permutation_sym|]; assumption.
Qed.

Section UnstableSortFacts.
Context {T : Type} (c : comparator T) (Hc : consistent c).

Lemma insert_past_equals_perm (x : T) (l : list T) :
  Permutation (x :: l) (insert_past_equals c x l).
Proof.
  induction l as [|y rest IH]; simpl; [reflexivity|].
  destruct (c x y <? 0)%Z; [reflexivity|].
  apply perm_trans with (y :: x :: rest); [apply perm_swap|].
  apply perm_skip. exact IH.
Qed.

Lemma insert_past_equals_sorted (x : T) (l : list T) :
  StronglySorted (fun a b => (c a b <= 0)%Z) l ->
  StronglySorted (fun a b => (c a b <= 0)%Z) (insert_past_equals c x l).
Proof.
  intros Hs. induction Hs as [|y rest Hs IH Hall]; simpl.
  - repeat constructor.
  - destruct (c x y <? 0)%Z eqn:Hxy.
    + apply Z.ltb_lt in Hxy. constructor.
      * constructor; assumption.
      * constructor; [lia|].
        rewrite Forall_forall in *. intros z Hz.
        apply (@consistent_le_trans _ _ Hc x y z); [lia | apply Hall, Hz].
    + apply Z.ltb_ge in Hxy. constructor; [exact IH|].
      rewrite Forall_forall in *. intros z Hz.
      apply (Permutation_in _ (Permutation_sym (insert_past_equals_perm x rest)))
        in Hz.
      destruct Hz as [<-|Hz].
      * apply (consistent_ge_le Hc). exact Hxy.
      * apply Hall, Hz.
Qed.

Lemma unstable_sort_sorted (l : list T) :
  Permutation l (unstable_sort c l) /\
  StronglySorted (fun a b => (c a b <= 0)%Z) (unstable_sort c l).
Proof.
  unfold unstable_sort. induction l as [|x rest [IHp IHs]]; simpl.
  - split; constructor.
  - split.
    + apply perm_trans with (x :: fold_right (insert_past_equals c) [] rest).
      * apply perm_skip. exact IHp.
      * apply insert_past_equals_perm.
    + apply insert_past_equals_sorted. exact IHs.
Qed.

End UnstableSortFacts.

Lemma unstable_sort_sorts : sorts unstable_sort.
Proof. intros T c l Hc. apply unstable_sort_sorted. exact Hc. Qed.

Lemma descending_consistent {T} (score : T -> Z) :
  consistent (Sort.descending score).
Proof.
  unfold consistent, Sort.descending, js_gt, js_lt, Relational_Z.
  split; [|split].
  - intros a. rewrite Z.ltb_irrefl. reflexivity.
  - intros a b.
    destruct (score a <? score b)%Z eqn:H1;
      destruct (score b <? score a)%Z eqn:H2;
      try apply Z.ltb_lt in H1; try apply Z.ltb_lt in H2;
      try apply Z.ltb_ge in H1; try apply Z.ltb_ge in H2; lia.
  - intros a b d.
    destruct (score a <? score b)%Z eqn:H1;
      destruct (score b <? score a)%Z eqn:H2;
      destruct (score b <? score d)%Z eqn:H3;
      destruct (score d <? score b)%Z eqn:H4;
      destruct (score a <? score d)%Z eqn:H5;
      destruct (score d <? score a)%Z eqn:H6;
      try apply Z.ltb_lt in H1; try apply Z.ltb_lt in H2;
      try apply Z.ltb_lt in H3; try apply Z.ltb_lt in H4;
      try apply Z.ltb_lt in H5; try apply Z.ltb_lt in H6;
      try apply Z.ltb_ge in H1; try apply Z.ltb_ge in H2;
      try apply Z.ltb_ge in H3; try apply Z.ltb_ge in H4;
      try apply Z.ltb_ge in H5; try apply Z.ltb_ge in H6; lia.
Qed.

Lemma by_popularity_consistent : consistent by_popularity.
Proof. exact (descending_consistent (@snd string Z)). Qed.
(* ================================================================== *)
(** * Properties of the Track *)
(* ================================================================== *)

Section TrackFacts.
Variable server : list string -> string -> outcome json.

Lemma fetchTrack_run (self : Track) (w : World) :
  Track_fetchTrack server self w =
  (match server (requests w) (track_url (Track_id self)) with
   | Ok result => Ok (set_response self result)
   | Err r => Err r
   end,
   requested w (track_url (Track_id self))).
Proof.
  unfold Track_fetchTrack, then_, spotify_request, resolve, requested,
    track_url.
  destruct (server (requests w) _); reflexivity.
Qed.

Lemma searchForTrack_world (self : Track) (query : string) (w : World) :
  snd (Track_searchForTrack server self query w) =
  requested w (track_search_url query).
Proof.
  unfold Track_searchForTrack, then_, spotify_request, settle, resolve,
    requested, track_search_url.
  destruct (server (requests w) _) as [result|r]; [|reflexivity].
  destruct (prop result "tracks") as [tracks|r]; [|reflexivity].
  destruct (truthy tracks); [|reflexivity].
  destruct (elem0 (get tracks "items")) as [first|r]; [|reflexivity].
  destruct (truthy first && truthy (get first "uri")); reflexivity.
Qed.

Lemma dispatch_full (self : Track) (w : World) :
  truthy (Track_response self) = true ->
  Track_dispatch server self w = (Ok (Some self), w).
Proof. intros H. unfold Track_dispatch. rewrite H. reflexivity. Qed.

Lemma dispatch_simplified (self : Track) (w : World) :
  truthy (Track_response self) = false ->
  truthy (Track_responseSimple self) = true ->
  Track_dispatch server self w =
  (match server (requests w) (track_url (Track_id self)) with
   | Ok result => Ok (Some (set_response self result))
   | Err r => Err r
   end,
   requested w (track_url (Track_id self))).
Proof.
  intros H1 H2. unfold Track_dispatch. rewrite H1, H2.
  unfold then_. rewrite fetchTrack_run.
  destruct (server (requests w) _); reflexivity.
Qed.

Lemma dispatch_uri (self : Track) (w : World) :
  truthy (Track_response self) = false ->
  truthy (Track_responseSimple self) = false ->
  Track_isURI (Track_entry self) = true ->
  Track_dispatch server self w =
  (match server (requests w) (track_url (Track_id self)) with
   | Ok result => Ok (Some (set_response self result))
   | Err r => Err r
   end,
   requested w (track_url (Track_id self))).
Proof.
  intros H1 H2 H3. unfold Track_dispatch. rewrite H1, H2, H3.
  unfold then_. rewrite fetchTrack_run.
  destruct (server (requests w) _); reflexivity.
Qed.

Lemma dispatch_text (self : Track) (w : World) :
  truthy (Track_response self) = false ->
  truthy (Track_responseSimple self) = false ->
  Track_isURI (Track_entry self) = false ->
  Track_dispatch server self w =
  Track_searchForTrack server self (Track_entry self) w.
Proof.
  intros H1 H2 H3. unfold Track_dispatch. rewrite H1, H2, H3. reflexivity.
Qed.

(** A search without match: the body has no [tracks], or its first item is
    missing or has no [uri].  The promise resolves with [undefined]. *)
Lemma searchForTrack_no_match (self : Track) (query : string) (w : World)
    (result first : json) :
  server (requests w) (track_search_url query) = Ok result ->
  nullish result = false ->
  truthy (get result "tracks") = false \/
  (truthy (get result "tracks") = true /\
   elem0 (get (get result "tracks") "items") = Ok first /\
   truthy first && truthy (get first "uri") = false) ->
  Track_searchForTrack server self query w =
  (Ok None, requested w (track_search_url query)).
Proof.
  intros Hserver Hresult Hmatch.
  unfold Track_searchForTrack, then_, spotify_request, settle, resolve.
  fold (track_search_url query). rewrite Hserver.
  unfold prop. rewrite Hresult.
  destruct Hmatch as [Hnone | (Htracks & Hfirst & Huri)].
  - rewrite Hnone. reflexivity.
  - rewrite Htracks, Hfirst, Huri. reflexivity.
Qed.

End TrackFacts.

(** C10. A Track constructed with a response record whose popularity is
    [0] or absent holds the record as its simplified response and has no
    full response: [popularity()] is [-1], and [dispatch()] does not
    resolve at once but requests the Track by its id. *)
Theorem zero_popularity_is_simplified :
  forall (server : list string -> string -> outcome json)
         (oid : nat) (entry : string) (fields : list (string * json))
         (w : World),
    get (JObj fields) "popularity" = JNum 0 \/
    get (JObj fields) "popularity" = JUndef ->
    let self := Track_new oid entry (JObj fields) in
    Track_responseSimple self = JObj fields /\
    Track_response self = JNull /\
    Track_popularity self = JNum (-1) /\
    Track_dispatch server self w =
      (match server (requests w) (track_url (Track_id self)) with
       | Ok result => Ok (Some (set_response self result))
       | Err r => Err r
       end,
       requested w (track_url (Track_id self))).
Proof.
  intros server oid entry fields w Hpop self.
  assert (Hnew : self =
            {| Track_oid := oid; Track_entry := trim entry;
               Track_responseSimple := JObj fields; Track_response := JNull |}).
  { unfold self, Track_new, Track_isFullResponse.
    destruct Hpop as [-> | ->]; reflexivity. }
  rewrite Hnew. repeat split.
  apply dispatch_simplified; reflexivity.
Qed.

(** The record of the Track [test2] with popularity [0]. *)
Lemma zero_popularity_is_simplified_witness :
  (get unpopular "popularity" = JNum 0 \/ get unpopular "popularity" = JUndef) /\
  Track_popularity (Track_new 1 "test2" unpopular) = JNum (-1) /\
  Track_dispatch unpopular_server (Track_new 1 "test2" unpopular) w0 =
    (Ok (Some (set_response (Track_new 1 "test2" unpopular) unpopular)),
     requested w0 "https://api.spotify.com/v1/tracks/25BfjHTtaDCrKrq9hkr10U").
Proof.
  split; [left; reflexivity|].
  destruct (@zero_popularity_is_simplified unpopular_server 1 "test2"
              [("id", JStr "25BfjHTtaDCrKrq9hkr10U");
               ("uri", JStr "spotify:track:25BfjHTtaDCrKrq9hkr10U");
               ("name", JStr "test2");
               ("popularity", JNum 0)] w0 (or_introl eq_refl))
    as (_ & _ & Hpop & Hrun).
  split; [exact Hpop | exact Hrun].
Defined.

(** C4, at a web link.  A Track entered as a Spotify URI is fetched by its
    id, without search, and holds the full record afterwards.  A Track
    entered as an open.spotify.com link is a recognized link ([isLink]),
    yet [dispatch()] sends the text of the link to the search, and here
    resolves with [undefined]. *)
Theorem link_dispatch_goes_to_search :
  Track_isURI (Track_entry by_uri) = true /\
  Track_dispatch one_track_server by_uri w0 =
    (Ok (Some (set_response by_uri full_record)),
     requested w0 "https://api.spotify.com/v1/tracks/5jwDjl5FofuDgwITfcROhq") /\
  Track_isLink (Track_entry by_link) = true /\
  Track_dispatch one_track_server by_link w0 =
    (Ok None,
     requested w0
       "https://api.spotify.com/v1/search?type=track&q=https%3A%2F%2Fopen.spotify.com%2Ftrack%2F5jwDjl5FofuDgwITfcROhq") /\
  (forall server w,
     snd (Track_dispatch server by_link w) =
     requested w (track_search_url (Track_entry by_link))).
Proof.
  split; [reflexivity|]. split; [reflexivity|].
  split; [reflexivity|]. split; [reflexivity|].
  intros server w. rewrite dispatch_text by reflexivity.
  apply searchForTrack_world.
Qed.

(* ================================================================== *)
(** * Properties of the rendering *)
(* ================================================================== *)

Section RenderFacts.

Lemma as_string_throws (j : json) (r : reason) :
  as_string j = Err r -> r = TypeError.
Proof. destruct j; simpl; intros H; try discriminate; congruence. Qed.

Lemma Track_artist_throws (t : Track) (r : reason) :
  Track_artist t = Err r -> r = TypeError.
Proof.
  unfold Track_artist. destruct (_ && _); [|discriminate].
  destruct (as_string _) as [name|r'] eqn:Hname; simpl; [discriminate|].
  intros H. injection H as <-. exact (as_string_throws _ Hname).
Qed.

Lemma Track_name_throws (t : Track) (r : reason) :
  Track_name t = Err r -> r = TypeError.
Proof.
  unfold Track_name. destruct (not_empty_string (Track_title t));
    [|discriminate].
  destruct (Track_artist t) as [artist|r'] eqn:Hartist; simpl.
  - destruct (not_empty_string artist); discriminate.
  - intros H. injection H as <-. exact (Track_artist_throws t Hartist).
Qed.

Lemma Track_toString_throws (t : Track) (r : reason) :
  Track_toString t = Err r -> r = TypeError.
Proof.
  unfold Track_toString.
  destruct (Track_name t) as [name|r'] eqn:Hname; simpl.
  - destruct (not_empty_string name); discriminate.
  - intros H. injection H as <-. exact (Track_name_throws t Hname).
Qed.

Lemma render_entry_throws (result : string) (track : value) (r : reason) :
  render_entry result track = Err r -> r = TypeError.
Proof.
  destruct track as [ | t | a | a | oid inner]; simpl;
    try (intros H; injection H as <-; reflexivity).
  destruct (Track_toString t) as [s|r'] eqn:Ht; simpl.
  - destruct (not_empty_string (Track_uri t)); discriminate.
  - intros H. injection H as <-. exact (Track_toString_throws t Ht).
Qed.

Let render (acc : outcome string) (track : value) : outcome string :=
  (r <- acc ;; render_entry r track)%outcome.

Lemma render_loop_throws (entries : list value) :
  fold_left render entries (Err TypeError) = Err TypeError.
Proof. induction entries as [|v rest IH]; simpl; auto. Qed.

Lemma render_loop_outcome (entries : list value) : forall result,
  (exists s, fold_left render entries (Ok result) = Ok s) \/
  fold_left render entries (Ok result) = Err TypeError.
Proof.
  induction entries as [|v rest IH]; intros result; simpl.
  - left. eexists. reflexivity.
  - destruct (render_entry result v) as [s|r] eqn:Hv.
    + apply IH.
    + apply render_entry_throws in Hv. subst r. right.
      apply render_loop_throws.
Qed.

(** A Queue that holds [undefined] in some slot does not render. *)
Lemma toString_undefined_throws (unique : bool) (before after : list value) :
  Playlist_toString
    {| Playlist_unique := unique;
       Playlist_entries := before ++ VUndefined :: after |}
  = Err TypeError.
Proof.
  unfold Playlist_toString. simpl. fold render.
  rewrite fold_left_app. simpl.
  destruct (render_loop_outcome before "") as [[s ->] | ->]; simpl;
    rewrite render_loop_throws; reflexivity.
Qed.

End RenderFacts.

(** C6, at a Track that the search does not find.  [dispatch()] resolves,
    with [undefined] and not with the Track; the Track's [uri()] is the
    empty string, and the rendering would skip the Track itself.  But the
    slot of the Queue now holds [undefined]: the rendering throws on it,
    wherever in the Queue it is, and so does [dedup] as soon as the Queue
    has another slot, so that the playlist's [dispatch()] rejects. *)
Theorem no_match_rejects_playlist :
  Track_dispatch one_track_server by_text w0 =
    (Ok None,
     requested w0 "https://api.spotify.com/v1/search?type=track&q=foo") /\
  Track_uri by_text = JStr "" /\
  Playlist_toString
    {| Playlist_unique := true; Playlist_entries := [VTrack by_text] |}
    = Ok "" /\
  fst (Playlist_fetchTracks one_track_server
         {| Playlist_unique := true; Playlist_entries := [VTrack by_text] |} w0)
    = Ok {| Playlist_unique := true; Playlist_entries := [VUndefined] |} /\
  Playlist_toString
    {| Playlist_unique := true; Playlist_entries := [VUndefined] |}
    = Err TypeError /\
  fst (Playlist_dispatch one_track_server
         {| Playlist_unique := true; Playlist_entries := [VTrack by_text] |} w0)
    = Err TypeError /\
  fst (Playlist_dispatch one_track_server
         {| Playlist_unique := true;
            Playlist_entries := [VTrack by_uri; VTrack by_text] |} w0)
    = Err TypeError /\
  Queue_dedup [VTrack (set_response by_uri full_record); VUndefined]
    = Err TypeError /\
  (forall unique before after,
     Playlist_toString
       {| Playlist_unique := unique;
          Playlist_entries := before ++ VUndefined :: after |}
     = Err TypeError).
Proof.
  repeat (split; [reflexivity|]). apply toString_undefined_throws.
Qed.

(* ================================================================== *)
(** * Properties of Album and Artist *)
(* ================================================================== *)

Section RequestFacts.
Variable server : list string -> string -> outcome json.

Lemma extends_refl (w : World) : extends w w.
Proof. exists []. rewrite app_nil_r. reflexivity. Qed.

Lemma extends_trans (w1 w2 w3 : World) :
  extends w1 w2 -> extends w2 w3 -> extends w1 w3.
Proof.
  intros [m1 H1] [m2 H2]. exists (m1 ++ m2).
  rewrite H2, H1, app_assoc. reflexivity.
Qed.

Lemma grows_then {A B} (p : promise World A) (f : A -> promise World B) :
  grows p -> (forall a, grows (f a)) -> grows (then_ p f).
Proof.
  intros Hp Hf w. unfold then_. specialize (Hp w).
  destruct (p w) as [[a|r] w']; simpl in *; [|exact Hp].
  apply (extends_trans Hp). apply Hf.
Qed.

Lemma grows_settle {A} (o : outcome A) : grows (settle o).
Proof. intros w. apply extends_refl. Qed.

Lemma grows_resolve {A} (a : A) : grows (resolve a).
Proof. intros w. apply extends_refl. Qed.

Lemma grows_reject {A} (r : reason) : grows (@reject World A r).
Proof. intros w. apply extends_refl. Qed.

Lemma grows_fresh : grows fresh.
Proof. intros w. exists []. simpl. rewrite app_nil_r. reflexivity. Qed.

Lemma grows_request (url : string) : grows (spotify_request server url).
Proof. intros w. exists [url]. reflexivity. Qed.

Lemma grows_resolveAll {E R} (fn : E -> promise World R) (q : list E) :
  (forall e, grows (fn e)) -> grows (Queue_resolveAll fn q).
Proof.
  intros Hfn w. rewrite resolveAll_sequential. revert w.
  induction q as [|e rest IH]; intros w; simpl.
  - apply extends_refl.
  - specialize (Hfn e w).
    destruct (fn e w) as [[v|r] w1]; simpl in *; [|exact Hfn].
    specialize (IH w1).
    destruct (one_at_a_time fn rest w1) as [[vs|r] w2]; simpl in *;
      apply (extends_trans Hfn IH).
Qed.

(** Creating objects requests nothing. *)
Lemma createTracks_requests (self : Album) (tracks : list json) :
  forall queue w,
    requests (snd (Album_createTracks self tracks queue w)) = requests w.
Proof.
  induction tracks as [|t rest IH]; intros queue w; simpl; [reflexivity|].
  unfold then_, fresh. simpl. rewrite IH. reflexivity.
Qed.

Lemma createQueue_requests (self : Album) (response : json) (w : World) :
  requests (snd (Album_createQueue self response w)) = requests w.
Proof.
  unfold Album_createQueue, then_, settle, fresh, resolve.
  destruct (obind _ _) as [tracks|r]; [|reflexivity]. simpl.
  pose proof (createTracks_requests self (for_in_values tracks) []
                {| requests := requests w; next_oid := S (next_oid w) |})
    as H.
  destruct (Album_createTracks _ _ _ _) as [[queue|r] w']; exact H.
Qed.

Lemma grows_createQueue (self : Album) (response : json) :
  grows (Album_createQueue self response).
Proof.
  intros w. exists []. rewrite createQueue_requests, app_nil_r. reflexivity.
Qed.

Lemma fetchAlbum_run (self : Album) (w : World) :
  Album_fetchAlbum server self w =
  (match server (requests w) (album_url (Album_id self)) with
   | Ok response =>
       if Album_isAlbumResponse response then Ok response
       else Err (Failure response)
   | Err r => Err r
   end,
   requested w (album_url (Album_id self))).
Proof.
  unfold Album_fetchAlbum, then_, spotify_request, resolve, reject,
    requested, album_url.
  destruct (server (requests w) _) as [response|r]; [|reflexivity].
  destruct (Album_isAlbumResponse response); reflexivity.
Qed.

Lemma fetch_then_queue_requests (self : Album) (w : World) :
  requests
    (snd (then_ (Album_fetchAlbum server self) (fun response =>
          then_ (Album_createQueue self response) (fun queue =>
          resolve (self, queue))) w))
  = requests w ++ [album_url (Album_id self)].
Proof.
  unfold then_ at 1. rewrite fetchAlbum_run.
  destruct (match server (requests w) _ with Ok _ => _ | Err _ => _ end)
    as [response|r]; [|reflexivity].
  unfold then_, resolve.
  pose proof (createQueue_requests self response
                (requested w (album_url (Album_id self)))) as H.
  destruct (Album_createQueue self response _) as [[queue|r] w']; exact H.
Qed.

Lemma grows_Album_dispatch (self : Album) :
  grows (Album_dispatch server self).
Proof.
  assert (Hfq : forall a, grows
            (then_ (Album_fetchAlbum server a) (fun response =>
             then_ (Album_createQueue a response) (fun queue =>
             resolve (a, queue))))).
  { intros a w. eexists. apply fetch_then_queue_requests. }
  unfold Album_dispatch.
  destruct (truthy (Album_searchResponse self)); [apply Hfq|].
  destruct (truthy (Album_albumResponse self)); [apply Hfq|].
  apply grows_then; [|intros found; apply Hfq].
  unfold Album_searchForAlbum.
  apply grows_then; [apply grows_request|]. intros response.
  apply grows_then; [apply grows_settle|]. intros [|];
    [apply grows_resolve | apply grows_reject].
Qed.

Lemma searchForArtist_world (self : Artist) (query : string) (w : World) :
  snd (Artist_searchForArtist server self query w) =
  requested w (artist_search_url query).
Proof.
  unfold Artist_searchForArtist, then_, spotify_request, settle, resolve,
    reject, requested, artist_search_url.
  destruct (server (requests w) _) as [response|r]; [|reflexivity].
  destruct (Artist_isSearchResponse response) as [[|]|r]; reflexivity.
Qed.

Lemma grows_createAlbums (self : Artist) (albums : list json) :
  forall queue, grows (Artist_createAlbums self albums queue).
Proof.
  induction albums as [|a rest IH]; intros queue; simpl.
  - apply grows_resolve.
  - apply grows_then; [apply grows_fresh|]. intros oid.
    apply grows_then; [apply grows_settle|]. intros entry. apply IH.
Qed.

Lemma grows_Artist_rest (self : Artist) :
  grows (then_ (Artist_fetchAlbums server self) (fun response =>
         then_ (Artist_createQueue server self response) (fun queue =>
         resolve (self, queue)))).
Proof.
  apply grows_then.
  - unfold Artist_fetchAlbums.
    apply grows_then; [apply grows_settle|]. intros id.
    apply grows_then; [apply grows_request|]. intros response.
    apply grows_then; [apply grows_settle|]. intros items.
    destruct (truthy items); [apply grows_resolve | apply grows_reject].
  - intros response. apply grows_then; [|intros; apply grows_resolve].
    unfold Artist_createQueue.
    apply grows_then; [apply grows_settle|]. intros albums.
    apply grows_then; [apply grows_fresh|]. intros _.
    apply grows_then; [apply grows_createAlbums|]. intros queue.
    apply grows_then; [apply grows_fresh|]. intros rid.
    apply grows_then; [|intros result; apply grows_resolve].
    unfold Queue_dispatch. apply grows_resolveAll. intros e.
    apply grows_then; [apply grows_Album_dispatch|].
    intros r. apply grows_resolve.
Qed.

Lemma Artist_dispatch_searches (self : Artist) (w : World) :
  exists more,
    requests (snd (Artist_dispatch server self w)) =
    requests w ++ artist_search_url (Artist_entry self) :: more.
Proof.
  unfold Artist_dispatch. unfold then_ at 1.
  pose proof (searchForArtist_world self (Artist_entry self) w) as Hw.
  destruct (Artist_searchForArtist server self (Artist_entry self) w)
    as [[found|r] w1]; simpl in Hw; subst w1.
  - destruct (grows_Artist_rest (fst found)
                (requested w (artist_search_url (Artist_entry self))))
      as [more Hmore].
    exists more. rewrite Hmore. simpl. rewrite <- app_assoc. reflexivity.
  - exists []. reflexivity.
Qed.

End RequestFacts.

(** C5, as the code has it.  Re-dispatching a Track that holds its full
    record resolves at once with the same Track and requests nothing.  An
    Album that holds its search response is dispatched without a new
    search: exactly one request is made, the fetch of the album by its id,
    and it is made on every dispatch.  An Artist is searched for on every
    dispatch, whatever it holds. *)
Theorem redispatch_requests :
  forall (server : list string -> string -> outcome json) (w : World)
         (track : Track) (album : Album) (artist : Artist),
    truthy (Track_response track) = true ->
    truthy (Album_searchResponse album) = true ->
    Track_dispatch server track w = (Ok (Some track), w) /\
    requests (snd (Album_dispatch server album w)) =
      requests w ++ [album_url (Album_id album)] /\
    exists more,
      requests (snd (Artist_dispatch server artist w)) =
      requests w ++ artist_search_url (Artist_entry artist) :: more.
Proof.
  intros server w track album artist Htrack Halbum. split; [|split].
  - apply dispatch_full. exact Htrack.
  - unfold Album_dispatch. rewrite Halbum.
    apply fetch_then_queue_requests.
  - apply Artist_dispatch_searches.
Qed.

(** The Track fetched by its URI, dispatched again; the Album found by the
    search, dispatched again; an Artist. *)
Lemma redispatch_requests_witness :
  truthy (Track_response (set_response by_uri full_record)) = true /\
  truthy (Album_searchResponse (set_searchResponse some_album album_found))
    = true /\
  Track_dispatch one_album_server (set_response by_uri full_record) w0
    = (Ok (Some (set_response by_uri full_record)), w0) /\
  requests (snd (Album_dispatch one_album_server
                   (set_searchResponse some_album album_found) w0))
    = ["https://api.spotify.com/v1/albums/A1"] /\
  exists more,
    requests (snd (Artist_dispatch one_album_server (Artist_new 5 "test") w0))
    = "https://api.spotify.com/v1/search?type=artist&q=test" :: more.
Proof.
  split; [reflexivity|]. split; [reflexivity|].
  exact (@redispatch_requests one_album_server w0
           (set_response by_uri full_record)
           (set_searchResponse some_album album_found)
           (Artist_new 5 "test") eq_refl eq_refl).
Defined.

(** An Album dispatched, then dispatched again as the first dispatch left
    it: the search is not repeated, the fetch of the album is. *)
Lemma album_redispatch_fetches_again :
  Album_new 4 "test" JUndef = Ok some_album /\
  requests (snd (Album_dispatch one_album_server some_album w0)) =
    ["https://api.spotify.com/v1/search?type=album&q=test";
     "https://api.spotify.com/v1/albums/A1"] /\
  match fst (Album_dispatch one_album_server some_album w0) with
  | Ok (album', _) =>
      album' = set_searchResponse some_album album_found /\
      requests
        (snd (Album_dispatch one_album_server album'
                (snd (Album_dispatch one_album_server some_album w0)))) =
        ["https://api.spotify.com/v1/search?type=album&q=test";
         "https://api.spotify.com/v1/albums/A1";
         "https://api.spotify.com/v1/albums/A1"]
  | Err _ => False
  end.
Proof. vm_compute. repeat split. Qed.

(* ================================================================== *)
(** * More on the comparator framework *)
(* ================================================================== *)

(** X1. On integer scores [ascending] and [descending] return [-1], [0]
    or [1]; [descending] is [ascending] with the sign changed, which is
    [ascending] with the arguments exchanged; [0] means equal scores and
    [-1] from [ascending] means a smaller first score. *)
Theorem ascending_descending_three_way :
  forall (T : Type) (score : T -> Z) (a b : T),
    In (Sort.ascending score a b) [(-1)%Z; 0%Z; 1%Z] /\
    Sort.descending score a b = (- Sort.ascending score a b)%Z /\
    Sort.descending score a b = Sort.ascending score b a /\
    (Sort.ascending score a b = 0%Z <-> score a = score b) /\
    (Sort.ascending score a b = (-1)%Z <-> (score a < score b)%Z) /\
    (Sort.descending score a b = (-1)%Z <-> (score b < score a)%Z).
Proof.
  intros T score a b.
  unfold Sort.ascending, Sort.descending, js_gt, js_lt, Relational_Z.
  destruct (score a <? score b)%Z eqn:H1;
    destruct (score b <? score a)%Z eqn:H2;
    try apply Z.ltb_lt in H1; try apply Z.ltb_lt in H2;
    try apply Z.ltb_ge in H1; try apply Z.ltb_ge in H2;
    simpl; repeat split; intros; try lia; auto.
Qed.

Lemma ascending_descending_cases (a b : Z) :
  (Sort.ascending (@Sort.identity Z) a b <= 0)%Z -> (a <= b)%Z.
Proof.
  unfold Sort.ascending, Sort.identity, js_gt, js_lt, Relational_Z.
  destruct (a <? b)%Z eqn:H1; destruct (b <? a)%Z eqn:H2;
    try apply Z.ltb_lt in H1; try apply Z.ltb_lt in H2;
    try apply Z.ltb_ge in H1; try apply Z.ltb_ge in H2; lia.
Qed.

Lemma ascending_consistent {T} (score : T -> Z) :
  consistent (Sort.ascending score).
Proof.
  unfold consistent, Sort.ascending, js_gt, js_lt, Relational_Z.
  split; [|split].
  - intros a. rewrite Z.ltb_irrefl. reflexivity.
  - intros a b.
    destruct (score a <? score b)%Z eqn:H1;
      destruct (score b <? score a)%Z eqn:H2;
      try apply Z.ltb_lt in H1; try apply Z.ltb_lt in H2;
      try apply Z.ltb_ge in H1; try apply Z.ltb_ge in H2; lia.
  - intros a b d.
    destruct (score a <? score b)%Z eqn:H1;
      destruct (score b <? score a)%Z eqn:H2;
      destruct (score b <? score d)%Z eqn:H3;
      destruct (score d <? score b)%Z eqn:H4;
      destruct (score a <? score d)%Z eqn:H5;
      destruct (score d <? score a)%Z eqn:H6;
      try apply Z.ltb_lt in H1; try apply Z.ltb_lt in H2;
      try apply Z.ltb_lt in H3; try apply Z.ltb_lt in H4;
      try apply Z.ltb_lt in H5; try apply Z.ltb_lt in H6;
      try apply Z.ltb_ge in H1; try apply Z.ltb_ge in H2;
      try apply Z.ltb_ge in H3; try apply Z.ltb_ge in H4;
      try apply Z.ltb_ge in H5; try apply Z.ltb_ge in H6; lia.
Qed.

Section CallbackFacts.
Context {A : Type} (f g : comparator A).

Lemma callback_cases (a b : A) :
  (f a b <> 0%Z /\ Sort.callback f g a b = f a b) \/
  (f a b = 0%Z /\ Sort.callback f g a b = g a b).
Proof.
  unfold Sort.callback. destruct (f a b =? 0)%Z eqn:H.
  - apply Z.eqb_eq in H. right. auto.
  - apply Z.eqb_neq in H. left. auto.
Qed.

Lemma callback_consistent :
  consistent f -> consistent g -> consistent (Sort.callback f g).
Proof.
  intros Hf Hg. split; [|split].
  - intros a. destruct (callback_cases a a) as [[Hne _]|[_ ->]].
    + exfalso. apply Hne. apply (consistent_refl Hf).
    + apply (consistent_refl Hg).
  - intros a b.
    pose proof (consistent_lt_gt Hf a b) as F1.
    pose proof (consistent_lt_gt Hf b a) as F2.
    pose proof (consistent_lt_gt Hg a b) as G1.
    destruct (callback_cases a b) as [[Hab ->]|[Hab ->]];
      destruct (callback_cases b a) as [[Hba ->]|[Hba ->]]; lia.
  - intros a b d Hab Hbd.
    pose proof (consistent_lt_gt Hf a b) as F1.
    pose proof (consistent_lt_gt Hf b a) as F2.
    pose proof (consistent_lt_gt Hf b d) as F3.
    pose proof (consistent_lt_gt Hf d b) as F4.
    destruct (callback_cases a b) as [[Nab Eab]|[Zab Eab]];
      destruct (callback_cases b d) as [[Nbd Ebd]|[Zbd Ebd]];
      rewrite Eab in Hab; rewrite Ebd in Hbd.
    + assert (f a d < 0)%Z
        by (apply (@consistent_lt_le_trans _ _ Hf a b d); lia).
      destruct (callback_cases a d) as [[_ ->]|[Z' _]]; lia.
    + assert (f a d < 0)%Z
        by (apply (@consistent_lt_le_trans _ _ Hf a b d); lia).
      destruct (callback_cases a d) as [[_ ->]|[Z' _]]; lia.
    + assert (f a d < 0)%Z
        by (apply (@consistent_le_lt_trans _ _ Hf a b d); lia).
      destruct (callback_cases a d) as [[_ ->]|[Z' _]]; lia.
    + assert (f a d = 0)%Z
        by (apply (@consistent_eq_trans _ _ Hf a b d); assumption).
      destruct (callback_cases a d) as [[N' _]|[_ ->]]; [lia|].
      apply (@consistent_le_trans _ _ Hg a b d); assumption.
Qed.

End CallbackFacts.

Lemma fold_callback_consistent {A} (cs : list (comparator A)) :
  forall c, consistent c -> Forall consistent cs ->
            consistent (fold_left Sort.callback cs c).
Proof.
  induction cs as [|g rest IH]; intros c Hc Hcs; simpl; [exact Hc|].
  inversion Hcs as [|? ? Hg Hrest]; subst.
  apply IH; [apply callback_consistent; assumption | exact Hrest].
Qed.

(** X2. A chain of consistent comparison functions is a consistent
    comparison function: what [combine] returns can be handed to a sort
    whenever its arguments can. *)
Theorem combine_consistent :
  forall (A : Type) (cmp1 : comparator A) (rest : list (comparator A)),
    consistent cmp1 -> Forall consistent rest ->
    exists f, Sort.combine (cmp1 :: rest) = Ok f /\ consistent f.
Proof.
  intros A cmp1 rest H1 Hrest. eexists. split; [reflexivity|].
  apply fold_callback_consistent; assumption.
Qed.

(** Type, then popularity: two descending comparisons chained. *)
Lemma combine_consistent_witness :
  consistent by_popularity /\
  Forall consistent [Sort.ascending (@snd string Z)] /\
  exists f, Sort.combine [by_popularity; Sort.ascending (@snd string Z)] = Ok f
            /\ consistent f.
Proof.
  split; [exact by_popularity_consistent|].
  assert (H : Forall consistent [Sort.ascending (@snd string Z)])
    by (constructor; [apply ascending_consistent | constructor]).
  split; [exact H|].
  exact (@combine_consistent sample by_popularity _ by_popularity_consistent H).
Defined.

Lemma first_nonzero_app (xs ys : list Z) :
  first_nonzero (xs ++ ys) =
  if (first_nonzero xs =? 0)%Z then first_nonzero ys else first_nonzero xs.
Proof.
  induction xs as [|x rest IH]; simpl; [reflexivity|].
  destruct (x =? 0)%Z eqn:Hx; [exact IH|]. rewrite Hx. reflexivity.
Qed.

(** X3. Chains nest: a chain of two chains compares as the one chain of
    all their comparison functions, in order; and [combine] of a single
    comparison function is that function. *)
Theorem combine_flattens :
  forall (A : Type) (x y : comparator A) (xs ys : list (comparator A)),
    Sort.combine [x] = Ok x /\
    exists f g h k,
      Sort.combine (x :: xs) = Ok f /\
      Sort.combine (y :: ys) = Ok g /\
      Sort.combine [f; g] = Ok h /\
      Sort.combine ((x :: xs) ++ (y :: ys)) = Ok k /\
      forall a b, h a b = k a b.
Proof.
  intros A x y xs ys. split; [reflexivity|].
  exists (fold_left Sort.callback xs x), (fold_left Sort.callback ys y).
  eexists. eexists.
  split; [reflexivity|]. split; [reflexivity|].
  split; [reflexivity|]. split; [reflexivity|].
  intros a b.
  change (Sort.callback (fold_left Sort.callback xs x)
            (fold_left Sort.callback ys y) a b =
          fold_left Sort.callback (xs ++ y :: ys) x a b).
  unfold Sort.callback at 1.
  rewrite (fold_callback_first_nonzero (xs ++ y :: ys) x a b).
  change (x :: xs ++ y :: ys) with ((x :: xs) ++ (y :: ys)).
  rewrite map_app, first_nonzero_app.
  rewrite <- !fold_callback_first_nonzero. reflexivity.
Qed.

Section StableInsertion.
Context {T : Type} (c : comparator T) (Hc : consistent c).

Lemma insert_before_equals_perm (x : T) (l : list T) :
  Permutation (x :: l) (insert_before_equals c x l).
Proof.
  induction l as [|y rest IH]; simpl; [reflexivity|].
  destruct (c x y <=? 0)%Z; [reflexivity|].
  apply perm_trans with (y :: x :: rest); [apply perm_swap|].
  apply perm_skip. exact IH.
Qed.

Lemma insert_before_equals_sorted (x : T) (l : list T) :
  StronglySorted (fun a b => (c a b <= 0)%Z) l ->
  StronglySorted (fun a b => (c a b <= 0)%Z) (insert_before_equals c x l).
Proof.
  intros Hs. induction Hs as [|y rest Hs IH Hall]; simpl.
  - repeat constructor.
  - destruct (c x y <=? 0)%Z eqn:Hxy.
    + apply Z.leb_le in Hxy. constructor.
      * constructor; assumption.
      * constructor; [exact Hxy|].
        rewrite Forall_forall in *. intros z Hz.
        apply (@consistent_le_trans _ _ Hc x y z); [exact Hxy | apply Hall, Hz].
    + apply Z.leb_gt in Hxy. constructor; [exact IH|].
      rewrite Forall_forall in *. intros z Hz.
      apply (Permutation_in _
               (Permutation_sym (insert_before_equals_perm x rest))) in Hz.
      destruct Hz as [<-|Hz].
      * apply (consistent_ge_le Hc). lia.
      * apply Hall, Hz.
Qed.

End StableInsertion.

Lemma insertion_sort_sorts : sorts insertion_sort.
Proof.
  intros T c l Hc. unfold insertion_sort.
  induction l as [|x rest [IHp IHs]]; simpl.
  - split; constructor.
  - split.
    + apply perm_trans with (x :: fold_right (insert_before_equals c) [] rest).
      * apply perm_skip. exact IHp.
      * apply insert_before_equals_perm.
    + apply insert_before_equals_sorted; assumption.
Qed.

(** X4. [stableSort] does not depend on the host: with a consistent
    comparison function it returns the same array on any two sort
    primitives that the language allows, stable or not. *)
Theorem stableSort_on_any_host :
  forall (host1 host2 : forall T, comparator T -> list T -> list T)
         (A : Type) (rel : Relational A)
         (arr : list A) (fn : comparator A),
    sorts host1 -> sorts host2 -> consistent fn ->
    Sort.stableSort host1 arr (Some fn) = Sort.stableSort host2 arr (Some fn).
Proof.
  intros host1 host2 A rel arr fn H1 H2 Hfn.
  rewrite !stableSort_unfold. f_equal.
  apply (stable_order_unique Hfn (l := arr)).
  - apply stableSort_stable; assumption.
  - apply stableSort_stable; assumption.
Qed.

(** Three Tracks, two of them of equal popularity, on a primitive that is
    stable and on one that is not. *)
Lemma stableSort_on_any_host_witness :
  sorts unstable_sort /\ sorts insertion_sort /\ consistent by_popularity /\
  Sort.stableSort unstable_sort
    [("a", 10%Z); ("b", 90%Z); ("c", 10%Z)] (Some by_popularity) =
  Sort.stableSort insertion_sort
    [("a", 10%Z); ("b", 90%Z); ("c", 10%Z)] (Some by_popularity).
Proof.
  split; [exact unstable_sort_sorts|].
  split; [exact insertion_sort_sorts|].
  split; [exact by_popularity_consistent|].
  exact (@stableSort_on_any_host unstable_sort insertion_sort sample _
           [("a", 10%Z); ("b", 90%Z); ("c", 10%Z)] by_popularity
           unstable_sort_sorts insertion_sort_sorts by_popularity_consistent).
Defined.

Section StableOrderFacts.
Context {T : Type} (c : comparator T).

Lemma pairs_from_In (l : list T) : forall i p,
  In p (Sort.pairs_from i l) -> i <= Sort.key p /\ In (Sort.val p) l.
Proof.
  induction l as [|x rest IH]; intros i p Hp; simpl in Hp; [contradiction|].
  destruct Hp as [<-|Hp]; simpl.
  - split; [lia | left; reflexivity].
  - destruct (IH _ _ Hp) as [Hk Hv]. split; [lia | right; exact Hv].
Qed.

Lemma stable_order_of_sorted (l : list T) :
  StronglySorted (fun a b => (c a b <= 0)%Z) l -> stable_order c l l.
Proof.
  intros Hs. exists (Sort.pairs_from 0 l).
  split; [reflexivity|]. split.
  - clear Hs. generalize 0. induction l as [|x rest IH]; intros i; simpl;
      [reflexivity|]. rewrite <- IH. reflexivity.
  - generalize 0. induction Hs as [|x rest Hs IH Hall]; intros i; simpl.
    + constructor.
    + constructor; [apply IH|].
      rewrite Forall_forall in *. intros p Hp.
      destruct (pairs_from_In _ _ _ Hp) as [Hk Hv]. simpl.
      specialize (Hall _ Hv).
      destruct (Z.eq_dec (c x (Sort.val p)) 0) as [Heq|Hne];
        [right; split; [exact Heq | lia] | left; lia].
Qed.

Lemma stable_order_sorted_permutation (l r : list T) :
  stable_order c l r ->
  Permutation l r /\ StronglySorted (fun a b => (c a b <= 0)%Z) r.
Proof.
  intros (ps & Hperm & -> & Hs). split.
  - apply (Permutation_map (@Sort.val T)) in Hperm.
    assert (Hvals : forall i, map (@Sort.val T) (Sort.pairs_from i l) = l).
    { clear. induction l as [|x rest IH]; intros i; simpl; [reflexivity|].
      rewrite IH. reflexivity. }
    rewrite Hvals in Hperm. exact Hperm.
  - clear Hperm. induction Hs as [|p rest Hs IH Hall]; simpl.
    + constructor.
    + constructor; [exact IH|].
      rewrite Forall_forall in *. intros v Hv.
      apply in_map_iff in Hv. destruct Hv as (q & <- & Hq).
      specialize (Hall _ Hq). lia.
Qed.

End StableOrderFacts.

(** X5. With a consistent comparison function [stableSort] returns the
    elements of the array ordered under it, returns an array that is
    ordered already as it is, and so changes nothing when applied a
    second time. *)
Theorem stableSort_sorts_once :
  forall (host_sort : forall T, comparator T -> list T -> list T)
         (A : Type) (rel : Relational A)
         (arr : list A) (fn : comparator A),
    sorts host_sort -> consistent fn ->
    (StronglySorted (fun a b => (fn a b <= 0)%Z) arr ->
     Sort.stableSort host_sort arr (Some fn) = Ok arr) /\
    exists r,
      Sort.stableSort host_sort arr (Some fn) = Ok r /\
      Permutation arr r /\
      StronglySorted (fun a b => (fn a b <= 0)%Z) r /\
      Sort.stableSort host_sort r (Some fn) = Ok r.
Proof.
  intros host_sort A rel arr fn Hhost Hfn.
  assert (Hfix : forall l, StronglySorted (fun a b => (fn a b <= 0)%Z) l ->
                           Sort.stableSort host_sort l (Some fn) = Ok l).
  { intros l Hl. rewrite stableSort_unfold. f_equal.
    apply (stable_order_unique Hfn (l := l)).
    - apply stableSort_stable; assumption.
    - apply stable_order_of_sorted. exact Hl. }
  split; [apply Hfix|].
  eexists. split; [apply stableSort_unfold|].
  destruct (stable_order_sorted_permutation
              (stableSort_stable Hhost arr Hfn)) as [Hperm Hsorted].
  split; [exact Hperm|]. split; [exact Hsorted|].
  apply Hfix. exact Hsorted.
Qed.

(** Tracks in descending order of popularity stay as they are. *)
Lemma stableSort_sorts_once_witness :
  sorts unstable_sort /\ consistent by_popularity /\
  StronglySorted (fun a b => (by_popularity a b <= 0)%Z)
    [("b", 90%Z); ("a", 10%Z); ("c", 10%Z)] /\
  Sort.stableSort unstable_sort
    [("b", 90%Z); ("a", 10%Z); ("c", 10%Z)] (Some by_popularity)
  = Ok [("b", 90%Z); ("a", 10%Z); ("c", 10%Z)].
Proof.
  assert (Hs : StronglySorted (fun a b => (by_popularity a b <= 0)%Z)
                 [("b", 90%Z); ("a", 10%Z); ("c", 10%Z)]).
  { repeat constructor; vm_compute; discriminate. }
  split; [exact unstable_sort_sorts|].
  split; [exact by_popularity_consistent|].
  split; [exact Hs|].
  exact (proj1 (@stableSort_sorts_once unstable_sort sample _
                  [("b", 90%Z); ("a", 10%Z); ("c", 10%Z)] by_popularity
                  unstable_sort_sorts by_popularity_consistent) Hs).
Defined.

(** X6. Without comparison function [stableSort] compares the elements
    themselves with [<]: an array of integers comes back in ascending
    numeric order. *)
Theorem stableSort_default_ascending :
  forall (host_sort : forall T, comparator T -> list T -> list T)
         (arr : list Z),
    sorts host_sort ->
    exists r,
      Sort.stableSort host_sort arr None = Ok r /\
      Permutation arr r /\
      StronglySorted Z.le r.
Proof.
  intros host_sort arr Hhost.
  pose proof (@ascending_consistent Z Sort.identity) as Hc.
  destruct (stable_order_sorted_permutation
              (stableSort_stable Hhost arr Hc)) as [Hperm Hsorted].
  eexists. split; [|split; [exact Hperm|]].
  - change (Sort.stableSort host_sort arr None)
      with (Sort.stableSort host_sort arr
              (Some (Sort.ascending (@Sort.identity Z)))).
    apply stableSort_unfold.
  - revert Hsorted. apply StronglySorted_weaken.
    intros a b _ _ H. apply ascending_descending_cases. exact H.
Qed.

Lemma stableSort_default_ascending_witness :
  sorts unstable_sort /\
  exists r,
    Sort.stableSort unstable_sort [10%Z; 9%Z; 100%Z] None = Ok r /\
    Permutation [10%Z; 9%Z; 100%Z] r /\ StronglySorted Z.le r.
Proof.
  split; [exact unstable_sort_sorts|].
  exact (@stableSort_default_ascending unstable_sort [10%Z; 9%Z; 100%Z]
           unstable_sort_sorts).
Defined.

(* ================================================================== *)
(** * More on the Queue *)
(* ================================================================== *)

Lemma Queue_map_is_map {E R} (fn : E -> R) (q : list E) :
  Queue_map fn q = map fn q.
Proof.
  unfold Queue_map, Queue_add.
  assert (H : forall acc, fold_left (fun result entry => result ++ [fn entry])
                            q acc = acc ++ map fn q).
  { induction q as [|e rest IH]; intros acc; simpl.
    - rewrite app_nil_r. reflexivity.
    - rewrite IH, <- app_assoc. reflexivity. }
  apply H.
Qed.

Lemma one_at_a_time_pure {S E R} (fn : E -> R) (q : list E) (s : S) :
  one_at_a_time (fun e => resolve (fn e)) q s = (Ok (map fn q), s).
Proof.
  induction q as [|e rest IH]; [reflexivity|].
  cbn [one_at_a_time]. unfold resolve at 1. rewrite IH. reflexivity.
Qed.

(** X7. [map(fn)] returns a Queue of the same size whose slot at every
    position holds the image of the slot of the original at that position;
    and [resolveAll] with a function that resolves at once with [fn(entry)]
    resolves with that same Queue, leaving the state as it was. *)
Theorem map_keeps_positions :
  forall (E R : Type) (fn : E -> R) (q : list E),
    Queue_size (Queue_map fn q) = Queue_size q /\
    (forall idx,
        Queue_get (Queue_map fn q) idx = option_map fn (Queue_get q idx)) /\
    (forall (S : Type) (s : S),
        Queue_resolveAll (fun entry => resolve (fn entry)) q s =
        (Ok (Queue_map fn q), s)).
Proof.
  intros E R fn q. rewrite Queue_map_is_map. unfold Queue_size, Queue_get.
  split; [apply length_map|]. split.
  - intros idx. apply nth_error_map.
  - intros S s. rewrite resolveAll_sequential. apply one_at_a_time_pure.
Qed.

(** X8. [concat] puts the slots of the first Queue before those of the
    second, each keeping its order; [add] puts the entry at the position
    that [size()] gave before and leaves the slots before it as they are;
    at every position from [size()] on, [get] returns [undefined]. *)
Theorem concat_keeps_positions :
  forall (E : Type) (self queue : list E) (entry : E) (idx : nat),
    Queue_size (Queue_concat self queue) = Queue_size self + Queue_size queue /\
    Queue_get (Queue_concat self queue) idx =
      (if idx <? Queue_size self then Queue_get self idx
       else Queue_get queue (idx - Queue_size self)) /\
    Queue_size (Queue_add self entry) = S (Queue_size self) /\
    Queue_get (Queue_add self entry) (Queue_size self) = Some entry /\
    (idx < Queue_size self ->
     Queue_get (Queue_add self entry) idx = Queue_get self idx) /\
    (Queue_size self <= idx -> Queue_get self idx = None).
Proof.
  intros E self queue entry idx.
  unfold Queue_size, Queue_get, Queue_concat, Queue_add.
  split; [apply length_app|]. split.
  - destruct (idx <? List.length self) eqn:H.
    + apply Nat.ltb_lt in H. apply nth_error_app1. exact H.
    + apply Nat.ltb_ge in H. apply nth_error_app2. exact H.
  - split; [rewrite length_app; simpl; lia|]. split.
    + rewrite nth_error_app2 by lia. rewrite Nat.sub_diag. reflexivity.
    + split.
      * intros Hidx. apply nth_error_app1. exact Hidx.
      * apply nth_error_None.
Qed.

Lemma one_at_a_time_app {S E R} (fn : E -> promise S R) (a b : list E) :
  forall s,
    one_at_a_time fn (a ++ b) s =
    then_ (one_at_a_time fn a) (fun ra =>
    then_ (one_at_a_time fn b) (fun rb => resolve (ra ++ rb))) s.
Proof.
  induction a as [|e rest IH]; intros s.
  - simpl. unfold then_, resolve. simpl.
    destruct (one_at_a_time fn b s) as [[rb|r] s']; reflexivity.
  - simpl. unfold then_ at 1.
    change (one_at_a_time fn (e :: rest) s) with
      (match fn e s with
       | (Err r, s') => (Err r, s')
       | (Ok value, s') =>
           match one_at_a_time fn rest s' with
           | (Ok values, s'') => (Ok (value :: values), s'')
           | (Err r, s'') => (Err r, s'')
           end
       end).
    destruct (fn e s) as [[v|r] s1]; [|reflexivity].
    rewrite IH. unfold then_ at 1.
    destruct (one_at_a_time fn rest s1) as [[ra|r] s2]; [|reflexivity].
    unfold then_, resolve.
    destruct (one_at_a_time fn b s2) as [[rb|r] s3]; reflexivity.
Qed.

(** X9. [resolveAll] on a concatenation is [resolveAll] on the first
    Queue, then, on the state it left and only if it resolved,
    [resolveAll] on the second; the results are concatenated. *)
Theorem resolveAll_of_concat :
  forall (S E R : Type) (fn : E -> promise S R) (self queue : list E) (s : S),
    Queue_resolveAll fn (Queue_concat self queue) s =
    then_ (Queue_resolveAll fn self) (fun first =>
    then_ (Queue_resolveAll fn queue) (fun second =>
    resolve (Queue_concat first second))) s.
Proof.
  intros S E R fn self queue s. unfold Queue_concat.
  rewrite resolveAll_sequential, one_at_a_time_app.
  unfold then_. rewrite resolveAll_sequential.
  destruct (one_at_a_time fn self s) as [[ra|r] s1]; [|reflexivity].
  rewrite resolveAll_sequential. reflexivity.
Qed.

Section ContainsFacts.
Context {E : Type} `{Entity E}.

Lemma contains_scan (pre : list E) (x : E) (rest : list E) :
  Forall (fun p => Queue_matches p x = Ok false) pre ->
  Queue_contains (pre ++ rest) x = Queue_contains rest x.
Proof.
  induction 1 as [|p pre Hp _ IH]; simpl; [reflexivity|].
  rewrite Hp. simpl. exact IH.
Qed.

Lemma contains_false_all (q : list E) (x : E) :
  Queue_contains q x = Ok false ->
  Forall (fun p => Queue_matches p x = Ok false) q.
Proof.
  induction q as [|p rest IH]; simpl; intros Hc; [constructor|].
  destruct (Queue_matches p x) as [[|]|r] eqn:Hm; simpl in Hc;
    try discriminate.
  constructor; [exact Hm | apply IH; exact Hc].
Qed.

Lemma contains_true_extends (q more : list E) (x : E) :
  Queue_contains q x = Ok true -> Queue_contains (q ++ more) x = Ok true.
Proof.
  induction q as [|p rest IH]; simpl; intros Hc; [discriminate|].
  destruct (Queue_matches p x) as [[|]|r]; simpl in *;
    [reflexivity | apply IH; exact Hc | discriminate].
Qed.

End ContainsFacts.

(** X10. [contains] inspects the slots in order and stops at the first that
    decides: behind slots that do not match, a slot that matches makes it
    [true] and a slot whose test throws makes it throw, whatever the slots
    after it hold; when no slot matches it is [false]. *)
Theorem contains_stops_at_first_match :
  forall (E : Type) (entity : Entity E) (pre post : list E) (entry obj : E),
    Forall (fun p => Queue_matches p obj = Ok false) pre ->
    Queue_contains pre obj = Ok false /\
    (Queue_matches entry obj = Ok true ->
     Queue_contains (pre ++ entry :: post) obj = Ok true) /\
    (forall r, Queue_matches entry obj = Err r ->
               Queue_contains (pre ++ entry :: post) obj = Err r).
Proof.
  intros E entity pre post entry obj Hpre. split; [|split].
  - rewrite <- (app_nil_r pre). rewrite (@contains_scan _ _ pre obj [] Hpre).
    reflexivity.
  - intros He. rewrite (@contains_scan _ _ pre obj _ Hpre). simpl.
    rewrite He. reflexivity.
  - intros r He. rewrite (@contains_scan _ _ pre obj _ Hpre). simpl.
    rewrite He. reflexivity.
Qed.

(** The Track [foo] is found behind [bar], although the slot after it
    holds [undefined]. *)
Lemma contains_stops_at_first_match_witness :
  Forall (fun p => Queue_matches p (VTrack foo2) = Ok false) [VTrack bar] /\
  Queue_matches (VTrack foo1) (VTrack foo2) = Ok true /\
  Queue_contains [VTrack bar; VTrack foo1; VUndefined] (VTrack foo2) = Ok true.
Proof.
  assert (Hpre : Forall (fun p => Queue_matches p (VTrack foo2) = Ok false)
                   [VTrack bar]) by (repeat constructor).
  split; [exact Hpre|]. split; [reflexivity|].
  exact (proj1 (proj2 (@contains_stops_at_first_match value _ [VTrack bar]
                         [VUndefined] (VTrack foo1) (VTrack foo2) Hpre))
           eq_refl).
Defined.

Section DedupMore.
Context {E : Type} `{Entity E}.

Let step (result : outcome (list E)) (entry : E) : outcome (list E) :=
  (r <- result ;;
   c <- Queue_contains r entry ;;
   if c then Ok r else Ok (Queue_add r entry))%outcome.

Let distinct (r : list E) : Prop :=
  ForallOrdPairs (fun a b => Queue_matches a b = Ok false) r.

Lemma dedup_step (acc : list E) (e : E) :
  step (Ok acc) e =
  match Queue_contains acc e with
  | Ok true => Ok acc
  | Ok false => Ok (acc ++ [e])
  | Err r => Err r
  end.
Proof. unfold step. apply step_ok. Qed.

Lemma dedup_step_err (q : list E) (r : reason) :
  fold_left step q (Err r) = Err r.
Proof. unfold step. apply dedup_loop_err. Qed.

Lemma distinct_snoc (r : list E) (e : E) :
  distinct r -> Forall (fun p => Queue_matches p e = Ok false) r ->
  distinct (r ++ [e]).
Proof.
  unfold distinct. intros Hd. induction Hd as [|a r Ha Hd IH]; intros He.
  - simpl. repeat constructor.
  - inversion He as [|? ? Hae Hre]; subst. simpl. constructor.
    + apply Forall_app. split; [exact Ha | repeat constructor; exact Hae].
    + apply IH. exact Hre.
Qed.

Lemma dedup_loop_distinct (q : list E) : forall acc r,
  distinct acc ->
  fold_left step q (Ok acc) = Ok r ->
  distinct r /\ List.length r <= List.length acc + List.length q.
Proof.
  induction q as [|e rest IH]; intros acc r Hacc Hrun; cbn [fold_left] in Hrun.
  - inversion Hrun; subst. split; [exact Hacc | simpl; lia].
  - rewrite dedup_step in Hrun.
    destruct (Queue_contains acc e) as [[|]|err] eqn:Hc.
    + destruct (IH _ _ Hacc Hrun) as [Hd Hlen]. split; [exact Hd|].
      simpl. lia.
    + destruct (IH (acc ++ [e]) r) as [Hd Hlen]; auto.
      * apply distinct_snoc; [exact Hacc | apply contains_false_all; exact Hc].
      * split; [exact Hd|]. rewrite length_app in Hlen. simpl in *. lia.
    + rewrite dedup_step_err in Hrun. discriminate.
Qed.

Lemma dedup_loop_complete (q : list E) : forall acc r,
  (forall e, In e q -> Queue_matches e e = Ok true) ->
  fold_left step q (Ok acc) = Ok r ->
  (exists more, r = acc ++ more) /\
  forall e, In e q -> Queue_contains r e = Ok true.
Proof.
  induction q as [|e rest IH]; intros acc r Hrefl Hrun;
    cbn [fold_left] in Hrun.
  - inversion Hrun; subst. split; [exists []; rewrite app_nil_r; auto|].
    intros e [].
  - rewrite dedup_step in Hrun.
    assert (Hrest : forall x, In x rest -> Queue_matches x x = Ok true)
      by (intros x Hx; apply Hrefl; right; exact Hx).
    destruct (Queue_contains acc e) as [[|]|err] eqn:Hc.
    + destruct (IH _ _ Hrest Hrun) as [[more Hmore] Hall].
      split; [exists more; exact Hmore|].
      intros x [<-|Hx]; [|apply Hall, Hx].
      rewrite Hmore. apply contains_true_extends. exact Hc.
    + destruct (IH _ _ Hrest Hrun) as [[more Hmore] Hall].
      split; [exists (e :: more); rewrite Hmore, <- app_assoc; reflexivity|].
      intros x [<-|Hx]; [|apply Hall, Hx].
      rewrite Hmore, <- app_assoc.
      rewrite (@contains_scan _ _ acc e _ (@contains_false_all _ _ acc e Hc)).
      simpl. rewrite (Hrefl e (or_introl eq_refl)). reflexivity.
    + rewrite dedup_step_err in Hrun. discriminate.
Qed.

End DedupMore.

(** X11. What [dedup()] leaves holds no two slots of which the earlier
    matches the later under the test of [contains], and it never holds
    more slots than the Queue had. *)
Theorem dedup_leaves_no_match :
  forall (E : Type) (entity : Entity E) (q r : list E),
    Queue_dedup q = Ok r ->
    ForallOrdPairs (fun a b => Queue_matches a b = Ok false) r /\
    Queue_size r <= Queue_size q.
Proof.
  intros E entity q r Hrun. rewrite dedup_unfold in Hrun.
  destruct (dedup_loop_distinct q (acc := []) (r := r)) as [Hd Hlen].
  - constructor.
  - exact Hrun.
  - split; [exact Hd | exact Hlen].
Qed.

Lemma dedup_leaves_no_match_witness :
  Queue_dedup [VTrack foo1; VTrack foo2; VTrack bar]
    = Ok [VTrack foo1; VTrack bar] /\
  ForallOrdPairs (fun a b => Queue_matches a b = Ok false)
    [VTrack foo1; VTrack bar] /\
  Queue_size [VTrack foo1; VTrack bar]
    <= Queue_size [VTrack foo1; VTrack foo2; VTrack bar].
Proof.
  split; [reflexivity|].
  exact (@dedup_leaves_no_match value _ [VTrack foo1; VTrack foo2; VTrack bar]
           [VTrack foo1; VTrack bar] eq_refl).
Defined.

(** X12. [dedup()] loses no element: when every element matches itself,
    every element of the Queue is still contained in what [dedup()]
    leaves. *)
Theorem dedup_loses_nothing :
  forall (E : Type) (entity : Entity E) (q r : list E),
    Queue_dedup q = Ok r ->
    (forall e, In e q -> Queue_matches e e = Ok true) ->
    forall e, In e q -> Queue_contains r e = Ok true.
Proof.
  intros E entity q r Hrun Hrefl. rewrite dedup_unfold in Hrun.
  exact (proj2 (@dedup_loop_complete _ _ q [] r Hrefl Hrun)).
Qed.

Lemma dedup_loses_nothing_witness :
  Queue_dedup [VTrack foo1; VTrack foo2; VTrack bar]
    = Ok [VTrack foo1; VTrack bar] /\
  Queue_contains [VTrack foo1; VTrack bar] (VTrack foo2) = Ok true.
Proof.
  assert (Hd : Queue_dedup [VTrack foo1; VTrack foo2; VTrack bar]
               = Ok [VTrack foo1; VTrack bar]) by reflexivity.
  split; [exact Hd|].
  apply (@dedup_loses_nothing value _ _ _ Hd).
  - intros e He. simpl in He.
    repeat (destruct He as [<-|He]; [reflexivity|]). contradiction.
  - right. left. reflexivity.
Defined.

Section GroupMore.
Context {E : Type} (fn : E -> string).

Lemma bucket_nil (k : string) : bucket fn [] k = [].
Proof. reflexivity. Qed.

Lemma bucket_cons (e : E) (q : list E) (k : string) :
  bucket fn (e :: q) k =
  if (fn e =? k)%string then e :: bucket fn q k else bucket fn q k.
Proof. reflexivity. Qed.

Lemma buckets_of_nil (ks : list string) : flat_map (bucket fn []) ks = [].
Proof. induction ks as [|k rest IH]; simpl; auto. Qed.

Lemma buckets_other_keys (e : E) (q : list E) (ks : list string) :
  ~ In (fn e) ks ->
  flat_map (bucket fn (e :: q)) ks = flat_map (bucket fn q) ks.
Proof.
  intros Hnot. apply flat_map_ext_Forall, Forall_forall. intros k Hk.
  rewrite bucket_cons. destruct (fn e =? k)%string eqn:Hek; [|reflexivity].
  apply String.eqb_eq in Hek. subst k. contradiction.
Qed.

Lemma buckets_insert (e : E) (q : list E) (ks : list string) :
  NoDup ks -> In (fn e) ks ->
  Permutation (e :: flat_map (bucket fn q) ks)
              (flat_map (bucket fn (e :: q)) ks).
Proof.
  induction ks as [|k rest IH]; intros Hnd Hin; [contradiction|].
  inversion Hnd as [|? ? Hk Hrest]; subst. cbn [flat_map].
  rewrite bucket_cons. destruct (fn e =? k)%string eqn:Hek.
  - apply String.eqb_eq in Hek. subst k.
    rewrite buckets_other_keys by exact Hk. reflexivity.
  - destruct Hin as [Heq|Hin].
    + subst k. rewrite String.eqb_refl in Hek. discriminate.
    + apply perm_trans with
        (bucket fn q k ++ e :: flat_map (bucket fn q) rest).
      * apply Permutation_middle.
      * apply Permutation_app_head. apply IH; assumption.
Qed.

Lemma buckets_permutation (q : list E) (ks : list string) :
  NoDup ks -> (forall e, In e q -> In (fn e) ks) ->
  Permutation q (flat_map (bucket fn q) ks).
Proof.
  intros Hnd. induction q as [|e rest IH]; intros Hkeys.
  - rewrite buckets_of_nil. constructor.
  - apply perm_trans with (e :: flat_map (bucket fn rest) ks).
    + apply perm_skip. apply IH. intros x Hx. apply Hkeys. right. exact Hx.
    + apply buckets_insert; [exact Hnd | apply Hkeys; left; reflexivity].
Qed.

End GroupMore.

Lemma filter_split_permutation {A} (p : A -> bool) (l : list A) :
  Permutation (filter p l ++ filter (fun x => negb (p x)) l) l.
Proof.
  induction l as [|x rest IH]; simpl; [constructor|].
  destruct (p x); simpl.
  - apply perm_skip. exact IH.
  - apply Permutation_sym, Permutation_cons_app, Permutation_sym. exact IH.
Qed.

Lemma for_in_order_permutation (ks : list string) :
  Permutation (for_in_order ks) ks.
Proof.
  unfold for_in_order.
  apply perm_trans with
    (filter is_index ks ++ filter (fun k => negb (is_index k)) ks).
  - apply Permutation_app_tail. apply index_keys_shape.
  - apply filter_split_permutation.
Qed.

(** X13. [group(keyFn)] loses and repeats no element: when no key is a
    name that arrays already answer to, the Queue it leaves holds exactly
    the elements it had, reordered. *)
Theorem group_is_permutation :
  forall (E : Type) (array_member : string -> bool)
         (fn : E -> string) (q : list E),
    forallb (fun e => negb (array_member (fn e))) q = true ->
    exists r, Queue_group array_member fn q = Ok r /\ Permutation q r.
Proof.
  intros E array_member fn q Hfree. eexists.
  split; [apply group_in_key_order; exact Hfree|].
  unfold grouped_in_key_order.
  pose proof (for_in_order_permutation (first_appearance (map fn q))) as Hp.
  apply buckets_permutation.
  - apply (Permutation_NoDup (Permutation_sym Hp)).
    apply first_appearance_NoDup.
  - intros e He. apply (Permutation_in _ (Permutation_sym Hp)).
    apply (first_appearance_In array_member). apply in_map. exact He.
Qed.

Lemma group_is_permutation_witness :
  forallb (fun e => negb (es5_array_member (keys_212 e))) [0; 1; 2] = true /\
  exists r, Queue_group es5_array_member keys_212 [0; 1; 2] = Ok r /\
            Permutation [0; 1; 2] r.
Proof.
  split; [reflexivity|].
  exact (@group_is_permutation nat es5_array_member keys_212 [0; 1; 2] eq_refl).
Defined.

(** X14. [flatten] works through a concatenation part by part, and a
    nested Queue counts for its own flattened content, wherever it
    stands. *)
Theorem flatten_of_concat :
  forall (q1 q2 inner : list value) (oid : nat),
    Queue_flatten (Queue_concat q1 q2) =
      Queue_concat (Queue_flatten q1) (Queue_flatten q2) /\
    Queue_flatten (Queue_concat q1 (VQueue oid inner :: q2)) =
      Queue_flatten (Queue_concat q1 (Queue_concat inner q2)).
Proof.
  intros q1 q2 inner oid. unfold Queue_concat.
  rewrite !Queue_flatten_leaves. unfold leaves.
  rewrite !flat_map_app. split; [reflexivity|].
  reflexivity.
Qed.


(* ================================================================== *)
(** * Track: identifiers, dispatch, equality, artists *)
(* ================================================================== *)

(** Only an object has a property with a truthy value. *)
Lemma truthy_get_object (j : json) (k : string) :
  truthy (get j k) = true -> exists fields, j = JObj fields.
Proof.
  destruct j; simpl; try discriminate. intros _. eexists. reflexivity.
Qed.

Lemma get_array_object (j : json) (k : string) (items : list json) :
  get j k = JArr items -> exists fields, j = JObj fields.
Proof.
  destruct j; simpl; try discriminate. intros _. eexists. reflexivity.
Qed.

Lemma get_string_object (j : json) (k s : string) :
  get j k = JStr s -> exists fields, j = JObj fields.
Proof.
  destruct j; simpl; try discriminate. intros _. eexists. reflexivity.
Qed.

(** X15. The identifier of a Track for which no response is known is cut
    out of its entry at a fixed position: what follows [spotify:track:]
    in a URI, what follows the prefix in an [http] link, and, the prefix
    of an [https] link being one character longer, the identifier with a
    slash before it there. *)
Theorem Track_id_of_entry :
  forall (self : Track) (id : string),
    truthy (Track_response self) = false ->
    truthy (Track_responseSimple self) = false ->
    (Track_entry self = ("spotify:track:" ++ id)%string ->
     Track_id self = JStr id) /\
    (Track_entry self = ("http://open.spotify.com/track/" ++ id)%string ->
     Track_id self = JStr id) /\
    (Track_entry self = ("https://open.spotify.com/track/" ++ id)%string ->
     Track_id self = JStr ("/" ++ id)%string).
Proof.
  intros self id Hr Hs. unfold Track_id. rewrite Hr, Hs. cbn [andb].
  repeat split; intros He; rewrite He; reflexivity.
Qed.

Lemma Track_id_of_entry_witness :
  truthy (Track_response by_link) = false /\
  truthy (Track_responseSimple by_link) = false /\
  Track_entry by_link = "https://open.spotify.com/track/5jwDjl5FofuDgwITfcROhq" /\
  Track_id by_link = JStr "/5jwDjl5FofuDgwITfcROhq".
Proof.
  split; [reflexivity|]. split; [reflexivity|]. split; [reflexivity|].
  exact (proj2 (proj2 (@Track_id_of_entry by_link "5jwDjl5FofuDgwITfcROhq"
                         eq_refl eq_refl)) eq_refl).
Defined.

Section DispatchFacts.
Variable server : list string -> string -> outcome json.

(** What a search can resolve with. *)
Lemma searchForTrack_result (self t : Track) (query : string) (w : World) :
  fst (Track_searchForTrack server self query w) = Ok (Some t) ->
  exists first, t = set_responseSimple self first.
Proof.
  unfold Track_searchForTrack, then_, spotify_request, settle, resolve.
  cbn [fst snd].
  destruct (server (requests w) _) as [result|r]; [|discriminate].
  destruct (prop result "tracks") as [tracks|r]; [|discriminate].
  destruct (truthy tracks); [|discriminate].
  destruct (elem0 (get tracks "items")) as [first|r]; [|discriminate].
  destruct (truthy first && truthy (get first "uri")); [|discriminate].
  cbn [fst]. intros Heq. injection Heq as Heq'. exists first.
  symmetry. exact Heq'.
Qed.

(** A search that finds a first item with a URI. *)
Lemma searchForTrack_match (self : Track) (query : string) (w : World)
    (result first : json) (others : list json) :
  server (requests w) (track_search_url query) = Ok result ->
  get (get result "tracks") "items" = JArr (first :: others) ->
  truthy (get first "uri") = true ->
  Track_searchForTrack server self query w =
  (Ok (Some (set_responseSimple self first)),
   requested w (track_search_url query)).
Proof.
  intros Hserver Hitems Huri.
  destruct (get_array_object _ _ Hitems) as [tfields Htracks].
  destruct (truthy_get_object _ _ Huri) as [ffields Hfirst].
  assert (Hres : exists rfields, result = JObj rfields).
  { destruct result; simpl in Htracks; try discriminate.
    eexists. reflexivity. }
  destruct Hres as [rfields Hres].
  unfold Track_searchForTrack, then_, spotify_request, settle, resolve.
  fold (track_search_url query). rewrite Hserver. cbn [fst snd].
  unfold prop. rewrite Hres. cbn [nullish]. rewrite <- Hres.
  rewrite Htracks. cbn [truthy]. rewrite <- Htracks. rewrite Hitems.
  unfold elem0. cbn [nullish at0].
  rewrite Huri. rewrite Hfirst. reflexivity.
Qed.

End DispatchFacts.

(** X16. One dispatch of a Track makes no request when the Track holds a
    full track object and exactly one request otherwise; it creates no
    object, and the Track it resolves with has the identity and the entry
    of the Track that was dispatched. *)
Theorem Track_dispatch_one_request :
  forall (server : list string -> string -> outcome json)
         (self : Track) (w : World),
    (if truthy (Track_response self)
     then snd (Track_dispatch server self w) = w
     else exists url, snd (Track_dispatch server self w) = requested w url) /\
    next_oid (snd (Track_dispatch server self w)) = next_oid w /\
    forall t, fst (Track_dispatch server self w) = Ok (Some t) ->
              Track_oid t = Track_oid self /\ Track_entry t = Track_entry self.
Proof.
  intros server self w.
  destruct (truthy (Track_response self)) eqn:Hfull.
  - rewrite (dispatch_full server self w Hfull). cbn [fst snd].
    repeat split; injection H as H; rewrite <- H; reflexivity.
  - assert (Hfetch : forall result t,
               Ok (Some (set_response self result)) = Ok (Some t) ->
               Track_oid t = Track_oid self /\
               Track_entry t = Track_entry self).
    { intros result t Heq. injection Heq as Heq'. rewrite <- Heq'.
      split; reflexivity. }
    destruct (truthy (Track_responseSimple self)) eqn:Hsimple;
      [|destruct (Track_isURI (Track_entry self)) eqn:Huri].
    + rewrite (dispatch_simplified server self w Hfull Hsimple). cbn [fst snd].
      split; [eexists; reflexivity|]. split; [reflexivity|].
      intros t. destruct (server (requests w) _) as [result|r];
        [apply Hfetch|discriminate].
    + rewrite (dispatch_uri server self w Hfull Hsimple Huri). cbn [fst snd].
      split; [eexists; reflexivity|]. split; [reflexivity|].
      intros t. destruct (server (requests w) _) as [result|r];
        [apply Hfetch|discriminate].
    + rewrite (dispatch_text server self w Hfull Hsimple Huri).
      rewrite searchForTrack_world.
      split; [eexists; reflexivity|]. split; [reflexivity|].
      intros t Ht. apply searchForTrack_result in Ht.
      destruct Ht as [first Ht]. rewrite Ht. split; reflexivity.
Qed.

(** X17. A Track entered as text is completed in two dispatches: the
    first one searches and, on a match, keeps the first item as the
    simplified track object, which already gives the Track its URI but
    neither popularity nor album; the second one fetches the track by the
    id of that item and keeps the answer as the full track object, which
    gives the URI and the popularity from then on; a third dispatch
    requests nothing. *)
Theorem text_track_two_dispatches :
  forall (server : list string -> string -> outcome json)
         (self : Track) (w : World)
         (result first full : json) (others : list json),
    truthy (Track_response self) = false ->
    truthy (Track_responseSimple self) = false ->
    Track_isURI (Track_entry self) = false ->
    server (requests w) (track_search_url (Track_entry self)) = Ok result ->
    get (get result "tracks") "items" = JArr (first :: others) ->
    truthy (get first "uri") = true ->
    truthy (get first "id") = true ->
    server (requests w ++ [track_search_url (Track_entry self)])
           (track_url (get first "id")) = Ok full ->
    truthy full = true ->
    let w1 := requested w (track_search_url (Track_entry self)) in
    let w2 := requested w1 (track_url (get first "id")) in
    let found := set_responseSimple self first in
    let fetched := set_response found full in
    Track_dispatch server self w = (Ok (Some found), w1) /\
    Track_uri found = get first "uri" /\
    Track_popularity found = JNum (-1) /\
    Track_album found = JStr "" /\
    Track_dispatch server found w1 = (Ok (Some fetched), w2) /\
    Track_uri fetched = get full "uri" /\
    Track_popularity fetched = get full "popularity" /\
    Track_dispatch server fetched w2 = (Ok (Some fetched), w2).
Proof.
  intros server self w result first full others
         Hfull Hsimple Huri Hserver Hitems Hu Hid Hfetch Htruthy
         w1 w2 found fetched.
  destruct (truthy_get_object _ _ Hu) as [ffields Hfirst].
  assert (Hfound_full : truthy (Track_response found) = false) by exact Hfull.
  assert (Hfound_simple : truthy (Track_responseSimple found) = true).
  { unfold found. cbn [set_responseSimple Track_responseSimple].
    rewrite Hfirst. reflexivity. }
  assert (Hfound_id : Track_id found = get first "id").
  { unfold Track_id. rewrite Hfound_full, Hfound_simple.
    cbn [andb]. unfold found.
    cbn [set_responseSimple Track_responseSimple]. rewrite Hid. reflexivity. }
  assert (Hfetched_full : truthy (Track_response fetched) = true)
    by exact Htruthy.
  split.
  { rewrite (dispatch_text server self w Hfull Hsimple Huri).
    exact (searchForTrack_match server self (Track_entry self) w
             Hserver Hitems Hu). }
  split.
  { unfold Track_uri. rewrite Hfound_full, Hfound_simple. reflexivity. }
  split.
  { unfold Track_popularity. rewrite Hfound_full. reflexivity. }
  split.
  { unfold Track_album. rewrite Hfound_full. reflexivity. }
  split.
  { rewrite (dispatch_simplified server found w1 Hfound_full Hfound_simple).
    rewrite Hfound_id. unfold w1 at 1. cbn [requested requests].
    rewrite Hfetch. reflexivity. }
  split.
  { unfold Track_uri. rewrite Hfetched_full. reflexivity. }
  split.
  { unfold Track_popularity. rewrite Hfetched_full. reflexivity. }
  exact (dispatch_full server fetched w2 Hfetched_full).
Qed.

Lemma text_track_two_dispatches_witness :
  Track_dispatch search_hit_server by_text w0 =
    (Ok (Some (set_responseSimple by_text unpopular)),
     requested w0 "https://api.spotify.com/v1/search?type=track&q=foo") /\
  Track_dispatch search_hit_server (set_responseSimple by_text unpopular)
    (requested w0 "https://api.spotify.com/v1/search?type=track&q=foo") =
    (Ok (Some (set_response (set_responseSimple by_text unpopular) full_record)),
     requested
       (requested w0 "https://api.spotify.com/v1/search?type=track&q=foo")
       "https://api.spotify.com/v1/tracks/25BfjHTtaDCrKrq9hkr10U").
Proof.
  pose proof (@text_track_two_dispatches search_hit_server by_text w0
                track_found unpopular full_record []
                eq_refl eq_refl eq_refl eq_refl eq_refl eq_refl eq_refl
                eq_refl eq_refl) as H.
  split; [exact (proj1 H)|].
  exact (proj1 (proj2 (proj2 (proj2 (proj2 H))))).
Defined.

(** X18. [equals] between two Tracks does not depend on which of the two
    it is called on: it returns the same answer, or throws the same
    error, either way. *)
Theorem Track_equals_symmetric :
  forall a b : Track,
    Track_equals a (VTrack b) = Track_equals b (VTrack a).
Proof.
  intros a b. unfold Track_equals. cbn [value_toString].
  destruct (Track_toString a) as [sa|ra] eqn:Ha;
    destruct (Track_toString b) as [sb|rb] eqn:Hb; cbn [obind].
  - destruct sa, sb; cbn [as_string obind]; try reflexivity.
    rewrite String.eqb_sym. reflexivity.
  - rewrite (Track_toString_throws _ Hb).
    destruct (as_string sa) as [s|r] eqn:Hs; cbn [obind]; [reflexivity|].
    rewrite (as_string_throws _ Hs). reflexivity.
  - rewrite (Track_toString_throws _ Ha).
    destruct (as_string sb) as [s|r] eqn:Hs; cbn [obind]; [reflexivity|].
    rewrite (as_string_throws _ Hs). reflexivity.
  - rewrite (Track_toString_throws _ Ha), (Track_toString_throws _ Hb).
    reflexivity.
Qed.

(** X19. Two Tracks that were created from text and not dispatched yet
    are equal exactly when their entries agree once surrounding white
    space is removed and case is ignored. *)
Theorem new_tracks_equal_by_entry :
  forall (oid1 oid2 : nat) (entry1 entry2 : string),
    Track_equals (Track_new oid1 entry1 JUndef)
                 (VTrack (Track_new oid2 entry2 JUndef)) =
    Ok (toLowerCase (trim entry1) =? toLowerCase (trim entry2))%string.
Proof.
  intros oid1 oid2 entry1 entry2. reflexivity.
Qed.

(** [arr.map] with the callback of [Track.artists] on objects that have a
    string as [name]. *)
Lemma map_names (items : list json) (names : list string) :
  Forall2 (fun item name => get item "name" = JStr name) items names ->
  map_outcome (fun artist =>
                 name <- prop artist "name" ;;
                 s <- as_string name ;;
                 Ok (trim s))%outcome items
  = Ok (map trim names).
Proof.
  induction 1 as [|item name items names Hname _ IH]; [reflexivity|].
  cbn [map_outcome map].
  destruct (get_string_object _ _ Hname) as [fields Hitem].
  unfold prop at 1. rewrite Hitem. cbn [nullish]. rewrite <- Hitem.
  rewrite Hname. cbn [obind as_string]. rewrite IH. reflexivity.
Qed.

(** X20. [artists()] reads the artist list of the full track object
    only.  On a Track whose simplified track object lists artists while
    the full one is missing it throws, whereas [artist()] returns the
    first name there; on a Track whose full track object lists artists
    it returns their trimmed names, joined by a comma and a space. *)
Theorem Track_artists_reads_full_only :
  forall (self : Track) (items : list json) (names : list string),
    Forall2 (fun item name => get item "name" = JStr name) items names ->
    (truthy (Track_response self) = false ->
     get (Track_responseSimple self) "artists" = JArr items ->
     Track_artists self = Err TypeError /\
     Track_artist self =
       Ok (JStr (match names with
                 | first :: _ => if (first =? "")%string then "" else trim first
                 | [] => ""
                 end))) /\
    (get (Track_response self) "artists" = JArr items ->
     Track_artists self = Ok (JStr (join ", " (map trim names)))).
Proof.
  intros self items names Hnames. split.
  - intros Hfull Hartists.
    destruct (get_array_object _ _ Hartists) as [fields Hsimple].
    unfold Track_artists, Track_artist, Track_anyResponse.
    rewrite Hfull, Hartists, Hsimple. cbn [truthy andb].
    split.
    + destruct (Track_response self); simpl in Hfull |- *;
        try reflexivity; discriminate.
    + destruct Hnames as [|item name items names Hname _]; [reflexivity|].
      cbn [at0]. rewrite Hname.
      destruct (get_string_object _ _ Hname) as [ifields Hitem].
      rewrite Hitem. cbn [truthy andb].
      destruct (name =? "")%string; reflexivity.
  - intros Hartists.
    destruct (get_array_object _ _ Hartists) as [fields Hfull].
    unfold Track_artists, Track_anyResponse.
    rewrite Hfull. cbn [truthy]. rewrite <- Hfull, Hartists.
    cbn [truthy andb]. unfold prop at 1. rewrite Hfull. cbn [nullish].
    rewrite <- Hfull, Hartists. cbn [obind].
    rewrite (map_names Hnames). reflexivity.
Qed.

Lemma Track_artists_reads_full_only_witness :
  Track_artists (Track_new 1 "duet" duet) = Err TypeError /\
  Track_artist (Track_new 1 "duet" duet) = Ok (JStr "Ann") /\
  Track_artists (Track_new 1 "duet" duet_full) = Ok (JStr "Ann, Bob").
Proof.
  assert (Hnames : Forall2 (fun item name => get item "name" = JStr name)
                     [JObj [("name", JStr " Ann ")]; JObj [("name", JStr "Bob")]]
                     [" Ann "; "Bob"]).
  { repeat constructor. }
  pose proof (@Track_artists_reads_full_only (Track_new 1 "duet" duet)
                _ _ Hnames) as Hsimple.
  pose proof (@Track_artists_reads_full_only (Track_new 1 "duet" duet_full)
                _ _ Hnames) as Hfull.
  split; [exact (proj1 (proj1 Hsimple eq_refl eq_refl))|].
  split; [exact (proj2 (proj1 Hsimple eq_refl eq_refl))|].
  exact (proj2 Hfull eq_refl).
Defined.

(* ================================================================== *)
(** * Album and Artist: the lookups and the Queues they build *)
(* ================================================================== *)

Section AlbumFacts.
Variable server : list string -> string -> outcome json.

(** The loop of [createQueue] adds one Track per item, numbered from the
    next free identity, and requests nothing. *)
Lemma createTracks_run (self : Album) (tracks : list json) :
  forall queue w,
    Album_createTracks self tracks queue w =
    (Ok (queue ++ tracks_of (Album_entry self) (next_oid w) tracks),
     {| requests := requests w;
        next_oid := next_oid w + List.length tracks |}).
Proof.
  induction tracks as [|track rest IH]; intros queue w.
  - destruct w as [rs n]. cbn. rewrite app_nil_r, Nat.add_0_r. reflexivity.
  - cbn [Album_createTracks]. unfold then_ at 1, fresh at 1.
    rewrite IH. cbn [requests next_oid tracks_of List.length].
    unfold Queue_add. rewrite <- app_assoc, Nat.add_succ_r. reflexivity.
Qed.

Lemma createQueue_run (self : Album) (response : json) (items : list json)
    (w : World) :
  get (get response "tracks") "items" = JArr items ->
  Album_createQueue self response w =
  (Ok (VQueue (next_oid w)
         (tracks_of (Album_entry self) (S (next_oid w)) items)),
   {| requests := requests w;
      next_oid := S (next_oid w) + List.length items |}).
Proof.
  intros Hitems.
  destruct (get_array_object _ _ Hitems) as [tfields Htracks].
  assert (Hres : exists rfields, response = JObj rfields).
  { destruct response; simpl in Htracks; try discriminate.
    eexists. reflexivity. }
  destruct Hres as [rfields Hres].
  unfold Album_createQueue.
  assert (Hread : (t <- prop response "tracks" ;; prop t "items")%outcome
                  = Ok (JArr items)).
  { unfold prop at 1. rewrite Hres. cbn [nullish]. rewrite <- Hres.
    cbn [obind]. unfold prop. rewrite Htracks. cbn [nullish].
    rewrite <- Htracks, Hitems. reflexivity. }
  rewrite Hread. unfold then_ at 1, settle.
  unfold then_ at 1, fresh. unfold then_. cbn [for_in_values].
  rewrite createTracks_run. reflexivity.
Qed.

(** The identifier of an Album that holds a search response only. *)
Lemma Album_id_searched (self : Album) :
  truthy (Album_albumResponse self) = false ->
  Album_isSearchResponse (Album_searchResponse self) = Ok true ->
  Album_id self =
  get (at0 (get (get (Album_searchResponse self) "albums") "items")) "id".
Proof.
  intros Halbum. unfold Album_isSearchResponse, Album_id.
  rewrite Halbum. cbn [andb].
  destruct (truthy (Album_searchResponse self)); [|discriminate].
  destruct (truthy (get (Album_searchResponse self) "albums"));
    [|discriminate].
  cbn [andb]. unfold elem0.
  destruct (nullish (get (get (Album_searchResponse self) "albums") "items"))
    eqn:Hnull; [discriminate|].
  cbn [obind]. intros Hfirst. injection Hfirst as Hfirst.
  apply andb_true_iff in Hfirst. destruct Hfirst as [Hfirst Hid].
  destruct (truthy_get_object _ _ Hid) as [ffields Hobject].
  rewrite Hfirst, Hid.
  destruct (get (get (Album_searchResponse self) "albums") "items")
    as [ | | b | n | s | items | fields]; try discriminate; try reflexivity.
  destruct s as [|c s]; discriminate.
Qed.

(** A fetch that is answered with an album object whose track listing is
    an array. *)
Lemma fetch_and_queue (self : Album) (w : World) (record : json)
    (items : list json) :
  server (requests w) (album_url (Album_id self)) = Ok record ->
  truthy (get record "id") = true ->
  get (get record "tracks") "items" = JArr items ->
  then_ (Album_fetchAlbum server self) (fun response =>
  then_ (Album_createQueue self response) (fun queue =>
  resolve (self, queue))) w =
  (Ok (self, VQueue (next_oid w)
               (tracks_of (Album_entry self) (S (next_oid w)) items)),
   {| requests := requests w ++ [album_url (Album_id self)];
      next_oid := S (next_oid w) + List.length items |}).
Proof.
  intros Hserver Hid Hitems.
  destruct (truthy_get_object _ _ Hid) as [fields Hrecord].
  unfold then_ at 1. rewrite fetchAlbum_run, Hserver.
  unfold Album_isAlbumResponse. rewrite Hid, Hrecord. cbn [truthy andb].
  rewrite <- Hrecord. unfold then_, resolve.
  rewrite (createQueue_run self record (requested w _) Hitems).
  reflexivity.
Qed.

(** A search that finds nothing, or that fails. *)
Lemma searchForAlbum_rejects (self : Album) (query : string) (w : World) :
  (forall response,
     server (requests w) (album_search_url query) = Ok response ->
     Album_isSearchResponse response <> Ok true) ->
  exists r,
    Album_searchForAlbum server self query w =
    (Err r, requested w (album_search_url query)).
Proof.
  intros Hnone.
  unfold Album_searchForAlbum, then_, spotify_request, settle, resolve, reject.
  fold (album_search_url query). cbn [fst snd].
  destruct (server (requests w) (album_search_url query)) as [response|r].
  - specialize (Hnone response eq_refl).
    destruct (Album_isSearchResponse response) as [[|]|r].
    + exfalso. apply Hnone. reflexivity.
    + eexists. reflexivity.
    + eexists. reflexivity.
  - eexists. reflexivity.
Qed.

Lemma searchForAlbum_finds (self : Album) (query : string) (w : World)
    (found : json) :
  server (requests w) (album_search_url query) = Ok found ->
  Album_isSearchResponse found = Ok true ->
  Album_searchForAlbum server self query w =
  (Ok (set_searchResponse self found, found),
   requested w (album_search_url query)).
Proof.
  intros Hserver Hfound.
  unfold Album_searchForAlbum, then_, spotify_request, settle, resolve.
  fold (album_search_url query). rewrite Hserver, Hfound. reflexivity.
Qed.

(** A search for an artist that finds nothing, or that fails. *)
Lemma searchForArtist_rejects (self : Artist) (query : string) (w : World) :
  (forall response,
     server (requests w) (artist_search_url query) = Ok response ->
     Artist_isSearchResponse response <> Ok true) ->
  exists r,
    Artist_searchForArtist server self query w =
    (Err r, requested w (artist_search_url query)).
Proof.
  intros Hnone.
  unfold Artist_searchForArtist, then_, spotify_request, settle, resolve,
    reject.
  fold (artist_search_url query). cbn [fst snd].
  destruct (server (requests w) (artist_search_url query)) as [response|r].
  - specialize (Hnone response eq_refl).
    destruct (Artist_isSearchResponse response) as [[|]|r].
    + exfalso. apply Hnone. reflexivity.
    + eexists. reflexivity.
    + eexists. reflexivity.
  - eexists. reflexivity.
Qed.

End AlbumFacts.

(** X21. [createQueue] of an Album turns a track listing into a Queue
    that holds one Track per item, in the order of the listing, each
    with the Album's entry and with its item as response; it requests
    nothing.  A response without track listing makes it throw. *)
Theorem Album_createQueue_tracks :
  forall (self : Album) (response : json) (items : list json) (w : World),
    (get (get response "tracks") "items" = JArr items ->
     Album_createQueue self response w =
     (Ok (VQueue (next_oid w)
            (tracks_of (Album_entry self) (S (next_oid w)) items)),
      {| requests := requests w;
         next_oid := S (next_oid w) + List.length items |})) /\
    (nullish (get response "tracks") = true ->
     Album_createQueue self response w = (Err TypeError, w)).
Proof.
  intros self response items w. split.
  - apply createQueue_run.
  - intros Hnull. unfold Album_createQueue, then_, settle, prop.
    destruct (nullish response); [reflexivity|].
    cbn [obind]. rewrite Hnull. reflexivity.
Qed.

Lemma Album_createQueue_tracks_witness :
  Album_createQueue some_album album_record w0 =
    (Ok (VQueue 100 [VTrack (Track_new 101 "test" unpopular);
                     VTrack (Track_new 102 "test" unpopular)]),
     {| requests := []; next_oid := 103 |}) /\
  Album_createQueue some_album album_found w0 = (Err TypeError, w0).
Proof.
  split.
  - exact (proj1 (@Album_createQueue_tracks some_album album_record
                    [unpopular; unpopular] w0) eq_refl).
  - exact (proj2 (@Album_createQueue_tracks some_album album_found [] w0)
             eq_refl).
Defined.

(** X22. An Album entered as text is dispatched in two requests: the
    search for its entry, then the fetch of the first album found, by its
    id.  It resolves with a Queue of one Track per item of the track
    listing fetched, in order, and the Album keeps the search response. *)
Theorem Album_dispatch_by_text :
  forall (server : list string -> string -> outcome json)
         (self : Album) (w : World) (found record : json)
         (items : list json),
    truthy (Album_searchResponse self) = false ->
    truthy (Album_albumResponse self) = false ->
    server (requests w) (album_search_url (Album_entry self)) = Ok found ->
    Album_isSearchResponse found = Ok true ->
    let id := get (at0 (get (get found "albums") "items")) "id" in
    server (requests w ++ [album_search_url (Album_entry self)])
           (album_url id) = Ok record ->
    truthy (get record "id") = true ->
    get (get record "tracks") "items" = JArr items ->
    Album_dispatch server self w =
    (Ok (set_searchResponse self found,
         VQueue (next_oid w)
           (tracks_of (Album_entry self) (S (next_oid w)) items)),
     {| requests := requests w ++ [album_search_url (Album_entry self);
                                   album_url id];
        next_oid := S (next_oid w) + List.length items |}).
Proof.
  intros server self w found record items
         Hsearch Halbum Hserver Hfound id Hfetch Hid Hitems.
  unfold Album_dispatch. rewrite Hsearch, Halbum.
  unfold then_ at 1.
  rewrite (searchForAlbum_finds server self (Album_entry self) w
             Hserver Hfound).
  cbn [fst].
  assert (Hself : Album_id (set_searchResponse self found) = id).
  { apply Album_id_searched; [exact Halbum|exact Hfound]. }
  rewrite (@fetch_and_queue server (set_searchResponse self found)
             (requested w (album_search_url (Album_entry self)))
             record items).
  - rewrite Hself. cbn [requested requests next_oid set_searchResponse
                         Album_entry].
    rewrite <- app_assoc. reflexivity.
  - rewrite Hself. exact Hfetch.
  - exact Hid.
  - exact Hitems.
Qed.

Lemma Album_dispatch_by_text_witness :
  Album_dispatch one_album_server some_album w0 =
    (Ok (set_searchResponse some_album album_found,
         VQueue 100 [VTrack (Track_new 101 "test" unpopular);
                     VTrack (Track_new 102 "test" unpopular)]),
     {| requests := ["https://api.spotify.com/v1/search?type=album&q=test";
                     "https://api.spotify.com/v1/albums/A1"];
        next_oid := 103 |}).
Proof.
  exact (@Album_dispatch_by_text one_album_server some_album w0
           album_found album_record [unpopular; unpopular]
           eq_refl eq_refl eq_refl eq_refl eq_refl eq_refl eq_refl).
Defined.

(** X23. When the search for an Album or for an Artist entered as text
    fails, or its answer has no first item with an id, the dispatch is
    rejected after that one request: nothing is fetched and no object is
    created. *)
Theorem search_without_match_rejects :
  forall (server : list string -> string -> outcome json)
         (album : Album) (artist : Artist) (w : World),
    truthy (Album_searchResponse album) = false ->
    truthy (Album_albumResponse album) = false ->
    (forall response,
       server (requests w) (album_search_url (Album_entry album))
         = Ok response ->
       Album_isSearchResponse response <> Ok true) ->
    (forall response,
       server (requests w) (artist_search_url (Artist_entry artist))
         = Ok response ->
       Artist_isSearchResponse response <> Ok true) ->
    (exists r,
       Album_dispatch server album w =
       (Err r, requested w (album_search_url (Album_entry album)))) /\
    (exists r,
       Artist_dispatch server artist w =
       (Err r, requested w (artist_search_url (Artist_entry artist)))).
Proof.
  intros server album artist w Hsearch Halbum Hnone_album Hnone_artist.
  split.
  - destruct (searchForAlbum_rejects server album (Album_entry album) w
                Hnone_album) as [r Hr].
    exists r. unfold Album_dispatch. rewrite Hsearch, Halbum.
    unfold then_ at 1. rewrite Hr. reflexivity.
  - destruct (searchForArtist_rejects server artist (Artist_entry artist) w
                Hnone_artist) as [r Hr].
    exists r. unfold Artist_dispatch.
    unfold then_ at 1. rewrite Hr. reflexivity.
Qed.

Lemma search_without_match_rejects_witness :
  (exists r,
     Album_dispatch one_track_server some_album w0 =
     (Err r, requested w0 "https://api.spotify.com/v1/search?type=album&q=test")) /\
  (exists r,
     Artist_dispatch one_track_server (Artist_new 5 "test") w0 =
     (Err r, requested w0 "https://api.spotify.com/v1/search?type=artist&q=test")).
Proof.
  apply (@search_without_match_rejects one_track_server some_album
           (Artist_new 5 "test") w0 eq_refl eq_refl).
  - intros response Hresponse. injection Hresponse as Hresponse.
    rewrite <- Hresponse. discriminate.
  - intros response Hresponse. injection Hresponse as Hresponse.
    rewrite <- Hresponse. discriminate.
Defined.

(* ================================================================== *)
(** * Artist: the requests of a dispatch *)
(* ================================================================== *)

(** The state that a promise leaves does not depend on a last step that
    only reshapes the value. *)
Lemma snd_then_resolve {S A B} (p : promise S A) (f : A -> B) (s : S) :
  snd (then_ p (fun a => resolve (f a)) s) = snd (p s).
Proof.
  unfold then_, resolve. destruct (p s) as [[a|r] s']; reflexivity.
Qed.

Lemma fst_then_resolve_iff {S A B} (p : promise S A) (f : A -> B) (s : S) :
  (exists b, fst (then_ p (fun a => resolve (f a)) s) = Ok b) <->
  (exists a, fst (p s) = Ok a).
Proof.
  unfold then_, resolve. destruct (p s) as [[a|r] s']; cbn [fst].
  - split; intros _; eexists; reflexivity.
  - split; intros [x Hx]; discriminate.
Qed.

Section ArtistFacts.
Variable server : list string -> string -> outcome json.

Lemma searchForArtist_finds (self : Artist) (query : string) (w : World)
    (found : json) :
  server (requests w) (artist_search_url query) = Ok found ->
  Artist_isSearchResponse found = Ok true ->
  Artist_searchForArtist server self query w =
  (Ok (set_artistResponse self found, found),
   requested w (artist_search_url query)).
Proof.
  intros Hserver Hfound.
  unfold Artist_searchForArtist, then_, spotify_request, settle, resolve.
  fold (artist_search_url query). rewrite Hserver, Hfound. reflexivity.
Qed.

(** The identifier of an Artist that holds a search response. *)
Lemma Artist_id_searched (self : Artist) :
  Artist_isSearchResponse (Artist_artistResponse self) = Ok true ->
  Artist_id self =
  Ok (get (at0 (get (get (Artist_artistResponse self) "artists") "items"))
        "id").
Proof.
  unfold Artist_isSearchResponse, Artist_id.
  destruct (truthy (Artist_artistResponse self) &&
            truthy (get (Artist_artistResponse self) "artists"));
    [|discriminate].
  unfold elem0.
  destruct (nullish (get (get (Artist_artistResponse self) "artists") "items"));
    [discriminate|].
  cbn [obind]. intros Hfirst. injection Hfirst as Hfirst.
  rewrite Hfirst. reflexivity.
Qed.

(** The listing of an Artist whose identifier is known. *)
Lemma fetchAlbums_run (self : Artist) (w : World) (id listing : json)
    (items : list json) :
  Artist_id self = Ok id ->
  server (requests w) (artist_albums_url id) = Ok listing ->
  get listing "items" = JArr items ->
  Artist_fetchAlbums server self w =
  (Ok listing, requested w (artist_albums_url id)).
Proof.
  intros Hid Hserver Hitems.
  destruct (get_array_object _ _ Hitems) as [fields Hlisting].
  unfold Artist_fetchAlbums. rewrite Hid.
  unfold then_, settle, spotify_request, resolve.
  fold (artist_albums_url id). rewrite Hserver. cbn [fst snd].
  unfold prop. rewrite Hlisting. cbn [nullish]. rewrite <- Hlisting, Hitems.
  reflexivity.
Qed.

(** What the constructor makes of an item that is an album object. *)
Lemma Album_new_album_like (oid : nat) (entry : string) (item : json) :
  album_like item = true ->
  Album_new oid entry item =
  Ok {| Album_oid := oid; Album_entry := trim entry;
        Album_searchResponse := JUndef; Album_albumResponse := item |}.
Proof.
  unfold album_like. intros Hitem.
  apply andb_true_iff in Hitem. destruct Hitem as [Hid Halbums].
  apply negb_true_iff in Halbums.
  destruct (truthy_get_object _ _ Hid) as [fields Hobject].
  unfold Album_new, Album_isSearchResponse, Album_isAlbumResponse.
  rewrite Halbums, Hid, Hobject. reflexivity.
Qed.

(** The loop of [createQueue] on album objects. *)
Lemma createAlbums_run (self : Artist) (items : list json) :
  forallb album_like items = true ->
  forall queue w,
    Artist_createAlbums self items queue w =
    (Ok (queue ++ albums_of (Artist_entry self) (next_oid w) items),
     {| requests := requests w;
        next_oid := next_oid w + List.length items |}).
Proof.
  induction items as [|item rest IH]; intros Hitems queue w.
  - destruct w as [rs n]. cbn. rewrite app_nil_r, Nat.add_0_r. reflexivity.
  - cbn [forallb] in Hitems. apply andb_true_iff in Hitems.
    destruct Hitems as [Hitem Hrest].
    cbn [Artist_createAlbums]. unfold then_ at 1, fresh at 1.
    rewrite (@Album_new_album_like _ _ item Hitem).
    unfold then_ at 1, settle at 1.
    rewrite (IH Hrest). cbn [requests next_oid albums_of List.length].
    unfold Queue_add. rewrite <- app_assoc, Nat.add_succ_r. reflexivity.
Qed.

(** Whether [createQueue] returns depends on the track listing only. *)
Lemma createQueue_outcome (self : Album) (response : json) (w : World) :
  nullish response = false ->
  if nullish (get response "tracks")
  then fst (Album_createQueue self response w) = Err TypeError
  else exists queue, fst (Album_createQueue self response w) = Ok queue.
Proof.
  intros Hresponse. unfold Album_createQueue, prop. rewrite Hresponse.
  cbn [obind]. destruct (nullish (get response "tracks")).
  - reflexivity.
  - unfold then_ at 1, settle. unfold then_ at 1, fresh.
    unfold then_, resolve. rewrite createTracks_run. eexists. reflexivity.
Qed.

(** The dispatch of an Album that holds an album object: one request, the
    fetch by the id of that object, and a Queue exactly when the answer
    is an album object with a track listing. *)
Lemma listed_album_dispatch (oid : nat) (entry : string) (item : json)
    (w : World) :
  album_like item = true ->
  let album :=
    {| Album_oid := oid; Album_entry := trim entry;
       Album_searchResponse := JUndef; Album_albumResponse := item |} in
  let run :=
    then_ (Album_dispatch server album) (fun r => resolve (snd r)) w in
  requests (snd run) = requests w ++ [album_url (get item "id")] /\
  ((exists queue, fst run = Ok queue) <->
   album_answer_ok (server (requests w) (album_url (get item "id"))) = true).
Proof.
  intros Hitem album run. unfold album_like in Hitem.
  apply andb_true_iff in Hitem. destruct Hitem as [Hid _].
  destruct (truthy_get_object _ _ Hid) as [fields Hobject].
  assert (Hdispatch :
            Album_dispatch server album =
            then_ (Album_fetchAlbum server album) (fun response =>
            then_ (Album_createQueue album response) (fun queue =>
            resolve (album, queue)))).
  { unfold Album_dispatch, album.
    cbn [Album_searchResponse Album_albumResponse truthy].
    rewrite Hobject. reflexivity. }
  assert (Halbum : Album_id album = get item "id").
  { unfold Album_id, album. cbn [Album_albumResponse].
    rewrite Hid, Hobject. reflexivity. }
  unfold run. split.
  - rewrite snd_then_resolve, Hdispatch, fetch_then_queue_requests, Halbum.
    reflexivity.
  - rewrite fst_then_resolve_iff, Hdispatch.
    unfold then_ at 1. rewrite fetchAlbum_run, Halbum.
    unfold album_answer_ok, Album_isAlbumResponse.
    destruct (server (requests w) (album_url (get item "id")))
      as [record|r]; [|split; [intros [x Hx]|intros Hx]; discriminate].
    destruct (truthy (get record "id")) eqn:Hrecord.
    + destruct (truthy_get_object _ _ Hrecord) as [rfields Hr].
      assert (Hnull : nullish record = false) by (rewrite Hr; reflexivity).
      assert (Htruthy : truthy record = true) by (rewrite Hr; reflexivity).
      rewrite Htruthy. cbn [andb].
      pose proof (createQueue_outcome album record
                    (requested w (album_url (get item "id"))) Hnull)
        as Hqueue.
      unfold then_, resolve.
      destruct (Album_createQueue album record
                  (requested w (album_url (get item "id"))))
        as [[queue|r] w'];
        destruct (nullish (get record "tracks")); cbn [fst negb] in *.
      * discriminate.
      * split; intros _; [reflexivity|eexists; reflexivity].
      * split; [intros [x Hx]|intros Hx]; discriminate.
      * destruct Hqueue as [x Hx]. discriminate.
    + rewrite andb_false_r. cbn [andb fst].
      split; [intros [x Hx]|intros Hx]; discriminate.
Qed.

(** The sequential dispatch of the Albums of a listing makes the album
    requests of [album_run]. *)
Lemma albums_run (entry : string) (items : list json) :
  forallb album_like items = true ->
  forall (oid : nat) (w : World),
    let run :=
      one_at_a_time
        (fun album => then_ (Album_dispatch server album)
                        (fun r => resolve (snd r)))
        (albums_of entry oid items) w in
    requests (snd run) =
      requests w ++ fst (album_run server (requests w) items) /\
    ((exists queues, fst run = Ok queues) <->
     snd (album_run server (requests w) items) = true).
Proof.
  induction items as [|item rest IH]; intros Hitems oid w.
  - cbn. rewrite app_nil_r. split; [reflexivity|].
    split; intros _; [reflexivity|eexists; reflexivity].
  - cbn [forallb] in Hitems. apply andb_true_iff in Hitems.
    destruct Hitems as [Hitem Hrest].
    destruct (@listed_album_dispatch oid entry item w Hitem) as [Hreq Hok].
    cbn [albums_of one_at_a_time album_run].
    destruct (then_ (Album_dispatch server _) _ w) as [[queue|r] w1];
      cbn [fst snd] in Hreq, Hok.
    + assert (Hgood : album_answer_ok
                        (server (requests w) (album_url (get item "id")))
                      = true).
      { apply Hok. eexists. reflexivity. }
      rewrite Hgood.
      destruct (IH Hrest (S oid) w1) as [IHreq IHok].
      rewrite Hreq in IHreq, IHok.
      destruct (one_at_a_time _ (albums_of entry (S oid) rest) w1)
        as [[queues|r] w2];
        destruct (album_run server
                    (requests w ++ [album_url (get item "id")]) rest)
        as [urls ok]; cbn [fst snd] in *.
      * rewrite IHreq, <- app_assoc. split; [reflexivity|].
        split; intros _; [apply IHok|]; eexists; reflexivity.
      * rewrite IHreq, <- app_assoc. split; [reflexivity|].
        split; [intros [x Hx]; discriminate|].
        intros Hx. apply IHok in Hx. destruct Hx as [x Hx]. discriminate.
    + assert (Hbad : album_answer_ok
                       (server (requests w) (album_url (get item "id")))
                     = false).
      { destruct (album_answer_ok _); [|reflexivity].
        destruct (proj2 Hok eq_refl) as [x Hx]. discriminate. }
      rewrite Hbad. cbn [fst snd]. split; [exact Hreq|].
      split; [intros [x Hx]|intros Hx]; discriminate.
Qed.

End ArtistFacts.

(** X24. The requests of the dispatch of an Artist whose search and whose
    album listing succeed: the search for the entry, the listing of the
    first artist found, and then the albums of the listing, each fetched
    by its own id, one after the other in the order of the listing, up to
    and including the first album whose answer is no album object with a
    track listing.  The dispatch succeeds exactly when every album of the
    listing was answered with one. *)
Theorem Artist_dispatch_requests :
  forall (server : list string -> string -> outcome json)
         (self : Artist) (w : World) (found listing : json)
         (items : list json),
    server (requests w) (artist_search_url (Artist_entry self)) = Ok found ->
    Artist_isSearchResponse found = Ok true ->
    let id := get (at0 (get (get found "artists") "items")) "id" in
    server (requests w ++ [artist_search_url (Artist_entry self)])
           (artist_albums_url id) = Ok listing ->
    get listing "items" = JArr items ->
    forallb album_like items = true ->
    let log := requests w ++ [artist_search_url (Artist_entry self);
                              artist_albums_url id] in
    requests (snd (Artist_dispatch server self w)) =
      log ++ fst (album_run server log items) /\
    ((exists r, fst (Artist_dispatch server self w) = Ok r) <->
     snd (album_run server log items) = true).
Proof.
  intros server self w found listing items
         Hserver Hfound id Hlisting Hitems Hlike log.
  destruct (get_array_object _ _ Hitems) as [fields Hobject].
  set (search := artist_search_url (Artist_entry self)).
  set (self' := set_artistResponse self found).
  assert (Hid : Artist_id self' = Ok id) by (apply Artist_id_searched; exact Hfound).
  set (w1 := requested w search).
  set (w2 := requested w1 (artist_albums_url id)).
  set (w3 := {| requests := requests w2;
                next_oid := S (next_oid w2) + List.length items |}).
  set (w4 := {| requests := requests w3; next_oid := S (next_oid w3) |}).
  set (albums := albums_of (Artist_entry self') (S (next_oid w2)) items).
  set (fn := fun entry : Album =>
               then_ (Album_dispatch server entry) (fun r => resolve (snd r))).
  assert (Hrun : Artist_dispatch server self w =
                 then_ (one_at_a_time fn albums)
                   (fun result => resolve (self', VQueue (next_oid w3) result))
                   w4).
  { unfold Artist_dispatch. unfold then_ at 1.
    rewrite (searchForArtist_finds server self (Artist_entry self) w
               Hserver Hfound).
    cbn [fst]. fold self' search w1. unfold then_ at 1.
    rewrite (@fetchAlbums_run server self' w1 id listing items Hid
               Hlisting Hitems).
    fold w2. unfold Artist_createQueue.
    unfold prop. rewrite Hobject. cbn [nullish]. rewrite <- Hobject, Hitems.
    unfold then_ at 2. unfold settle at 1.
    unfold then_ at 2. unfold fresh at 1.
    unfold then_ at 2. cbn [for_in_values].
    unfold then_ at 1. cbv beta.
    rewrite (createAlbums_run self' items Hlike).
    cbn [requests next_oid app]. fold w3.
    unfold then_ at 1, fresh at 1. cbv beta iota. fold w4.
    unfold Queue_dispatch. unfold then_ at 1.
    rewrite resolveAll_sequential. fold fn. fold albums.
    unfold then_ at 1, resolve.
    destruct (one_at_a_time fn albums w4) as [[result|r] w5]; reflexivity. }
  assert (Hlog : requests w4 = log).
  { unfold w4, w3, w2, w1, requested, log, search. cbn [requests].
    rewrite <- app_assoc. reflexivity. }
  destruct (@albums_run server (Artist_entry self') items Hlike
              (S (next_oid w2)) w4) as [Hreq Hok].
  fold fn in Hreq, Hok. fold albums in Hreq, Hok.
  rewrite Hlog in Hreq, Hok.
  rewrite Hrun. split.
  - rewrite snd_then_resolve. exact Hreq.
  - rewrite (fst_then_resolve_iff (one_at_a_time fn albums)
               (fun result => (self', VQueue (next_oid w3) result)) w4).
    exact Hok.
Qed.

(** An Artist with three albums of which the second cannot be fetched:
    the third is never requested, and the dispatch is rejected. *)
Lemma Artist_dispatch_requests_witness :
  requests (snd (Artist_dispatch one_artist_server (Artist_new 5 "test") w0)) =
    ["https://api.spotify.com/v1/search?type=artist&q=test";
     "https://api.spotify.com/v1/artists/R1/albums";
     "https://api.spotify.com/v1/albums/A1";
     "https://api.spotify.com/v1/albums/A2"] /\
  ((exists r,
      fst (Artist_dispatch one_artist_server (Artist_new 5 "test") w0) = Ok r)
   <-> false = true).
Proof.
  exact (@Artist_dispatch_requests one_artist_server (Artist_new 5 "test") w0
           artist_found artist_listing
           [JObj [("id", JStr "A1")]; JObj [("id", JStr "A2")];
            JObj [("id", JStr "A3")]]
           eq_refl eq_refl eq_refl eq_refl eq_refl).
Defined.

(* ================================================================== *)
(** * Playlist: the constructor, the lookups and the listing *)
(* ================================================================== *)

(** Only the hash sign itself lowers to a hash sign. *)
Lemma lower_hash (c : ascii) :
  Ascii.eqb "#" (lower c) = Ascii.eqb c "#".
Proof.
  destruct c as [[] [] [] [] [] [] [] []]; reflexivity.
Qed.

(** No directive pattern matches a plain line. *)
Lemma plain_no_directive (line pat : string) :
  plain line = true -> matches_prefix_i (String "#" pat) line = false.
Proof.
  destruct line as [|c line]; [reflexivity|].
  cbn [plain matches_prefix_i]. rewrite lower_hash.
  intros Hc. apply negb_true_iff in Hc. rewrite Hc. reflexivity.
Qed.

Lemma plain_no_lastfm (line : string) :
  plain line = true -> matches_lastfm line = false.
Proof.
  intros Hplain. unfold matches_lastfm.
  rewrite !(@plain_no_directive line _ Hplain). reflexivity.
Qed.

(** The loop of the constructor never throws and never requests; it adds
    at most one entry per line and never clears the [unique] flag. *)
Lemma readLines_total (lines : list string) :
  forall (self : Settings) (w : World),
    exists (self' : Settings) (added : list value),
      Playlist_readLines lines self w =
        (Ok self',
         {| requests := requests w;
            next_oid := next_oid w + List.length added |}) /\
      Playlist_entries (Playlist_content self') =
        Playlist_entries (Playlist_content self) ++ added /\
      List.length added <= List.length lines /\
      (Playlist_unique (Playlist_content self) = true ->
       Playlist_unique (Playlist_content self') = true) /\
      Forall (fun v => is_queue v = false /\ v <> VUndefined) added.
Proof.
  induction lines as [|line rest IH]; intros self w.
  - exists self, []. destruct w as [rs n]. cbn.
    rewrite app_nil_r, Nat.add_0_r. repeat split; auto.
  - assert (Hsame : forall self1,
              Playlist_entries (Playlist_content self1) =
                Playlist_entries (Playlist_content self) ->
              (Playlist_unique (Playlist_content self) = true ->
               Playlist_unique (Playlist_content self1) = true) ->
              exists (self' : Settings) (added : list value),
                Playlist_readLines rest self1 w =
                  (Ok self',
                   {| requests := requests w;
                      next_oid := next_oid w + List.length added |}) /\
                Playlist_entries (Playlist_content self') =
                  Playlist_entries (Playlist_content self) ++ added /\
                List.length added <= List.length (line :: rest) /\
                (Playlist_unique (Playlist_content self) = true ->
                 Playlist_unique (Playlist_content self') = true) /\
                Forall (fun v => is_queue v = false /\ v <> VUndefined) added).
    { intros self1 Hentries Hunique.
      destruct (IH self1 w) as [self' [added [Hrun [Hadd [Hlen [Hu Hall]]]]]].
      exists self', added. rewrite <- Hentries.
      repeat split; auto. cbn [List.length]. lia. }
    assert (Hnew : forall e,
              is_queue e = false -> e <> VUndefined ->
              exists (self' : Settings) (added : list value),
                Playlist_readLines rest
                  {| Playlist_ordering := Playlist_ordering self;
                     Playlist_grouping := Playlist_grouping self;
                     Playlist_content :=
                       {| Playlist_unique :=
                            Playlist_unique (Playlist_content self);
                          Playlist_entries :=
                            Queue_add
                              (Playlist_entries (Playlist_content self)) e |}
                  |}
                  {| requests := requests w; next_oid := S (next_oid w) |} =
                  (Ok self',
                   {| requests := requests w;
                      next_oid := next_oid w + List.length added |}) /\
                Playlist_entries (Playlist_content self') =
                  Playlist_entries (Playlist_content self) ++ added /\
                List.length added <= List.length (line :: rest) /\
                (Playlist_unique (Playlist_content self) = true ->
                 Playlist_unique (Playlist_content self') = true) /\
                Forall (fun v => is_queue v = false /\ v <> VUndefined) added).
    { intros e Hq Hu.
      match goal with
      | |- exists _ _, Playlist_readLines rest ?s ?w' = _ /\ _ =>
          destruct (IH s w') as [self' [added [Hrun [Hadd [Hlen [Hun Hall]]]]]]
      end.
      exists self', (e :: added).
      cbn [Playlist_content Playlist_entries Playlist_unique requests next_oid]
        in Hrun, Hadd, Hun.
      rewrite Hrun. cbn [List.length]. rewrite Nat.add_succ_r.
      unfold Queue_add in Hadd. rewrite <- app_assoc in Hadd.
      repeat split; auto. lia. }
    cbn [Playlist_readLines].
    destruct (matches_prefix_i "#order by popularity" line);
      [apply Hsame; auto|].
    destruct (matches_lastfm line); [apply Hsame; auto|].
    destruct (matches_prefix_i "#group by entry" line); [apply Hsame; auto|].
    destruct (matches_prefix_i "#group by artist" line); [apply Hsame; auto|].
    destruct (matches_prefix_i "#group by album" line); [apply Hsame; auto|].
    destruct (matches_prefix_i "#unique" line); [apply Hsame; auto|].
    destruct (matches_prefix_i "#album " line).
    { unfold then_ at 1, fresh at 1. unfold then_ at 1, settle at 1.
      change (Album_new (next_oid w) (substring_from 7 line) JUndef) with
        (Ok {| Album_oid := next_oid w;
               Album_entry := trim (substring_from 7 line);
               Album_searchResponse := JUndef;
               Album_albumResponse := JUndef |}).
      cbv beta iota. apply Hnew; [reflexivity|discriminate]. }
    destruct (matches_prefix_i "#artist " line).
    { unfold then_ at 1, fresh at 1. apply Hnew; [reflexivity|discriminate]. }
    destruct (negb (line =? "")%string).
    { unfold then_ at 1, fresh at 1. apply Hnew; [reflexivity|discriminate]. }
    apply Hsame; auto.
Qed.

(** The loop of the constructor on plain lines. *)
Lemma tracks_of_lines_length (lines : list string) :
  forall oid,
    List.length (tracks_of_lines oid lines) =
    List.length (filter (fun line => negb (line =? "")%string) lines).
Proof.
  induction lines as [|line rest IH]; intros oid; [reflexivity|].
  cbn [tracks_of_lines filter].
  destruct (line =? "")%string; cbn [negb List.length]; rewrite IH;
    reflexivity.
Qed.

Lemma readLines_plain (lines : list string) :
  forallb plain lines = true ->
  forall (o : option ordering) (g : grouping) (u : bool) (es : list value)
         (w : World),
    Playlist_readLines lines
      {| Playlist_ordering := o; Playlist_grouping := g;
         Playlist_content :=
           {| Playlist_unique := u; Playlist_entries := es |} |} w =
    (Ok {| Playlist_ordering := o; Playlist_grouping := g;
           Playlist_content :=
             {| Playlist_unique := u;
                Playlist_entries :=
                  es ++ tracks_of_lines (next_oid w) lines |} |},
     {| requests := requests w;
        next_oid := next_oid w +
                    List.length (tracks_of_lines (next_oid w) lines) |}).
Proof.
  induction lines as [|line rest IH]; intros Hplain o g u es w.
  - destruct w as [rs n]. cbn. rewrite app_nil_r, Nat.add_0_r. reflexivity.
  - cbn [forallb] in Hplain. apply andb_true_iff in Hplain.
    destruct Hplain as [Hline Hrest].
    cbn [Playlist_readLines].
    rewrite !(@plain_no_directive line _ Hline), (@plain_no_lastfm line Hline).
    cbn [tracks_of_lines Playlist_content Playlist_entries Playlist_unique
         Playlist_ordering Playlist_grouping].
    destruct (line =? "")%string; cbn [negb].
    + apply (IH Hrest).
    + unfold then_ at 1, fresh at 1. rewrite (IH Hrest).
      cbn [requests next_oid List.length]. unfold Queue_add.
      rewrite <- app_assoc, Nat.add_succ_r.
      rewrite (tracks_of_lines_length rest (S (next_oid w))),
              <- (tracks_of_lines_length rest (S (next_oid w))).
      reflexivity.
Qed.

(** Cutting a text that has no line break. *)
Lemma split_from_one_line (x : string) :
  one_line x = true ->
  forall current,
    split_from current x =
    [string_of_list_ascii (rev current ++ list_ascii_of_string x)].
Proof.
  induction x as [|c x IH]; intros Hx current.
  - cbn. rewrite app_nil_r. reflexivity.
  - cbn [one_line] in Hx. apply andb_true_iff in Hx. destruct Hx as [Hc Hx].
    apply negb_true_iff in Hc.
    cbn [split_from list_ascii_of_string]. rewrite Hc, (IH Hx).
    cbn [rev]. rewrite <- app_assoc. reflexivity.
Qed.

Lemma split_from_line (x rest : string) (nl : ascii) :
  one_line x = true ->
  is_line_break nl = true ->
  forall current,
    split_from current (x ++ String nl rest)%string =
    string_of_list_ascii (rev current ++ list_ascii_of_string x)
    :: split_from [] rest.
Proof.
  intros Hx Hnl. induction x as [|c x IH]; intros current.
  - cbn [append split_from list_ascii_of_string]. rewrite Hnl, app_nil_r.
    reflexivity.
  - cbn [one_line] in Hx. apply andb_true_iff in Hx. destruct Hx as [Hc Hx].
    apply negb_true_iff in Hc.
    cbn [append split_from list_ascii_of_string]. rewrite Hc, (IH Hx).
    cbn [rev]. rewrite <- app_assoc. reflexivity.
Qed.

Lemma split_lines_join_nonempty (line : string) (lines : list string) :
  forallb one_line (line :: lines) = true ->
  split_lines (join (String (ascii_of_nat 10) "") (line :: lines)) =
  line :: lines.
Proof.
  revert line. induction lines as [|next rest IH]; intros line Hlines.
  - cbn [forallb] in Hlines. apply andb_true_iff in Hlines.
    destruct Hlines as [Hline _].
    cbn [join]. unfold split_lines.
    rewrite (@split_from_one_line line Hline). cbn [rev app].
    rewrite string_of_list_ascii_of_string. reflexivity.
  - cbn [forallb] in Hlines. apply andb_true_iff in Hlines.
    destruct Hlines as [Hline Hrest].
    change (join (String (ascii_of_nat 10) "") (line :: next :: rest)) with
      (line ++ String (ascii_of_nat 10)
                 (join (String (ascii_of_nat 10) "") (next :: rest)))%string.
    unfold split_lines.
    rewrite (@split_from_line line _ (ascii_of_nat 10) Hline eq_refl).
    cbn [rev app].
    rewrite string_of_list_ascii_of_string.
    f_equal. apply (IH next Hrest).
Qed.

(** X25. The constructor of a Playlist never throws and requests
    nothing, whatever the text: it creates at most one entry per line,
    each of them a Track, an Album or an Artist, and the [unique] flag of
    the Playlist it returns is always set, with or without a [#UNIQUE]
    line. *)
Theorem Playlist_new_total :
  forall (str : string) (w : World),
    exists self : Settings,
      Playlist_new str w =
        (Ok self,
         {| requests := requests w;
            next_oid :=
              next_oid w +
              Queue_size (Playlist_entries (Playlist_content self)) |}) /\
      Playlist_unique (Playlist_content self) = true /\
      Queue_size (Playlist_entries (Playlist_content self))
        <= List.length (split_lines (trim str)) /\
      Forall (fun v => is_queue v = false /\ v <> VUndefined)
             (Playlist_entries (Playlist_content self)).
Proof.
  intros str w. unfold Playlist_new, Queue_size.
  destruct (negb (trim str =? "")%string).
  - match goal with
    | |- exists _, Playlist_readLines ?lines ?s ?w' = _ /\ _ =>
        destruct (readLines_total lines s w')
          as [self [added [Hrun [Hadd [Hlen [Hu Hall]]]]]]
    end.
    cbn [Playlist_content Playlist_entries Playlist_unique app] in Hadd, Hu.
    exists self. rewrite Hadd. repeat split; auto.
  - exists {| Playlist_ordering := None; Playlist_grouping := Ungrouped;
              Playlist_content :=
                {| Playlist_unique := true; Playlist_entries := [] |} |}.
    unfold resolve.
    cbn [Playlist_content Playlist_entries Playlist_unique List.length].
    rewrite Nat.add_0_r. destruct w as [rs n].
    repeat split; auto. lia.
Qed.

(** X26. Cutting into lines undoes joining with line feeds: a non-empty
    list of texts without line break, joined by line feeds, is cut into
    those same texts. *)
Theorem split_lines_join :
  forall lines : list string,
    lines <> [] ->
    forallb one_line lines = true ->
    split_lines (join (String (ascii_of_nat 10) "") lines) = lines.
Proof.
  intros [|line lines] Hne Hlines; [contradiction|].
  apply split_lines_join_nonempty. exact Hlines.
Qed.

Lemma split_lines_join_witness :
  split_lines (join (String (ascii_of_nat 10) "") ["a b"; ""; "c"]) =
  ["a b"; ""; "c"].
Proof.
  apply (@split_lines_join ["a b"; ""; "c"]); [discriminate|reflexivity].
Defined.

(** X27. A text made of lines that do not start with [#], given without
    white space around it, becomes a Playlist without ordering and
    grouping that holds one Track per non-empty line, in the order of the
    lines, each with its line, trimmed, as entry. *)
Theorem Playlist_new_plain_lines :
  forall (lines : list string) (w : World),
    lines <> [] ->
    forallb one_line lines = true ->
    forallb plain lines = true ->
    let str := join (String (ascii_of_nat 10) "") lines in
    trim str = str ->
    str <> "" ->
    Playlist_new str w =
    (Ok {| Playlist_ordering := None; Playlist_grouping := Ungrouped;
           Playlist_content :=
             {| Playlist_unique := true;
                Playlist_entries := tracks_of_lines (next_oid w) lines |} |},
     {| requests := requests w;
        next_oid := next_oid w +
                    List.length (tracks_of_lines (next_oid w) lines) |}).
Proof.
  intros lines w Hne Hone Hplain str Htrim Hstr.
  unfold Playlist_new. fold str. rewrite Htrim.
  apply String.eqb_neq in Hstr. rewrite Hstr. cbn [negb].
  unfold str at 1.
  destruct lines as [|line rest]; [contradiction|].
  rewrite (@split_lines_join_nonempty line rest Hone).
  rewrite (@readLines_plain (line :: rest) Hplain). reflexivity.
Qed.

Lemma Playlist_new_plain_lines_witness :
  Playlist_new
    (join (String (ascii_of_nat 10) "") ["test1"; ""; "  Test2"]) w0 =
  (Ok {| Playlist_ordering := None; Playlist_grouping := Ungrouped;
         Playlist_content :=
           {| Playlist_unique := true;
              Playlist_entries :=
                [VTrack (Track_new 100 "test1" JUndef);
                 VTrack (Track_new 101 "  Test2" JUndef)] |} |},
   {| requests := []; next_oid := 102 |}).
Proof.
  apply (@Playlist_new_plain_lines ["test1"; ""; "  Test2"] w0);
    [discriminate|reflexivity|reflexivity|reflexivity|discriminate].
Defined.

Section ListingFacts.
Variable server : list string -> string -> outcome json.

(** A Track without any response adds nothing to the listing. *)
Lemma render_unresolved (acc : outcome string) (v : value) :
  is_unresolved v = true ->
  (r <- acc ;; render_entry r v)%outcome = acc.
Proof.
  destruct v as [ | t | a | a | oid inner]; try discriminate.
  cbn [is_unresolved]. intros Hv.
  apply andb_true_iff in Hv. destruct Hv as [Hfull Hsimple].
  apply negb_true_iff in Hfull. apply negb_true_iff in Hsimple.
  destruct acc as [r|e]; [|reflexivity].
  cbn [obind render_entry].
  unfold Track_toString, Track_name, Track_title, Track_uri,
    Track_anyResponse.
  rewrite Hfull, Hsimple. reflexivity.
Qed.

Lemma render_loop_filter (entries : list value) :
  forall acc : outcome string,
    fold_left (fun acc track => r <- acc ;; render_entry r track)%outcome
      entries acc =
    fold_left (fun acc track => r <- acc ;; render_entry r track)%outcome
      (filter (fun v => negb (is_unresolved v)) entries) acc.
Proof.
  induction entries as [|v rest IH]; intros acc; [reflexivity|].
  cbn [fold_left filter].
  destruct (is_unresolved v) eqn:Hv; cbn [negb].
  - rewrite (@render_unresolved acc v Hv). apply IH.
  - cbn [fold_left]. apply IH.
Qed.

(** The dispatch of full Tracks returns them as they are. *)
Lemma dispatch_full_tracks (entries : list value) :
  forallb is_full entries = true ->
  forall w,
    one_at_a_time (dispatch_entry server) entries w = (Ok entries, w).
Proof.
  induction entries as [|v rest IH]; intros Hfull w; [reflexivity|].
  cbn [forallb] in Hfull. apply andb_true_iff in Hfull.
  destruct Hfull as [Hv Hrest].
  destruct v as [ | t | a | a | oid inner]; try discriminate.
  cbn [is_full] in Hv.
  cbn [one_at_a_time dispatch_entry]. unfold then_ at 1.
  rewrite (dispatch_full server t w Hv). unfold resolve at 1.
  rewrite (IH Hrest). reflexivity.
Qed.

Lemma full_tracks_flat (entries : list value) :
  forallb is_full entries = true ->
  forallb (fun v => negb (is_queue v)) entries = true.
Proof.
  induction entries as [|v rest IH]; [reflexivity|].
  cbn [forallb]. intros Hfull. apply andb_true_iff in Hfull.
  destruct Hfull as [Hv Hrest]. rewrite (IH Hrest).
  destruct v; try discriminate. reflexivity.
Qed.

End ListingFacts.

(** X28. A Track for which no lookup has brought a response adds nothing
    to the listing of a Playlist: the listing is the one of the Playlist
    without those Tracks, and it throws exactly when that one throws. *)
Theorem Playlist_toString_skips_unresolved :
  forall self : Playlist,
    Playlist_toString self =
    Playlist_toString
      (set_entries self
         (filter (fun v => negb (is_unresolved v)) (Playlist_entries self))).
Proof.
  intros self. unfold Playlist_toString. cbn [set_entries Playlist_entries].
  rewrite render_loop_filter. reflexivity.
Qed.

(** X29. [fetchTracks] on a Playlist whose entries are all Tracks with a
    full track object requests nothing and leaves the Playlist as it
    is. *)
Theorem fetchTracks_full_is_noop :
  forall (server : list string -> string -> outcome json)
         (self : Playlist) (w : World),
    forallb is_full (Playlist_entries self) = true ->
    Playlist_fetchTracks server self w = (Ok self, w).
Proof.
  intros server self w Hfull.
  unfold Playlist_fetchTracks, Queue_dispatch. unfold then_ at 1.
  rewrite resolveAll_sequential.
  change (fun entry : value => dispatch_entry server entry)
    with (dispatch_entry server).
  rewrite (@dispatch_full_tracks server _ Hfull w). unfold resolve.
  rewrite Queue_flatten_leaves, (@leaves_flat _ (@full_tracks_flat _ Hfull)).
  destruct self as [u es]. reflexivity.
Qed.

Lemma fetchTracks_full_is_noop_witness :
  Playlist_fetchTracks silent_server
    {| Playlist_unique := true;
       Playlist_entries := [VTrack (Track_new 1 "test1" full_record)] |} w0 =
  (Ok {| Playlist_unique := true;
         Playlist_entries := [VTrack (Track_new 1 "test1" full_record)] |},
   w0).
Proof.
  exact (@fetchTracks_full_is_noop silent_server
           {| Playlist_unique := true;
              Playlist_entries := [VTrack (Track_new 1 "test1" full_record)] |}
           w0 eq_refl).
Defined.

(* ================================================================== *)
(** * sort.js: ordering by censorship *)
(* ================================================================== *)

Section PartitionFacts.
Context {T : Type} (c : comparator T) (e : T -> bool).
Hypothesis Hc :
  forall a b,
    c a b = if e a then (if e b then 0%Z else (-1)%Z)
            else (if e b then 1%Z else 0%Z).

Let R (p q : Sort.indexed T) : Prop :=
  (c (Sort.val p) (Sort.val q) < 0)%Z \/
  (c (Sort.val p) (Sort.val q) = 0%Z /\ Sort.key p < Sort.key q).

Lemma pairs_from_sorted (l : list T) :
  forall i,
    StronglySorted (fun p q : Sort.indexed T => Sort.key p < Sort.key q)
                   (Sort.pairs_from i l).
Proof.
  induction l as [|x rest IH]; intros i; simpl; constructor.
  - apply IH.
  - apply Forall_forall. intros p Hp.
    destruct (pairs_from_In _ _ _ Hp) as [Hk _]. simpl. lia.
Qed.

Lemma StronglySorted_filter {U} (Q : U -> U -> Prop) (f : U -> bool)
    (l : list U) :
  StronglySorted Q l -> StronglySorted Q (filter f l).
Proof.
  induction 1 as [|x rest Hs IH Hall]; simpl; [constructor|].
  destruct (f x); [|exact IH].
  constructor; [exact IH|].
  apply Forall_forall. intros y Hy. apply filter_In in Hy.
  rewrite Forall_forall in Hall. apply Hall. exact (proj1 Hy).
Qed.

Lemma StronglySorted_app {U} (Q : U -> U -> Prop) (l1 l2 : list U) :
  StronglySorted Q l1 -> StronglySorted Q l2 ->
  (forall a b, In a l1 -> In b l2 -> Q a b) ->
  StronglySorted Q (l1 ++ l2).
Proof.
  induction 1 as [|x rest Hs IH Hall]; intros H2 Hcross; simpl; [exact H2|].
  constructor.
  - apply IH; [exact H2|]. intros a b Ha Hb. apply Hcross; [right|]; assumption.
  - apply Forall_app. split; [exact Hall|].
    apply Forall_forall. intros b Hb. apply Hcross; [left; reflexivity|exact Hb].
Qed.

Lemma StronglySorted_In_weaken {U} (Q Q' : U -> U -> Prop) (l : list U) :
  (forall a b, In a l -> In b l -> Q a b -> Q' a b) ->
  StronglySorted Q l -> StronglySorted Q' l.
Proof.
  intros Himp Hs. induction Hs as [|x rest Hs IH Hall]; constructor.
  - apply IH. intros a b Ha Hb. apply Himp; right; assumption.
  - rewrite Forall_forall in *. intros y Hy.
    apply Himp; [left; reflexivity|right; exact Hy|apply Hall; exact Hy].
Qed.

Lemma map_val_filter (f : T -> bool) (ps : list (Sort.indexed T)) :
  map (@Sort.val T) (filter (fun p => f (Sort.val p)) ps) =
  filter f (map (@Sort.val T) ps).
Proof.
  induction ps as [|p rest IH]; simpl; [reflexivity|].
  destruct (f (Sort.val p)); simpl; rewrite IH; reflexivity.
Qed.

(** Under a comparison function that only tells the elements that
    satisfy [e] from the others, and ranks them first, the stable order
    of a list is those elements, then the others, each in their order. *)
Lemma stable_order_partition (l : list T) :
  stable_order c l (filter e l ++ filter (fun x => negb (e x)) l).
Proof.
  exists (filter (fun p => e (Sort.val p)) (Sort.pairs_from 0 l) ++
          filter (fun p => negb (e (Sort.val p))) (Sort.pairs_from 0 l)).
  split; [|split].
  - apply Permutation_sym.
    apply (filter_split_permutation (fun p => e (Sort.val p))).
  - rewrite map_app.
    rewrite (map_val_filter e),
            (map_val_filter (fun x => negb (e x))).
    rewrite pairs_from_vals. reflexivity.
  - fold R. apply StronglySorted_app.
    + apply (StronglySorted_In_weaken
               (Q := fun p q : Sort.indexed T => Sort.key p < Sort.key q)).
      * intros a b Ha Hb Hk. apply filter_In in Ha, Hb.
        right. split; [|exact Hk].
        rewrite Hc, (proj2 Ha), (proj2 Hb). reflexivity.
      * apply StronglySorted_filter, pairs_from_sorted.
    + apply (StronglySorted_In_weaken
               (Q := fun p q : Sort.indexed T => Sort.key p < Sort.key q)).
      * intros a b Ha Hb Hk. apply filter_In in Ha, Hb.
        destruct Ha as [_ Ha]. destruct Hb as [_ Hb].
        apply negb_true_iff in Ha, Hb.
        right. split; [|exact Hk].
        rewrite Hc, Ha, Hb. reflexivity.
      * apply StronglySorted_filter, pairs_from_sorted.
    + intros a b Ha Hb. apply filter_In in Ha, Hb.
      destruct Ha as [_ Ha]. destruct Hb as [_ Hb].
      apply negb_true_iff in Hb.
      left. rewrite Hc, Ha, Hb. lia.
Qed.

End PartitionFacts.

Lemma censorship_cases (a b : list (string * json)) :
  sort_censorship a b =
  if is_explicit a then (if is_explicit b then 0%Z else (-1)%Z)
  else (if is_explicit b then 1%Z else 0%Z).
Proof.
  unfold sort_censorship, Sort.descending, censorship_score, is_explicit,
    js_gt, js_lt, Relational_Z.
  destruct (truthy (get (JObj a) "explicit"));
    destruct (truthy (get (JObj b) "explicit")); reflexivity.
Qed.

(** X30. Sorting track objects with [stableSort] under [censorship] puts
    the explicit ones first and the others after them, the tracks of each
    kind staying in the order they had, on any sort primitive. *)
Theorem censorship_explicit_first :
  forall (host_sort : forall T, comparator T -> list T -> list T)
         (rel : Relational (list (string * json)))
         (arr : list (list (string * json))),
    sorts host_sort ->
    Sort.stableSort host_sort arr (Some sort_censorship) =
    Ok (filter is_explicit arr ++
        filter (fun x => negb (is_explicit x)) arr).
Proof.
  intros host_sort rel arr Hhost.
  assert (Hcons : consistent sort_censorship)
    by apply descending_consistent.
  rewrite stableSort_unfold. f_equal.
  apply (stable_order_unique Hcons (l := arr)).
  - apply stableSort_stable; assumption.
  - apply stable_order_partition. exact censorship_cases.
Qed.

Lemma censorship_explicit_first_witness :
  sorts unstable_sort /\
  Sort.stableSort (H := fun _ _ => false) unstable_sort
    [clean_version; explicit_version; plain_version; explicit_version]
    (Some sort_censorship) =
  Ok [explicit_version; explicit_version; clean_version; plain_version].
Proof.
  split; [exact unstable_sort_sorts|].
  exact (@censorship_explicit_first unstable_sort (fun _ _ => false)
           [clean_version; explicit_version; plain_version; explicit_version]
           unstable_sort_sorts).
Defined.

(* ================================================================== *)
(** * Queue.sort and the array sort primitive *)
(* ================================================================== *)

(** ** The order of strings *)

Lemma ascii_compare_refl (a : ascii) : Ascii.compare a a = Eq.
Proof. unfold Ascii.compare. apply N.compare_refl. Qed.

Lemma ascii_compare_lt_trans (a b c : ascii) :
  Ascii.compare a b = Lt -> Ascii.compare b c = Lt -> Ascii.compare a c = Lt.
Proof.
  unfold Ascii.compare. rewrite !N.compare_lt_iff. lia.
Qed.

Lemma string_compare_refl (s : string) : String.compare s s = Eq.
Proof.
  induction s as [|a s IH]; simpl; [reflexivity|].
  rewrite ascii_compare_refl. exact IH.
Qed.

Lemma string_compare_lt_trans (s1 : string) :
  forall s2 s3,
    String.compare s1 s2 = Lt -> String.compare s2 s3 = Lt ->
    String.compare s1 s3 = Lt.
Proof.
  induction s1 as [|a s1 IH]; intros [|b s2] [|c s3]; simpl;
    try discriminate; try reflexivity.
  destruct (Ascii.compare a b) eqn:Hab; try discriminate;
    destruct (Ascii.compare b c) eqn:Hbc; try discriminate; intros H12 H23.
  - apply Ascii.compare_eq_iff in Hab, Hbc. subst.
    rewrite ascii_compare_refl. exact (IH _ _ H12 H23).
  - apply Ascii.compare_eq_iff in Hab. subst. rewrite Hbc. reflexivity.
  - apply Ascii.compare_eq_iff in Hbc. subst. rewrite Hab. reflexivity.
  - rewrite (ascii_compare_lt_trans _ _ _ Hab Hbc). reflexivity.
Qed.

Lemma string_ltb_irrefl (s : string) : String.ltb s s = false.
Proof. unfold String.ltb. rewrite string_compare_refl. reflexivity. Qed.

Lemma string_ltb_asym (s1 s2 : string) :
  String.ltb s1 s2 = true -> String.ltb s2 s1 = false.
Proof.
  unfold String.ltb.
  destruct (String.compare s1 s2) eqn:H12; try discriminate.
  intros _. rewrite String.compare_antisym, H12. reflexivity.
Qed.

Lemma string_ltb_cotrans (s1 s2 s3 : string) :
  String.ltb s2 s1 = false -> String.ltb s3 s2 = false ->
  String.ltb s3 s1 = false.
Proof.
  unfold String.ltb. intros H21 H32.
  destruct (String.compare s3 s1) eqn:H31; try reflexivity.
  exfalso.
  destruct (String.compare s2 s1) eqn:H21'; try discriminate.
  - apply String.compare_eq_iff in H21'. subst.
    rewrite H31 in H32. discriminate.
  - assert (H12 : String.compare s1 s2 = Lt).
    { rewrite String.compare_antisym, H21'. reflexivity. }
    rewrite (string_compare_lt_trans _ _ _ H31 H12) in H32. discriminate.
Qed.

(** ** Consistent comparison functions *)

Section ThreeWay.
Context {T : Type} (lt : T -> T -> bool).
Hypothesis lt_irrefl : forall a, lt a a = false.
Hypothesis lt_asym : forall a b, lt a b = true -> lt b a = false.
Hypothesis lt_cotrans :
  forall a b d, lt b a = false -> lt d b = false -> lt d a = false.

(** The three-way comparison read off a strict order. *)
Lemma three_way_consistent :
  consistent
    (fun x y => if lt x y then (-1)%Z else if lt y x then 1%Z else 0%Z).
Proof.
  split; [|split].
  - intros a. rewrite lt_irrefl. reflexivity.
  - intros a b. destruct (lt a b) eqn:Hab.
    + rewrite (@lt_asym _ _ Hab). lia.
    + destruct (lt b a); lia.
  - intros a b d Hab Hbd.
    assert (Hba : lt b a = false).
    { destruct (lt a b) eqn:H1; [apply lt_asym; exact H1|].
      destruct (lt b a); [lia|reflexivity]. }
    assert (Hdb : lt d b = false).
    { destruct (lt b d) eqn:H1; [apply lt_asym; exact H1|].
      destruct (lt d b); [lia|reflexivity]. }
    rewrite (@lt_cotrans _ _ _ Hba Hdb). destruct (lt a d); lia.
Qed.

End ThreeWay.

(** Ascending order on string scores. *)
Lemma ascending_string_consistent {T} (score : T -> string) :
  consistent (Sort.ascending score).
Proof.
  unfold Sort.ascending, js_gt, js_lt, Relational_string.
  apply (three_way_consistent
           (fun x y => String.ltb (score x) (score y))).
  - intros a. apply string_ltb_irrefl.
  - intros a b. apply string_ltb_asym.
  - intros a b d. apply string_ltb_cotrans.
Qed.

Section SortCompareFacts.
Context {T : Type} `{Stringable T} `{Undefinable T}.


(** Ranking [undefined] behind everything else keeps a comparison
    function consistent. *)
Lemma undefined_last_consistent (c : comparator T) :
  consistent c ->
  consistent
    (fun x y =>
       if is_undefined x && is_undefined y then 0%Z
       else if is_undefined x then 1%Z
       else if is_undefined y then (-1)%Z
       else c x y).
Proof.
  intros (Hrefl & Hsym & Htrans). split; [|split].
  - intros a. destruct (is_undefined a); [reflexivity|apply Hrefl].
  - intros a b. destruct (is_undefined a), (is_undefined b); simpl;
      try lia. apply Hsym.
  - intros a b d.
    destruct (is_undefined a), (is_undefined b), (is_undefined d); simpl;
      try lia. apply Htrans.
Qed.

Lemma SortCompare_consistent (fn : option (comparator T)) :
  (forall f, fn = Some f -> consistent f) ->
  consistent (SortCompare fn).
Proof.
  intros Hfn. destruct fn as [f|].
  - exact (undefined_last_consistent (Hfn f eq_refl)).
  - exact (undefined_last_consistent
             (ascending_string_consistent (@to_string T _))).
Qed.

End SortCompareFacts.

(** ** Stable orders *)



Section InsertionStable.
Context {T : Type} (c : comparator T) (Hc : consistent c).


Let before (p q : Sort.indexed T) : Prop :=
  (c (Sort.val p) (Sort.val q) < 0)%Z \/
  (c (Sort.val p) (Sort.val q) = 0%Z /\ Sort.key p < Sort.key q).






End InsertionStable.


(** Behind an [undefined] in what the primitive returns there are only
    [undefined]s, whatever the comparison function. *)
Lemma queue_sort_undefined_last
    (host_sort : forall T, comparator T -> list T -> list T)
    (E : Type) (str : Stringable E) (und : Undefinable E)
    (fn : option (comparator E)) (q : list E) :
  sorts host_sort ->
  (forall f, fn = Some f -> consistent f) ->
  exists defined undefineds,
    Queue_sort host_sort fn q = defined ++ undefineds /\
    Forall (fun x => is_undefined x = false) defined /\
    Forall (fun x => is_undefined x = true) undefineds /\
    Permutation q (defined ++ undefineds).
Proof.
  intros Hhost Hfn. unfold Queue_sort.
  destruct (Hhost E (SortCompare fn) q (@SortCompare_consistent _ _ _ fn Hfn))
    as [Hperm Hsorted].
  revert Hperm. generalize (host_sort E (SortCompare fn) q) as r, Hsorted.
  intros r Hs Hperm.
  assert (Hsplit : exists defined undefineds,
             r = defined ++ undefineds /\
             Forall (fun x => is_undefined x = false) defined /\
             Forall (fun x => is_undefined x = true) undefineds).
  { clear Hperm. induction Hs as [|x rest Hs IH Hall].
    - exists [], []. repeat split; constructor.
    - destruct (is_undefined x) eqn:Hx.
      + exists [], (x :: rest). split; [reflexivity|].
        split; [constructor|]. constructor; [exact Hx|].
        rewrite Forall_forall in *. intros y Hy. specialize (Hall y Hy).
        unfold SortCompare in Hall. rewrite Hx in Hall.
        destruct (is_undefined y); [reflexivity|simpl in Hall; lia].
      + destruct IH as (d & u & -> & Hd & Hu).
        exists (x :: d), u. split; [reflexivity|].
        split; [constructor; assumption|exact Hu]. }
  destruct Hsplit as (d & u & -> & Hd & Hu).
  exists d, u. repeat split; assumption.
Qed.



